(** * Plugin manager: dependency graph and load / unload / reload protocol

    A shallow embedding of [util/digraph.py] and [plugins/__init__.py].

    - Python dictionaries keep their keys in insertion order and the
      algorithms below iterate over them, so a dictionary is an association
      list with keys in insertion order.
    - A Python set is a duplicate-free list.  The order in which Python
      iterates over a set is unspecified; the list order stands for that
      order and every general theorem quantifies over all graphs, hence
      over every possible order.
    - The traversals of the graph are recursive and guarded by a visited
      set; they are defined by recursion on a depth bound computed from
      the graph, return [None] when the bound is exceeded, and are proved
      never to exceed it.  The topological iterations are generators; the
      graphs they run over are not changed while they are consumed, so
      they are modelled by the list of what they yield.
    - Exceptions are values: an operation returns [Ok v] or [Raise x], where
      [x] is the raised error followed by its [__context__] chain.
    - A plugin is what the manager can observe of it: the statements of
      its body that import a module, register a finalizer or raise, and
      finalizers that return or raise. *)

From Stdlib Require Import String Ascii List Bool Arith Lia.
Import ListNotations.


(** ** Dictionaries (insertion ordered) *)

Section Dict.
Variable K : Type.
Variable K_eq_dec : forall x y : K, {x = y} + {x <> y}.
Variable A : Type.

Definition dict := list (K * A).

Definition keys (d : dict) : list K := map fst d.

(** [d[k]], [None] standing for [KeyError]. *)
Fixpoint lookup (d : dict) (k : K) : option A :=
  match d with
  | [] => None
  | (k', v) :: d' => if K_eq_dec k k' then Some v else lookup d' k
  end.

(** [k in d] *)
Definition has_key (d : dict) (k : K) : bool :=
  match lookup d k with Some _ => true | None => false end.

(** [d[k] = v]: an existing key keeps its position, a new key goes last. *)
Fixpoint dict_set (d : dict) (k : K) (v : A) : dict :=
  match d with
  | [] => [(k, v)]
  | (k', v') :: d' =>
      if K_eq_dec k k' then (k', v) :: d' else (k', v') :: dict_set d' k v
  end.

(** [del d[k]]; callers check for the key where Python would raise. *)
Fixpoint dict_del (d : dict) (k : K) : dict :=
  match d with
  | [] => []
  | (k', v') :: d' =>
      if K_eq_dec k k' then dict_del d' k else (k', v') :: dict_del d' k
  end.

End Dict.

Arguments keys {K A} d.
Arguments lookup {K} K_eq_dec {A} d k.
Arguments has_key {K} K_eq_dec {A} d k.
Arguments dict_set {K} K_eq_dec {A} d k v.
Arguments dict_del {K} K_eq_dec {A} d k.

(** A loop over a list whose body may fail ([None]). *)
Fixpoint fold_opt {S A : Type} (step : S -> A -> option S) (l : list A) (s : S)
  : option S :=
  match l with
  | [] => Some s
  | a :: l' =>
      match step s a with
      | Some s' => fold_opt step l' s'
      | None => None
      end
  end.

(** ** util/digraph.py *)

Section Digraph.
Variable V : Type.
Variable V_eq_dec : forall x y : V, {x = y} + {x <> y}.

(** A Python set of vertices. *)
Definition pyset := list V.

(** [x in s] *)
Definition mem (x : V) (s : pyset) : bool :=
  if in_dec V_eq_dec x s then true else false.

(** [s.add(x)] *)
Definition set_add (x : V) (s : pyset) : pyset :=
  if mem x s then s else s ++ [x].

(** [s.discard(x)] *)
Definition discard (x : V) (s : pyset) : pyset := remove V_eq_dec x s.

(** [class Digraph], slots [fwd] and [bck]. *)
Record Digraph : Type := mkDigraph {
  fwd : dict V pyset;
  bck : dict V pyset
}.

(** [Digraph.__init__] *)
Definition empty : Digraph := mkDigraph [] [].

(** [if x not in d: d[x] = set()] followed by [d[x].add(y)] *)
Definition set_insert (d : dict V pyset) (x y : V) : dict V pyset :=
  let d1 := if has_key V_eq_dec d x then d else dict_set V_eq_dec d x [] in
  match lookup V_eq_dec d1 x with
  | Some s => dict_set V_eq_dec d1 x (set_add y s)
  | None => d1
  end.

(** [d[x] if x in d else set()] *)
Definition entry (d : dict V pyset) (x : V) : pyset :=
  match lookup V_eq_dec d x with Some s => s | None => [] end.

(** [Digraph.add_edge] *)
Definition add_edge (g : Digraph) (x y : V) : Digraph :=
  mkDigraph (set_insert (fwd g) x y) (set_insert (bck g) y x).

(** [Digraph.edges_to] *)
Definition edges_to (g : Digraph) (x : V) : pyset := entry (bck g) x.

(** [Digraph.edges_from] *)
Definition edges_from (g : Digraph) (x : V) : pyset := entry (fwd g) x.

(** The inner [dfs] of [subgraph_paths_to]; the state is the pair of the
    closure variables [seen] and [graph].  [fuel] bounds the recursion
    depth, [None] means the bound was too small. *)
Fixpoint sub_dfs (fuel : nat) (g : Digraph) (x : V) (st : pyset * Digraph)
  : option (pyset * Digraph) :=
  match fuel with
  | O => None
  | S f =>
      if mem x (fst st) then Some st
      else
        let st1 := (set_add x (fst st), snd st) in
        match lookup V_eq_dec (bck g) x with
        | Some ys =>
            fold_opt
              (fun s y => sub_dfs f g y (fst s, add_edge (snd s) y x))
              ys st1
        | None => Some st1
        end
  end.

(** Every vertex a traversal along [d] can discover, with repetitions. *)
Definition targets (d : dict V pyset) : list V := concat (map snd d).

(** Recursion depth that always suffices for a traversal along [d]. *)
Definition depth_bound (d : dict V pyset) : nat := S (S (length (targets d))).

(** [Digraph.subgraph_paths_to] *)
Definition subgraph_paths_to (g : Digraph) (x : V) : option Digraph :=
  match sub_dfs (depth_bound (bck g)) g x ([], empty) with
  | Some st => Some (snd st)
  | None => None
  end.

(** The nested generator [dfs] shared by both topological iterations: it
    follows the mapping [adj] and yields [x] after everything reached from
    it.  The state is [seen] and the sequence yielded so far. *)
Fixpoint topo_dfs (fuel : nat) (adj : dict V pyset) (x : V)
  (st : pyset * list V) : option (pyset * list V) :=
  match fuel with
  | O => None
  | S f =>
      if mem x (fst st) then Some st
      else
        let st1 := (set_add x (fst st), snd st) in
        match
          match lookup V_eq_dec adj x with
          | Some ys => fold_opt (fun s y => topo_dfs f adj y s) ys st1
          | None => Some st1
          end
        with
        | Some st2 => Some (fst st2, snd st2 ++ [x])
        | None => None
        end
  end.

(** The two seed loops of a topological iteration: first over the keys of
    [first], then over the keys of [second], following [adj]. *)
Definition topo_sort (adj first second : dict V pyset) : option (list V) :=
  let run := fold_opt (fun s x => topo_dfs (depth_bound adj) adj x s) in
  match run (keys first) ([], []) with
  | Some s1 =>
      match run (keys second) s1 with
      | Some s2 => Some (snd s2)
      | None => None
      end
  | None => None
  end.

(** [Digraph.topo_sort_fwd]: seeds [fwd] then [bck], follows [bck]. *)
Definition topo_sort_fwd (g : Digraph) : option (list V) :=
  topo_sort (bck g) (fwd g) (bck g).

(** [Digraph.topo_sort_bck]: seeds [bck] then [fwd], follows [fwd]. *)
Definition topo_sort_bck (g : Digraph) : option (list V) :=
  topo_sort (fwd g) (bck g) (fwd g).

(** The loop [for y in ys: other[y].discard(x)]; the second component is
    the key of a [KeyError], the first the mapping as mutated so far. *)
Fixpoint discard_each (other : dict V pyset) (x : V) (ys : list V)
  : dict V pyset * option V :=
  match ys with
  | [] => (other, None)
  | y :: ys' =>
      match lookup V_eq_dec other y with
      | Some s => discard_each (dict_set V_eq_dec other y (discard x s)) x ys'
      | None => (other, Some y)
      end
  end.

(** [Digraph.del_edges_from]; [Some y] reports [KeyError(y)]. *)
Definition del_edges_from (g : Digraph) (x : V) : Digraph * option V :=
  match lookup V_eq_dec (fwd g) x with
  | Some ys =>
      match discard_each (bck g) x ys with
      | (b, None) => (mkDigraph (dict_del V_eq_dec (fwd g) x) b, None)
      | (b, Some y) => (mkDigraph (fwd g) b, Some y)
      end
  | None => (g, None)
  end.

(** [Digraph.del_edges_to]; [Some y] reports [KeyError(y)]. *)
Definition del_edges_to (g : Digraph) (x : V) : Digraph * option V :=
  match lookup V_eq_dec (bck g) x with
  | Some ys =>
      match discard_each (fwd g) x ys with
      | (f, None) => (mkDigraph f (dict_del V_eq_dec (bck g) x), None)
      | (f, Some y) => (mkDigraph f (bck g), Some y)
      end
  | None => (g, None)
  end.

(** *** Vocabulary for statements about graphs *)

(** [adj] maps [u] to a set that contains [v]. *)
Definition arc (adj : dict V pyset) (u v : V) : Prop := In v (entry adj u).

(** A walk of at least one arc. *)
Inductive walk (adj : dict V pyset) : V -> V -> Prop :=
| walk_one u v : arc adj u v -> walk adj u v
| walk_more u v w : walk adj u v -> arc adj v w -> walk adj u w.

(** There is an edge from [a] to [b]. *)
Definition edge (g : Digraph) (a b : V) : Prop := In b (edges_from g a).

(** A directed path with at least one edge. *)
Definition path (g : Digraph) (a b : V) : Prop := walk (fwd g) a b.

Definition acyclic (g : Digraph) : Prop := forall v, ~ path g v v.

(** [v] is stored: it is a key of one of the two mappings.  These are the
    vertices the iterations visit. *)
Definition is_key (g : Digraph) (v : V) : Prop :=
  In v (keys (fwd g)) \/ In v (keys (bck g)).

(** [v] has an incident edge. *)
Definition incident (g : Digraph) (v : V) : Prop :=
  exists w, edge g v w \/ edge g w v.

(** The graph with every edge reversed. *)
Definition transpose (g : Digraph) : Digraph := mkDigraph (bck g) (fwd g).

(** How many of the vertices in [pool] are not in [seen]. *)
Definition unseen (pool : list V) (seen : pyset) : nat :=
  length (filter (fun u => negb (mem u seen)) pool).

(** The two mappings describe the same edges, and the stored sets and key
    lists have no duplicates. *)
Record consistent (g : Digraph) : Prop := mkConsistent {
  cons_inverse : forall a b, In b (edges_from g a) <-> In a (edges_to g b);
  cons_fwd_keys : NoDup (keys (fwd g));
  cons_bck_keys : NoDup (keys (bck g));
  cons_fwd_sets : forall k s, lookup V_eq_dec (fwd g) k = Some s -> NoDup s;
  cons_bck_sets : forall k s, lookup V_eq_dec (bck g) k = Some s -> NoDup s
}.

(** No stored set is empty, so that the keys are the vertices that have
    an edge. *)
Definition no_empty_set (g : Digraph) : Prop :=
  (forall k, In k (keys (fwd g)) -> entry (fwd g) k <> []) /\
  (forall k, In k (keys (bck g)) -> entry (bck g) k <> []).

(** The postcondition of one call of the inner [dfs], from [(seen, gr)] to
    [(seen', gr')]: the vertices added to [seen] can all be reached from
    [x] along [bck], each of them has all its predecessors in [seen'], and
    the edges added to the graph are the edges of [g] into them. *)
Definition sub_post (g : Digraph) (P : Digraph -> Prop) (x : V)
  (seen : pyset) (gr : Digraph) (seen' : pyset) (gr' : Digraph) : Prop :=
  incl seen seen' /\
  In x seen' /\
  (forall v, In v seen' -> In v seen \/ v = x \/ walk (bck g) x v) /\
  (forall z y, In z seen' -> ~ In z seen -> In y (entry (bck g) z) ->
               In y seen') /\
  (forall a b, In b (entry (fwd gr') a) <->
               In b (entry (fwd gr) a) \/
               (In b seen' /\ ~ In b seen /\ In a (entry (bck g) b))) /\
  (P gr -> P gr').

(** [a] occurs strictly before [b] in [l]. *)
Definition before (l : list V) (a b : V) : Prop :=
  exists l1 l2 l3, l = l1 ++ a :: l2 ++ b :: l3.

(** Whatever [adj] maps a member of [out] to comes earlier in [out]. *)
Definition closed_order (adj : dict V pyset) (out : list V) : Prop :=
  forall b a, In b out -> arc adj b a -> before out a b.

(** The postcondition of one call of the generator [dfs] of a topological
    iteration, from [(seen, out)] to [(seen', out')]: it yields the
    vertices it adds to [seen], each once, [x] among them unless it was
    seen; and when [adj] has no cycle and the vertices seen but not yet
    yielded all lead to [x], the order stays closed and [x] is yielded. *)
Definition topo_post (adj : dict V pyset) (x : V)
  (seen : pyset) (out : list V) (seen' : pyset) (out' : list V) : Prop :=
  exists new, out' = out ++ new /\ NoDup out' /\
    (forall v, In v seen' <-> In v seen \/ In v new) /\
    (forall v, In v new -> ~ In v seen) /\
    In x seen' /\
    (forall v, In v new -> v = x \/ In v (targets adj)) /\
    ((forall v, ~ walk adj v v) ->
     (forall s, In s seen -> ~ In s out -> walk adj s x) ->
     closed_order adj out -> closed_order adj out' /\ In x out').

(** The operations that change a graph. *)
Inductive graph_op : Type :=
| AddEdge (x y : V)
| DelEdgesFrom (x : V)
| DelEdgesTo (x : V).

Definition apply_op (g : Digraph) (o : graph_op) : Digraph :=
  match o with
  | AddEdge x y => add_edge g x y
  | DelEdgesFrom x => fst (del_edges_from g x)
  | DelEdgesTo x => fst (del_edges_to g x)
  end.

Definition run_ops (ops : list graph_op) : Digraph := fold_left apply_op ops empty.

End Digraph.

Arguments mem {V} V_eq_dec x s.
Arguments set_add {V} V_eq_dec x s.
Arguments discard {V} V_eq_dec x s.
Arguments mkDigraph {V} fwd bck.
Arguments fwd {V} d.
Arguments bck {V} d.
Arguments empty {V}.
Arguments entry {V} V_eq_dec d x.
Arguments set_insert {V} V_eq_dec d x y.
Arguments add_edge {V} V_eq_dec g x y.
Arguments edges_to {V} V_eq_dec g x.
Arguments edges_from {V} V_eq_dec g x.
Arguments sub_dfs {V} V_eq_dec fuel g x st.
Arguments targets {V} d.
Arguments depth_bound {V} d.
Arguments subgraph_paths_to {V} V_eq_dec g x.
Arguments topo_dfs {V} V_eq_dec fuel adj x st.
Arguments topo_sort {V} V_eq_dec adj first second.
Arguments topo_sort_fwd {V} V_eq_dec g.
Arguments topo_sort_bck {V} V_eq_dec g.
Arguments discard_each {V} V_eq_dec other x ys.
Arguments del_edges_from {V} V_eq_dec g x.
Arguments del_edges_to {V} V_eq_dec g x.
Arguments arc {V} V_eq_dec adj u v.
Arguments walk {V} V_eq_dec adj _ _.
Arguments walk_one {V} V_eq_dec adj u v _.
Arguments walk_more {V} V_eq_dec adj u v w _ _.
Arguments edge {V} V_eq_dec g a b.
Arguments path {V} V_eq_dec g a b.
Arguments acyclic {V} V_eq_dec g.
Arguments is_key {V} g v.
Arguments incident {V} V_eq_dec g v.
Arguments transpose {V} g.
Arguments unseen {V} V_eq_dec pool seen.
Arguments consistent {V} V_eq_dec g.
Arguments no_empty_set {V} V_eq_dec g.
Arguments sub_post {V} V_eq_dec g P x seen gr seen' gr'.
Arguments cons_inverse {V V_eq_dec g} _ a b.
Arguments cons_fwd_keys {V V_eq_dec g} _.
Arguments cons_bck_keys {V V_eq_dec g} _.
Arguments cons_fwd_sets {V V_eq_dec g} _ k s _.
Arguments cons_bck_sets {V V_eq_dec g} _ k s _.
Arguments before {V} l a b.
Arguments closed_order {V} V_eq_dec adj out.
Arguments topo_post {V} V_eq_dec adj x seen out seen' out'.
Arguments AddEdge {V} x y.
Arguments DelEdgesFrom {V} x.
Arguments DelEdgesTo {V} x.
Arguments apply_op {V} V_eq_dec g o.
Arguments run_ops {V} V_eq_dec ops.

(** *** Example graphs *)

(** [plugins.b] depends on [plugins.a], [plugins.c] on [plugins.b]. *)
Definition chain_graph : Digraph string :=
  run_ops string_dec
    [AddEdge "plugins.b" "plugins.a"; AddEdge "plugins.c" "plugins.b"]%string.

Definition chain_rank (s : string) : nat :=
  if string_dec s "plugins.c" then 2
  else if string_dec s "plugins.b" then 1
  else 0.

(** One edge, from [a] to [x]. *)
Definition one_edge_graph : Digraph string :=
  run_ops string_dec [AddEdge "a" "x"]%string.

(** [add_edge("a", "b")] followed by [del_edges_from("a")]. *)
Definition emptied_graph : Digraph string :=
  run_ops string_dec [AddEdge "a" "b"; DelEdgesFrom "a"]%string.

(** ** Exceptions and the state monad of the plugin manager *)

(** The errors that can be raised.  [PluginError] is whatever the code of a
    plugin (its body or one of its finalizers) raises. *)
Inductive error : Type :=
| ValueError (msg : string)
| KeyError (key : string)
| ModuleNotFoundError (name : string)
| PluginError (tag : string).

(** A raised exception: the error itself, then its [__context__] chain,
    most recent first. *)
Definition exn := list error.

(** [OutOfFuel] is not a Python outcome: it reports that a recursion bound of
    the model was too small. *)
Inductive result (A : Type) : Type :=
| Ok (a : A)
| Raise (x : exn)
| OutOfFuel.

Arguments Ok {A} a.
Arguments Raise {A} x.
Arguments OutOfFuel {A}.

(** A computation runs while some exception [h] is being handled ([[]] when
    none is), because Python chains a new exception to the one in flight. *)
Definition M (S A : Type) : Type := exn -> S -> S * result A.

Definition ret {S A} (a : A) : M S A := fun _ st => (st, Ok a).

Definition bind {S A B} (c : M S A) (k : A -> M S B) : M S B :=
  fun h st =>
    match c h st with
    | (st1, Ok a) => k a h st1
    | (st1, Raise x) => (st1, Raise x)
    | (st1, OutOfFuel) => (st1, OutOfFuel)
    end.

Notation "x <- c ;; k" := (bind c (fun x => k))
  (at level 61, c at next level, right associativity).
Notation "c ;;; k" := (bind c (fun _ => k))
  (at level 61, right associativity).

(** [raise e] *)
Definition raise {S A} (e : error) : M S A := fun h st => (st, Raise (e :: h)).

Definition get {S} : M S S := fun _ st => (st, Ok st).

Definition modify {S} (f : S -> S) : M S unit := fun _ st => (f st, Ok tt).

(** A traversal of the graph that exhausted its bound. *)
Definition lift_opt {S A} (o : option A) : M S A :=
  fun _ st => (st, match o with Some a => Ok a | None => OutOfFuel end).

(** The body of [except: handler; raise], entered with the caught [x]. *)
Definition except_reraise {S A B} (handler : M S A) (x : exn) (st : S)
  : S * result B :=
  match handler x st with
  | (st1, Ok _) => (st1, Raise x)
  | (st1, Raise y) => (st1, Raise y)
  | (st1, OutOfFuel) => (st1, OutOfFuel)
  end.

(** [try: body  except: handler; raise] *)
Definition try_except {S A B} (body : M S A) (handler : M S B) : M S A :=
  fun h st =>
    match body h st with
    | (st1, Raise x) => except_reraise handler x st1
    | r => r
    end.

(** [try: body  finally: final] *)
Definition try_finally {S A B} (body : M S A) (final : M S B) : M S A :=
  fun h st =>
    match body h st with
    | (st1, Ok a) =>
        match final h st1 with
        | (st2, Ok _) => (st2, Ok a)
        | (st2, Raise y) => (st2, Raise y)
        | (st2, OutOfFuel) => (st2, OutOfFuel)
        end
    | (st1, Raise x) => except_reraise final x st1
    | (st1, OutOfFuel) => (st1, OutOfFuel)
    end.

(** The idiom used four times in [plugins/__init__.py]:
<<
    def cont():
        try:
            for x in gen:
                body(x)
        except:
            cont()
            raise
        after
    cont()
>>
    [gen] is one iterator shared by all activations, here the list of the
    items it has not produced yet.  When [body] raises, the activation
    calls [cont] on the rest of the iterator and re-raises; when [body]
    returns, the same activation goes on with the rest of the iterator,
    which is what a new activation on the rest does.  [after] runs in the
    activation whose loop ends normally, that is once, when the iterator is
    exhausted. *)
Fixpoint cont_loop {S A B} (body : A -> M S unit) (after : M S B)
  (gen : list A) : M S B :=
  match gen with
  | [] => after
  | x :: gen' =>
      fun h st =>
        match body x h st with
        | (st1, Ok _) => cont_loop body after gen' h st1
        | (st1, Raise e) => except_reraise (cont_loop body after gen') e st1
        | (st1, OutOfFuel) => (st1, OutOfFuel)
        end
  end.

(** The same work written with an explicit collector: every item is
    attempted, a raised exception becomes the one in flight for the items
    after it, and the collected exception is raised at the end. *)
Record collector (S : Type) : Type := mkCollector {
  col_state : S;
  col_chain : exn;
  col_failed : bool;
  col_stopped : bool
}.

Arguments mkCollector {S} col_state col_chain col_failed col_stopped.
Arguments col_state {S} c.
Arguments col_chain {S} c.
Arguments col_failed {S} c.
Arguments col_stopped {S} c.

Definition collect_step {S A} (body : A -> M S unit) (c : collector S) (x : A)
  : collector S :=
  if col_stopped c then c
  else
    match body x (col_chain c) (col_state c) with
    | (st1, Ok _) => mkCollector st1 (col_chain c) (col_failed c) false
    | (st1, Raise e) => mkCollector st1 e true false
    | (st1, OutOfFuel) => mkCollector st1 (col_chain c) (col_failed c) true
    end.

Definition collect_all {S A} (body : A -> M S unit) (l : list A)
  (h : exn) (st : S) : collector S :=
  fold_left (collect_step body) l (mkCollector st h false false).

(** What the collector turns into once [after] has run too. *)
Definition collect_finish {S B} (after : M S B) (c : collector S)
  : S * result B :=
  if col_stopped c then (col_state c, OutOfFuel)
  else if col_failed c then except_reraise after (col_chain c) (col_state c)
  else after (col_chain c) (col_state c).

(** [c] keeps the invariant [I] of the state, however it ends. *)
Definition keeps {S A} (I : S -> Prop) (c : M S A) : Prop :=
  forall h st, I st -> I (fst (c h st)).

(** Whatever [c] raises has the exception that was in flight at the end of
    its context chain. *)
Definition chains {S A} (c : M S A) : Prop :=
  forall h st st' e, c h st = (st', Raise e) -> exists new, e = new ++ h.

(** Attempt [body] on every item of [l], in order, whatever the earlier
    ones did, then raise what was collected, if anything. *)
Definition attempt_all {S A} (body : A -> M S unit) (l : list A) : M S unit :=
  fun h st => collect_finish (ret tt) (collect_all body l h st).

(** ** plugins/__init__.py *)

Module Plugins.

Definition str_dec := string_dec.

Definition plugins_namespace : string := "plugins".

(** [is_plugin] *)
Definition is_plugin (name : string) : bool :=
  String.prefix (plugins_namespace ++ ".") name.

(** A finalizer: a callable of the plugin's; calling it returns or raises. *)
Record action : Type := mkAction {
  act_id : nat;
  act_error : option error
}.

(** A module object; [PluginModule i] is the [i]-th object the plugin
    loader created, [ExternalModule] a module outside the namespace. *)
Inductive module : Type :=
| PluginModule (i : nat)
| ExternalModule (name : string).

(** History of the calls into plugin code and of the removals from the
    finalizer registry.  No operation reads it. *)
Inductive event : Type :=
| Called (a : action)
| Executed (name : string)
| Dropped (name : string).

(** The module globals [deps], [import_stack], [finalizers], the host's
    [sys.modules], and the allocator of module objects.  The top of
    [import_stack] is the head of the list. *)
Record state : Type := mkState {
  deps : Digraph string;
  import_stack : list string;
  finalizers : dict string (list action);
  sys_modules : dict string module;
  next_module : nat;
  log : list event
}.

Definition initial : state := mkState empty [] [] [] 0 [].

Definition set_deps (g : Digraph string) (st : state) : state :=
  mkState g (import_stack st) (finalizers st) (sys_modules st)
    (next_module st) (log st).

Definition set_import_stack (s : list string) (st : state) : state :=
  mkState (deps st) s (finalizers st) (sys_modules st) (next_module st)
    (log st).

Definition set_finalizers (f : dict string (list action)) (st : state)
  : state :=
  mkState (deps st) (import_stack st) f (sys_modules st) (next_module st)
    (log st).

Definition set_sys_modules (m : dict string module) (st : state) : state :=
  mkState (deps st) (import_stack st) (finalizers st) m (next_module st)
    (log st).

Definition set_next_module (n : nat) (st : state) : state :=
  mkState (deps st) (import_stack st) (finalizers st) (sys_modules st) n
    (log st).

Definition add_log (e : event) (st : state) : state :=
  mkState (deps st) (import_stack st) (finalizers st) (sys_modules st)
    (next_module st) (log st ++ [e]).

(** What the code of a plugin does that the manager can observe. *)
Inductive stmt : Type :=
| SImport (name : string)
| SFinalizer (a : action)
| SRaise (e : error).

(** The plugin sources the host can resolve; [None]: no such module. *)
Definition world := string -> option (list stmt).

(** [current_plugin] *)
Definition current_plugin : M state string :=
  st <- get ;;
  match import_stack st with
  | [] => raise (ValueError "not called during plugin initialization")
  | top :: _ => ret top
  end.

(** [".".join(name_parts[:i])] for [i] from 1 to [len(name_parts)], where
    [name_parts = name.split(".")]; [pre] is the part already read. *)
Fixpoint dotted_prefixes (pre s : string) : list string :=
  match s with
  | EmptyString => [pre]
  | String c s' =>
      if Ascii.eqb c "."
      then pre :: dotted_prefixes (pre ++ ".") s'
      else dotted_prefixes (pre ++ String c EmptyString) s'
  end.

(** The loop of [trace_import] that records the edges. *)
Fixpoint trace_edges (parents : list string) : M state unit :=
  match parents with
  | [] => ret tt
  | parent :: rest =>
      (if is_plugin parent
       then cur <- current_plugin ;;
            modify (fun st => set_deps (add_edge str_dec (deps st) cur parent) st)
       else ret tt) ;;;
      trace_edges rest
  end.

(** [trace_import]; [import_] is [builtins.__import__]. *)
Definition trace_import (import_ : string -> M state module) (name : string)
  : M state module :=
  trace_edges (dotted_prefixes "" name) ;;;
  import_ name.

(** [finalizer] *)
Definition finalizer (fin : action) : M state unit :=
  current <- current_plugin ;;
  modify (fun st =>
    let fs := if has_key str_dec (finalizers st) current then finalizers st
              else dict_set str_dec (finalizers st) current [] in
    match lookup str_dec fs current with
    | Some l => set_finalizers (dict_set str_dec fs current (l ++ [fin])) st
    | None => set_finalizers fs st
    end).

(** [fin()] *)
Definition call (fin : action) : M state unit :=
  modify (add_log (Called fin)) ;;;
  match act_error fin with
  | Some e => raise e
  | None => ret tt
  end.

(** [del finalizers[name]] *)
Definition del_finalizers (name : string) : M state unit :=
  st <- get ;;
  if has_key str_dec (finalizers st) name
  then modify (fun st =>
         add_log (Dropped name)
           (set_finalizers (dict_del str_dec (finalizers st) name) st))
  else raise (KeyError name).

(** The errors the actions of [fins] raise, in call order. *)
Definition raised_by (fins : list action) : list error :=
  flat_map (fun a => match act_error a with Some e => [e] | None => [] end)
           fins.

(** [finalize_module] *)
Definition finalize_module (name : string) : M state unit :=
  st <- get ;;
  match lookup str_dec (finalizers st) name with
  | None => ret tt
  | Some fins => cont_loop call (del_finalizers name) fins
  end.

(** [deps.del_edges_from(name)] *)
Definition deps_del_edges_from (name : string) : M state unit :=
  st <- get ;;
  match del_edges_from str_dec (deps st) name with
  | (g, None) => modify (set_deps g)
  | (g, Some y) => modify (set_deps g) ;;; raise (KeyError y)
  end.

(** [del sys.modules[name]] *)
Definition del_sys_module (name : string) : M state unit :=
  st <- get ;;
  if has_key str_dec (sys_modules st) name
  then modify (fun st => set_sys_modules (dict_del str_dec (sys_modules st) name) st)
  else raise (KeyError name).

(** The statements of a plugin body, run by [super().exec_module(mod)]
    with [trace_builtins] installed. *)
Fixpoint run_body (import_ : string -> M state module) (body : list stmt)
  : M state unit :=
  match body with
  | [] => ret tt
  | s :: body' =>
      match s with
      | SImport name => trace_import import_ name ;;; ret tt
      | SFinalizer a => finalizer a
      | SRaise e => raise e
      end ;;;
      run_body import_ body'
  end.

(** [PluginLoader.exec_module] *)
Definition exec_module (import_ : string -> M state module) (name : string)
  (body : list stmt) : M state unit :=
  modify (fun st => set_import_stack (name :: import_stack st) st) ;;;
  try_finally
    (try_except
       (modify (add_log (Executed name)) ;;; run_body import_ body)
       (try_finally (finalize_module name) (deps_del_edges_from name)))
    (modify (fun st => set_import_stack (tl (import_stack st)) st)).

(** The host module system, as far as the manager relies on it
    ([importlib.import_module], [builtins.__import__]): a module that is
    registered is returned as it is; a plugin is resolved by
    [PluginFinder.find_spec], registered, executed by
    [PluginLoader.exec_module] and unregistered again when that raises; a
    module outside the namespace is not the manager's business.  Plugins
    are resolved one by one: packages nested below the namespace are not
    modelled.  [fuel] bounds the nesting of imports. *)
Fixpoint import_module (w : world) (fuel : nat) (name : string)
  : M state module :=
  match fuel with
  | O => fun _ st => (st, OutOfFuel)
  | S f =>
      st <- get ;;
      match lookup str_dec (sys_modules st) name with
      | Some m => ret m
      | None =>
          if is_plugin name then
            match w name with
            | None => raise (ModuleNotFoundError name)
            | Some body =>
                let m := PluginModule (next_module st) in
                modify (fun st =>
                  set_next_module (S (next_module st))
                    (set_sys_modules (dict_set str_dec (sys_modules st) name m) st)) ;;;
                try_except
                  (exec_module (import_module w f) name body)
                  (modify (fun st =>
                     set_sys_modules (dict_del str_dec (sys_modules st) name) st)) ;;;
                ret m
            end
          else ret (ExternalModule name)
      end
  end.

(** [unsafe_unload] *)
Definition unsafe_unload (name : string) : M state unit :=
  if negb (is_plugin name)
  then raise (ValueError (name ++ " is not a plugin"))
  else
    try_finally
      (finalize_module name)
      (deps_del_edges_from name ;;; del_sys_module name).

(** [unload] *)
Definition unload (name : string) : M state unit :=
  st <- get ;;
  sub <- lift_opt (subgraph_paths_to str_dec (deps st) name) ;;
  gen <- lift_opt (topo_sort_fwd str_dec sub) ;;
  cont_loop
    (fun dep => if str_dec dep name then ret tt else unsafe_unload dep)
    (unsafe_unload name)
    gen.



(** Every key of [deps.bck], that is everything an edge was ever recorded
    to, is a plugin; [trace_import] records no other edge. *)
Definition targets_are_plugins (st : state) : Prop :=
  forall k, In k (keys (bck (deps st))) -> is_plugin k = true.

(** The closure variables [unload_success] and [reload_success] of
    [reload]. *)
Record locals : Type := mkLocals {
  unload_success : pyset string;
  reload_success : pyset string
}.

(** A manager operation run inside [reload]. *)
Definition lift {A} (c : M state A) : M (state * locals) A :=
  fun h s =>
    match c h (fst s) with
    | (st1, r) => ((st1, snd s), r)
    end.

Definition add_unload_success (dep : string) : M (state * locals) unit :=
  modify (fun s =>
    (fst s, mkLocals (set_add str_dec dep (unload_success (snd s)))
                     (reload_success (snd s)))).

Definition add_reload_success (dep : string) : M (state * locals) unit :=
  modify (fun s =>
    (fst s, mkLocals (unload_success (snd s))
                     (set_add str_dec dep (reload_success (snd s))))).

(** The test [dep in unload_success and all(m in reload_success for m in
    reloads.edges_from(dep))]. *)
Definition may_reload (reloads : Digraph string) (l : locals) (dep : string)
  : bool :=
  mem str_dec dep (unload_success l) &&
  forallb (fun m => mem str_dec m (reload_success l))
          (edges_from str_dec reloads dep).

(** The loop body of [cont_reload]. *)
Definition reload_one (w : world) (fuel : nat) (reloads : Digraph string)
  (dep : string) : M (state * locals) unit :=
  s <- get ;;
  if may_reload reloads (snd s) dep
  then lift (import_module w fuel dep) ;;; add_reload_success dep
  else ret tt.

(** The loop body of [cont_unload] in [reload]. *)
Definition unload_one (name dep : string) : M (state * locals) unit :=
  if str_dec dep name then ret tt
  else lift (unsafe_unload dep) ;;; add_unload_success dep.

(** [cont_reload] of [reload] *)
Definition cont_reload (w : world) (fuel : nat) (reloads : Digraph string)
  (reload_gen : list string) : M (state * locals) unit :=
  cont_loop (reload_one w fuel reloads) (ret tt) reload_gen.

(** What [cont_unload] of [reload] does after its loop. *)
Definition reload_self (w : world) (fuel : nat) (reloads : Digraph string)
  (reload_gen : list string) (name : string) : M (state * locals) module :=
  try_except (lift (unsafe_unload name))
             (cont_reload w fuel reloads reload_gen) ;;;
  try_finally
    (m <- lift (import_module w fuel name) ;;
     add_reload_success name ;;;
     ret m)
    (cont_reload w fuel reloads reload_gen).

(** [reload] *)
Definition reload (w : world) (fuel : nat) (name : string) : M state module :=
  fun h st =>
    match
      (reloads <- lift_opt (subgraph_paths_to str_dec (deps st) name) ;;
       unload_gen <- lift_opt (topo_sort_fwd str_dec reloads) ;;
       reload_gen <- lift_opt (topo_sort_bck str_dec reloads) ;;
       cont_loop (unload_one name)
                 (reload_self w fuel reloads reload_gen name)
                 unload_gen) h (st, mkLocals [] [])
    with
    | (s, r) => (fst s, r)
    end.


(** [load] *)
Definition load (w : world) (fuel : nat) (name : string) : M state module :=
  if negb (is_plugin name)
  then raise (ValueError (name ++ " is not a plugin"))
  else
    st <- get ;;
    match lookup str_dec (sys_modules st) name with
    | Some m => ret m
    | None => import_module w fuel name
    end.

(** [atexit_unload] *)
Definition atexit_unload : M state unit :=
  st <- get ;;
  unload_gen <- lift_opt (topo_sort_fwd str_dec (deps st)) ;;
  cont_loop unsafe_unload (ret tt) unload_gen.

(** The invariant of the dependency graph. *)
Definition graph_ok (st : state) : Prop :=
  consistent str_dec (deps st) /\ targets_are_plugins st.

(** The operations a caller of the manager can run, with the sources as
    they are at that moment. *)
Inductive command : Type :=
| DoLoad (w : world) (fuel : nat) (name : string)
| DoUnload (name : string)
| DoReload (w : world) (fuel : nat) (name : string)
| DoAtExit.

Definition run_command (st : state) (c : command) : state :=
  match c with
  | DoLoad w fuel name => fst (load w fuel name [] st)
  | DoUnload name => fst (unload name [] st)
  | DoReload w fuel name => fst (reload w fuel name [] st)
  | DoAtExit => fst (atexit_unload [] st)
  end.

Definition run_commands (cs : list command) : state :=
  fold_left run_command cs initial.

(** *** Scenarios *)

Definition plugin_a : string := "plugins.a".
Definition plugin_b : string := "plugins.b".
Definition plugin_c : string := "plugins.c".

Definition chain_world (a_body b_body c_body : list stmt) : world :=
  fun name =>
    if str_dec name plugin_a then Some a_body
    else if str_dec name plugin_b then Some b_body
    else if str_dec name plugin_c then Some c_body
    else None.

(** [plugins.b] imports [plugins.a], [plugins.c] imports [plugins.b]. *)
Definition world_ok : world :=
  chain_world [SFinalizer (mkAction 1 None)] [SImport plugin_a] [SImport plugin_b].

(** The same sources, but now the body of [plugins.b] raises. *)
Definition world_b_fails : world :=
  chain_world [SFinalizer (mkAction 1 None)]
              [SImport plugin_a; SRaise (PluginError "b failed")]
              [SImport plugin_b].

(** The finalizer of [plugins.a] raises. *)
Definition world_a_cleanup_fails : world :=
  chain_world [SFinalizer (mkAction 1 (Some (PluginError "a cleanup failed")))]
              [SImport plugin_a] [SImport plugin_b].

(** The state after [load("plugins.c")] from the start. *)
Definition loaded_chain (w : world) : state :=
  fst (load w 5 plugin_c [] initial).

(** The state after [load("plugins.a")] from the start: one plugin that
    imports no plugin and is imported by none. *)
Definition loaded_alone : state :=
  fst (load world_ok 5 plugin_a [] initial).

(** A plugin with three finalizers, the first of which raises. *)
Definition three_finalizers : list action :=
  [mkAction 1 (Some (PluginError "first")); mkAction 2 None; mkAction 3 None].

Definition loaded_with_finalizers : state :=
  fst (load (chain_world (map SFinalizer three_finalizers) [] []) 5 plugin_a []
            initial).

End Plugins.

(** ** More of the code *)

(** The plain loop [for x in l: body(x)], without the enclosing [try]. *)
Fixpoint for_each {S A} (body : A -> M S unit) (l : list A) : M S unit :=
  match l with
  | [] => ret tt
  | x :: l' => body x ;;; for_each body l'
  end.

(** A graph with a cycle: [a] and [b] depend on each other. *)
Definition cycle_graph : Digraph string :=
  run_ops string_dec [AddEdge "a" "b"; AddEdge "b" "a"]%string.

(** *** The installation of [PluginFinder] in [sys.meta_path] *)

Module MetaPath.

(** The entries of [sys.meta_path]: the two finders the loop compares
    with or inserts, and any other finder. *)
Inductive finder : Type :=
| PathFinder
| PluginFinder
| OtherFinder (n : nat).

(** [entry == importlib.machinery.PathFinder] *)
Definition is_path_finder (f : finder) : bool :=
  match f with PathFinder => true | _ => false end.

(** [l.insert(i, x)] for [i >= 0]: before index [i], at the end when
    [i] is past the end. *)
Fixpoint insert_at {A : Type} (i : nat) (x : A) (l : list A) : list A :=
  match i, l with
  | O, _ => x :: l
  | S i', [] => [x]
  | S i', a :: l' => a :: insert_at i' x l'
  end.

(** The iterations [i], [i + 1], ..., [i + count - 1] of
<<
    for i in range(len(sys.meta_path)):
        if sys.meta_path[i] == importlib.machinery.PathFinder:
            sys.meta_path.insert(i, PluginFinder)
>>
    [None] is the [IndexError] of [sys.meta_path[i]]. *)
Fixpoint install_from (i count : nat) (meta_path : list finder)
  : option (list finder) :=
  match count with
  | O => Some meta_path
  | S count' =>
      match nth_error meta_path i with
      | None => None
      | Some f =>
          install_from (S i) count'
            (if is_path_finder f then insert_at i PluginFinder meta_path
             else meta_path)
      end
  end.

(** The whole loop; [range(len(sys.meta_path))] is evaluated once, before
    the first insertion. *)
Definition install_plugin_finder (meta_path : list finder)
  : option (list finder) :=
  install_from 0 (length meta_path) meta_path.

End MetaPath.

(** *** [unsafe_reload] *)

Module Reloading.
Import Plugins.

(** [importlib.reload(module)] as far as [unsafe_reload] relies on it: the
    source of the module is resolved again and executed by
    [PluginLoader.exec_module] over the module object that is registered,
    which stays registered whether the execution returns or raises, and
    is returned when it returns. *)
Definition reload_module (w : world) (fuel : nat) (name : string)
  (m : module) : M state module :=
  match w name with
  | None => raise (ModuleNotFoundError name)
  | Some body => exec_module (import_module w fuel) name body ;;; ret m
  end.

(** [importlib.reload(sys.modules[name])]; the subscript raises
    [KeyError] before [reload] is called. *)
Definition reload_registered (w : world) (fuel : nat) (name : string)
  : M state module :=
  st <- get ;;
  match lookup str_dec (sys_modules st) name with
  | None => raise (KeyError name)
  | Some m => reload_module w fuel name m
  end.

(** [unsafe_reload]: the value [ret] is bound in the [finally] block and
    returned after it, so it is returned only when [finalize_module]
    returned. *)
Definition unsafe_reload (w : world) (fuel : nat) (name : string)
  : M state module :=
  if negb (is_plugin name)
  then raise (ValueError (name ++ " is not a plugin"))
  else
    fun h st =>
      match finalize_module name h st with
      | (st1, Ok _) =>
          (deps_del_edges_from name ;;; reload_registered w fuel name) h st1
      | (st1, Raise x) =>
          except_reraise
            (deps_del_edges_from name ;;; reload_registered w fuel name) x st1
      | (st1, OutOfFuel) => (st1, OutOfFuel)
      end.

(** A plugin whose body registers a finalizer and whose new body raises
    after registering another one. *)
Definition world_one : world :=
  chain_world [SFinalizer (mkAction 1 None)] [] [].

Definition world_one_fails : world :=
  chain_world [SFinalizer (mkAction 2 None); SRaise (PluginError "a failed")]
              [] [].

End Reloading.

(** [c] leaves the component [f] of the state as it found it, unless a
    recursion bound of the model cut it short. *)
Definition restores {S A T} (f : S -> T) (c : M S A) : Prop :=
  forall h st, snd (c h st) <> OutOfFuel -> f (fst (c h st)) = f st.

(** *** What it means for a plugin to be unloaded *)

Module PluginState.
Import Plugins.

(** Nothing of the plugin [q] is left: it is not registered in
    [sys.modules], has no entry in [finalizers] and no outgoing edge in
    [deps]. *)
Definition unloaded (q : string) (st : state) : Prop :=
  lookup str_dec (sys_modules st) q = None /\
  lookup str_dec (finalizers st) q = None /\
  edges_from str_dec (deps st) q = [].

End PluginState.

(** * Facts *)

Set Implicit Arguments.

(** ** Dictionaries *)

Section DictFacts.
Variable K : Type.
Variable K_eq_dec : forall x y : K, {x = y} + {x <> y}.
Variable A : Type.
Implicit Types (d : dict K A) (k : K) (v : A).

Lemma lookup_dict_set d k k' v :
  lookup K_eq_dec (dict_set K_eq_dec d k v) k' =
  if K_eq_dec k' k then Some v else lookup K_eq_dec d k'.
Proof.
  induction d as [|[k0 v0] d IH]; simpl.
  - destruct (K_eq_dec k' k); reflexivity.
  - destruct (K_eq_dec k k0) as [->|Hne]; simpl.
    + destruct (K_eq_dec k' k0); reflexivity.
    + destruct (K_eq_dec k' k0) as [->|Hne'].
      * destruct (K_eq_dec k0 k); congruence.
      * exact IH.
Qed.

Lemma lookup_dict_del d k k' :
  lookup K_eq_dec (dict_del K_eq_dec d k) k' =
  if K_eq_dec k' k then None else lookup K_eq_dec d k'.
Proof.
  induction d as [|[k0 v0] d IH]; simpl.
  - destruct (K_eq_dec k' k); reflexivity.
  - destruct (K_eq_dec k k0) as [->|Hne]; simpl.
    + rewrite IH. destruct (K_eq_dec k' k0); reflexivity.
    + destruct (K_eq_dec k' k0) as [->|Hne'].
      * destruct (K_eq_dec k0 k); congruence.
      * exact IH.
Qed.

Lemma lookup_Some_In d k v : lookup K_eq_dec d k = Some v -> In (k, v) d.
Proof.
  induction d as [|[k0 v0] d IH]; simpl; [discriminate|].
  destruct (K_eq_dec k k0) as [->|Hne]; intros H.
  - injection H as ->. now left.
  - right. auto.
Qed.

Lemma lookup_None_keys d k : lookup K_eq_dec d k = None <-> ~ In k (keys d).
Proof.
  induction d as [|[k0 v0] d IH]; simpl.
  - tauto.
  - destruct (K_eq_dec k k0) as [->|Hne].
    + split; [discriminate|tauto].
    + rewrite IH. split; intros H; [intros [E|E]; [congruence|tauto]|tauto].
Qed.

Lemma lookup_Some_keys d k v : lookup K_eq_dec d k = Some v -> In k (keys d).
Proof.
  intros H. apply lookup_Some_In in H. apply (in_map fst) in H. exact H.
Qed.

Lemma keys_lookup d k : In k (keys d) -> exists v, lookup K_eq_dec d k = Some v.
Proof.
  intros H. destruct (lookup K_eq_dec d k) eqn:E; [eauto|].
  apply lookup_None_keys in E. tauto.
Qed.

Lemma has_key_keys d k : has_key K_eq_dec d k = true <-> In k (keys d).
Proof.
  unfold has_key. destruct (lookup K_eq_dec d k) eqn:E.
  - split; [intros _|reflexivity]. eapply lookup_Some_keys; eauto.
  - apply lookup_None_keys in E. split; [discriminate|tauto].
Qed.

Lemma keys_dict_set d k v x :
  In x (keys (dict_set K_eq_dec d k v)) <-> x = k \/ In x (keys d).
Proof.
  induction d as [|[k0 v0] d IH]; simpl.
  - intuition.
  - destruct (K_eq_dec k k0) as [->|Hne]; simpl.
    + intuition.
    + rewrite IH. intuition.
Qed.

Lemma keys_dict_set_present d k v :
  In k (keys d) -> keys (dict_set K_eq_dec d k v) = keys d.
Proof.
  induction d as [|[k0 v0] d IH]; simpl; [tauto|].
  intros H. destruct (K_eq_dec k k0) as [->|Hne]; simpl; [reflexivity|].
  f_equal. apply IH. destruct H; [congruence|assumption].
Qed.

Lemma keys_dict_del d k x :
  In x (keys (dict_del K_eq_dec d k)) <-> x <> k /\ In x (keys d).
Proof.
  induction d as [|[k0 v0] d IH]; simpl.
  - tauto.
  - destruct (K_eq_dec k k0) as [->|Hne]; simpl.
    + rewrite IH. intuition congruence.
    + rewrite IH. intuition congruence.
Qed.

Lemma NoDup_keys_dict_set d k v :
  NoDup (keys d) -> NoDup (keys (dict_set K_eq_dec d k v)).
Proof.
  induction d as [|[k0 v0] d IH]; simpl; intros H.
  - constructor; [tauto|constructor].
  - inversion H as [|? ? Hn Hd]; subst.
    destruct (K_eq_dec k k0) as [->|Hne]; simpl.
    + constructor; assumption.
    + constructor; [|auto].
      rewrite keys_dict_set. intros [E|E]; [congruence|tauto].
Qed.

Lemma NoDup_keys_dict_del d k :
  NoDup (keys d) -> NoDup (keys (dict_del K_eq_dec d k)).
Proof.
  induction d as [|[k0 v0] d IH]; simpl; intros H.
  - constructor.
  - inversion H as [|? ? Hn Hd]; subst.
    destruct (K_eq_dec k k0) as [->|Hne]; simpl; [auto|].
    constructor; [|auto].
    rewrite keys_dict_del. tauto.
Qed.

End DictFacts.

Lemma fold_opt_app {S A : Type} (step : S -> A -> option S) (l1 l2 : list A)
  (s : S) :
  fold_opt step (l1 ++ l2) s =
  match fold_opt step l1 s with
  | Some s1 => fold_opt step l2 s1
  | None => None
  end.
Proof.
  revert s. induction l1 as [|a l1 IH]; intros s; simpl; [reflexivity|].
  destruct (step s a); [apply IH|reflexivity].
Qed.

(** A loop whose every step keeps an invariant and succeeds under it
    succeeds and keeps the invariant. *)
Lemma fold_opt_invariant {S A : Type} (step : S -> A -> option S)
  (I : S -> Prop) (P : A -> Prop) (l : list A) (s : S) :
  (forall s a, I s -> P a -> exists s', step s a = Some s' /\ I s') ->
  Forall P l -> I s ->
  exists s', fold_opt step l s = Some s' /\ I s'.
Proof.
  intros Hstep HP. revert s.
  induction HP as [|a l Ha Hl IH]; intros s HI; simpl.
  - eauto.
  - destruct (Hstep s a HI Ha) as (s1 & -> & HI1). auto.
Qed.

(** ** The directed graph *)

Section DigraphFacts.
Variable V : Type.
Variable D : forall x y : V, {x = y} + {x <> y}.
Implicit Types (g : Digraph V) (x y a b : V) (s : pyset V) (d : dict V (pyset V)).


(** *** Sets *)

Lemma mem_true x s : mem D x s = true <-> In x s.
Proof. unfold mem. destruct (in_dec D x s); split; auto; discriminate. Qed.

Lemma mem_false x s : mem D x s = false <-> ~ In x s.
Proof. unfold mem. destruct (in_dec D x s); split; auto; try discriminate; tauto. Qed.

Lemma In_set_add x y s : In y (set_add D x s) <-> y = x \/ In y s.
Proof.
  unfold set_add. destruct (mem D x s) eqn:E.
  - apply mem_true in E. split; [auto|]. intros [->|H]; assumption.
  - rewrite in_app_iff. simpl. intuition.
Qed.

Lemma NoDup_set_add x s : NoDup s -> NoDup (set_add D x s).
Proof.
  intros H. unfold set_add. destruct (mem D x s) eqn:E; [assumption|].
  apply mem_false in E. apply NoDup_app; [assumption|constructor; [tauto|constructor]|].
  intros a Ha [<-|[]]. tauto.
Qed.

Lemma In_discard x y s : In y (discard D x s) <-> y <> x /\ In y s.
Proof.
  unfold discard. split.
  - intros H. apply in_remove in H. tauto.
  - intros [H1 H2]. apply in_in_remove; assumption.
Qed.

Lemma NoDup_discard x s : NoDup s -> NoDup (discard D x s).
Proof.
  unfold discard. induction 1 as [|a s Ha Hs IH]; simpl; [constructor|].
  destruct (D x a); [assumption|].
  constructor; [|assumption]. intros H. apply in_remove in H. tauto.
Qed.

(** *** [set_insert], the two halves of [add_edge] *)

Lemma lookup_set_insert d x y a :
  lookup D (set_insert D d x y) a =
  if D a x then Some (set_add D y (entry D d x)) else lookup D d a.
Proof.
  unfold set_insert, entry, has_key.
  destruct (lookup D d x) as [s|] eqn:E; simpl.
  - rewrite E. rewrite lookup_dict_set. reflexivity.
  - rewrite lookup_dict_set. destruct (D x x); [|congruence].
    rewrite !lookup_dict_set. destruct (D a x); reflexivity.
Qed.

Lemma entry_set_insert d x y a b :
  In b (entry D (set_insert D d x y) a) <->
  (a = x /\ b = y) \/ In b (entry D d a).
Proof.
  unfold entry at 1. rewrite lookup_set_insert.
  destruct (D a x) as [->|Hne].
  - rewrite In_set_add. intuition.
  - unfold entry. intuition.
Qed.

Lemma keys_set_insert d x y k :
  In k (keys (set_insert D d x y)) <-> k = x \/ In k (keys d).
Proof.
  unfold set_insert, has_key.
  destruct (lookup D d x) as [s|] eqn:E; simpl.
  - rewrite E, keys_dict_set. apply lookup_Some_keys in E.
    split; [tauto|]. intros [->|H]; auto.
  - rewrite lookup_dict_set. destruct (D x x); [|congruence].
    rewrite !keys_dict_set. tauto.
Qed.

Lemma NoDup_keys_set_insert d x y :
  NoDup (keys d) -> NoDup (keys (set_insert D d x y)).
Proof.
  intros H. unfold set_insert, has_key.
  destruct (lookup D d x) as [s|] eqn:E; simpl.
  - rewrite E. now apply NoDup_keys_dict_set.
  - rewrite lookup_dict_set. destruct (D x x); [|congruence].
    now repeat apply NoDup_keys_dict_set.
Qed.

Lemma sets_set_insert d x y :
  (forall k s, lookup D d k = Some s -> NoDup s) ->
  forall k s, lookup D (set_insert D d x y) k = Some s -> NoDup s.
Proof.
  intros H k s. rewrite lookup_set_insert.
  destruct (D k x) as [->|Hne]; [|apply H].
  intros [= <-]. apply NoDup_set_add. unfold entry.
  destruct (lookup D d x) eqn:E; [eauto|constructor].
Qed.

(** No entry of [set_insert] is empty when none was. *)
Lemma nonempty_set_insert d x y :
  (forall k, In k (keys d) -> entry D d k <> []) ->
  forall k, In k (keys (set_insert D d x y)) ->
            entry D (set_insert D d x y) k <> [].
Proof.
  intros H k Hk E.
  destruct (D k x) as [->|Hne].
  - assert (Hin : In y (entry D (set_insert D d x y) x))
      by (apply entry_set_insert; auto).
    rewrite E in Hin. exact Hin.
  - apply keys_set_insert in Hk. destruct Hk as [->|Hk]; [congruence|].
    apply (H k Hk). destruct (entry D d k) as [|b l] eqn:E'; [reflexivity|].
    assert (Hin : In b (entry D (set_insert D d x y) k)).
    { apply entry_set_insert. right. rewrite E'. now left. }
    rewrite E in Hin. destruct Hin.
Qed.

(** *** [add_edge] *)

Lemma edges_from_add_edge g x y a b :
  In b (edges_from D (add_edge D g x y) a) <->
  (a = x /\ b = y) \/ In b (edges_from D g a).
Proof. apply entry_set_insert. Qed.

Lemma edges_to_add_edge g x y a b :
  In a (edges_to D (add_edge D g x y) b) <->
  (a = x /\ b = y) \/ In a (edges_to D g b).
Proof.
  unfold edges_to, add_edge. simpl.
  change (In a (entry D (set_insert D (bck g) y x) b) <->
          a = x /\ b = y \/ In a (entry D (bck g) b)).
  rewrite entry_set_insert. tauto.
Qed.

Lemma empty_consistent : consistent D (@empty V).
Proof.
  constructor; simpl; try constructor; try discriminate; auto.
Qed.

Lemma add_edge_consistent g x y :
  consistent D g -> consistent D (add_edge D g x y).
Proof.
  intros [Hi Hfk Hbk Hfs Hbs]. constructor.
  - intros a b. rewrite edges_from_add_edge, edges_to_add_edge, Hi. tauto.
  - apply NoDup_keys_set_insert; assumption.
  - apply NoDup_keys_set_insert; assumption.
  - apply sets_set_insert; assumption.
  - apply sets_set_insert; assumption.
Qed.


(** *** [del_edges_from] and [del_edges_to] *)

Lemma discard_twice x s : discard D x (discard D x s) = discard D x s.
Proof. unfold discard. apply notin_remove. apply remove_In. Qed.

Lemma discard_each_spec x ys : forall d,
  (forall y, In y ys -> In y (keys d)) ->
  exists d', discard_each D d x ys = (d', None) /\
    keys d' = keys d /\
    forall k, lookup D d' k =
              if mem D k ys then option_map (discard D x) (lookup D d k)
              else lookup D d k.
Proof.
  induction ys as [|y ys IH]; intros d Hk; simpl.
  - exists d. repeat split.
  - destruct (keys_lookup D d y (Hk y (or_introl eq_refl))) as [s Hs].
    rewrite Hs.
    destruct (IH (dict_set D d y (discard D x s))) as (d' & E & K & L).
    { intros y' Hy'. rewrite keys_dict_set. right. apply Hk. now right. }
    exists d'. split; [exact E|]. split.
    { rewrite K. apply keys_dict_set_present. eapply lookup_Some_keys; eauto. }
    intros k. rewrite L, lookup_dict_set.
    unfold mem at 2. destruct (in_dec D k (y :: ys)) as [Hin|Hnin].
    + destruct (D k y) as [->|Hne].
      * rewrite Hs. simpl. rewrite discard_twice.
        destruct (mem D y ys); reflexivity.
      * assert (Hm : mem D k ys = true).
        { apply mem_true. destruct Hin; [congruence|assumption]. }
        rewrite Hm. reflexivity.
    + assert (Hm : mem D k ys = false).
      { apply mem_false. intros H. apply Hnin. now right. }
      rewrite Hm. destruct (D k y) as [->|Hne]; [|reflexivity].
      exfalso. apply Hnin. now left.
Qed.

Lemma transpose_consistent g : consistent D g -> consistent D (transpose g).
Proof.
  intros [Hi Hfk Hbk Hfs Hbs]. constructor; simpl; auto.
  intros a b. symmetry. apply Hi.
Qed.

Lemma transpose_involutive g : transpose (transpose g) = g.
Proof. destruct g; reflexivity. Qed.

Lemma del_edges_to_transpose g x :
  del_edges_to D g x =
  (transpose (fst (del_edges_from D (transpose g) x)),
   snd (del_edges_from D (transpose g) x)).
Proof.
  unfold del_edges_to, del_edges_from. simpl.
  destruct (lookup D (bck g) x) as [ys|]; simpl.
  - destruct (discard_each D (fwd g) x ys) as [f [y|]]; reflexivity.
  - destruct g; reflexivity.
Qed.

(** On a consistent graph [del_edges_from] raises no [KeyError]; it removes
    the edges that leave [x] and no other, drops [x] from the keys of
    [fwd], and leaves the keys of [bck] as they are. *)
Lemma del_edges_from_spec g x :
  consistent D g ->
  exists g', del_edges_from D g x = (g', None) /\
    consistent D g' /\
    (forall a b, edge D g' a b <-> a <> x /\ edge D g a b) /\
    (forall k, In k (keys (fwd g')) <-> k <> x /\ In k (keys (fwd g))) /\
    keys (bck g') = keys (bck g).
Proof.
  intros Hc. destruct Hc as [Hi Hfk Hbk Hfs Hbs].
  unfold del_edges_from.
  destruct (lookup D (fwd g) x) as [ys|] eqn:E.
  - destruct (discard_each_spec x ys (bck g)) as (b & Eb & Kb & Lb).
    { intros y Hy.
      assert (Hx : In x (edges_to D g y)).
      { apply Hi. unfold edges_from, entry. rewrite E. exact Hy. }
      unfold edges_to, entry in Hx.
      destruct (lookup D (bck g) y) eqn:E'; [|destruct Hx].
      eapply lookup_Some_keys; eauto. }
    rewrite Eb. eexists; split; [reflexivity|].
    assert (Hfrom : forall a b0,
      In b0 (entry D (dict_del D (fwd g) x) a) <-> a <> x /\ In b0 (entry D (fwd g) a)).
    { intros a b0. unfold entry. rewrite lookup_dict_del.
      destruct (D a x) as [->|Hne]; simpl; tauto. }
    assert (Hto : forall a b0,
      In a (entry D b b0) <-> a <> x /\ In a (entry D (bck g) b0)).
    { intros a b0. unfold entry at 1. rewrite Lb.
      destruct (mem D b0 ys) eqn:Em.
      - apply mem_true in Em.
        destruct (lookup D (bck g) b0) as [s|] eqn:E'; simpl.
        + rewrite In_discard. unfold entry. rewrite E'. tauto.
        + unfold entry. rewrite E'. simpl. tauto.
      - apply mem_false in Em. split; [|tauto].
        intros H. split; [|exact H]. intros ->. apply Em.
        apply (Hi x b0) in H. unfold edges_from, entry in H.
        rewrite E in H. exact H. }
    split; [|split; [|split]].
    + constructor; simpl.
      * intros a b0. unfold edges_from, edges_to. simpl.
        rewrite Hfrom, Hto. specialize (Hi a b0).
        unfold edges_from, edges_to in Hi. tauto.
      * now apply NoDup_keys_dict_del.
      * rewrite Kb. assumption.
      * intros k s. rewrite lookup_dict_del.
        destruct (D k x); [discriminate|apply Hfs].
      * intros k s. rewrite Lb.
        destruct (mem D k ys); [|apply Hbs].
        destruct (lookup D (bck g) k) as [s0|] eqn:E'; simpl; [|discriminate].
        intros [= <-]. apply NoDup_discard. eauto.
    + intros a b0. unfold edge, edges_from. simpl. apply Hfrom.
    + intros k. simpl. apply keys_dict_del.
    + exact Kb.
  - exists g. split; [reflexivity|]. split; [constructor; assumption|].
    split; [|split; [|reflexivity]].
    + intros a b. split; [|tauto]. intros H. split; [|exact H].
      intros ->. unfold edge, edges_from, entry in H. rewrite E in H. exact H.
    + intros k. split; [|tauto]. intros H. split; [|exact H].
      intros ->. apply (lookup_None_keys D) in E. tauto.
Qed.

Lemma del_edges_to_spec g x :
  consistent D g ->
  exists g', del_edges_to D g x = (g', None) /\
    consistent D g' /\
    (forall a b, edge D g' a b <-> b <> x /\ edge D g a b) /\
    (forall k, In k (keys (bck g')) <-> k <> x /\ In k (keys (bck g))) /\
    keys (fwd g') = keys (fwd g).
Proof.
  intros Hc. rewrite del_edges_to_transpose.
  destruct (del_edges_from_spec x (transpose_consistent Hc))
    as (g' & E & Hc' & He & Hk & Hk').
  rewrite E. simpl. exists (transpose g'). split; [reflexivity|].
  split; [now apply transpose_consistent|]. split; [|split].
  - intros a b. unfold edge, edges_from. simpl.
    pose proof (cons_inverse Hc' b a) as H1.
    pose proof (cons_inverse Hc a b) as H2.
    pose proof (He b a) as H3.
    unfold edge, edges_from, edges_to in *. simpl in *. tauto.
  - exact Hk.
  - exact Hk'.
Qed.

(** Every graph built by the three operations is consistent. *)
Lemma apply_op_consistent g o :
  consistent D g -> consistent D (apply_op D g o).
Proof.
  intros Hc. destruct o as [x y|x|x]; simpl.
  - now apply add_edge_consistent.
  - destruct (del_edges_from_spec x Hc) as (g' & -> & Hc' & _). exact Hc'.
  - destruct (del_edges_to_spec x Hc) as (g' & -> & Hc' & _). exact Hc'.
Qed.

Lemma run_ops_consistent ops : consistent D (run_ops D ops).
Proof.
  unfold run_ops.
  assert (H : forall g, consistent D g -> consistent D (fold_left (apply_op D) ops g)).
  { induction ops as [|o ops IH]; intros g Hg; simpl; [exact Hg|].
    apply IH. now apply apply_op_consistent. }
  apply H. apply empty_consistent.
Qed.

(** *** Walks *)

Lemma walk_trans adj u v w : walk D adj u v -> walk D adj v w -> walk D adj u w.
Proof.
  intros Huv Hvw. induction Hvw as [v w H|v w z H IH H'].
  - eapply walk_more; eauto.
  - eapply walk_more; [apply IH; assumption|assumption].
Qed.

Lemma walk_first adj u v w : arc D adj u v -> walk D adj v w -> walk D adj u w.
Proof. intros H. apply walk_trans. now apply walk_one. Qed.

(** A walk along one mapping is a walk the other way along its inverse. *)
Lemma walk_reverse adj1 adj2 :
  (forall a b, arc D adj1 a b -> arc D adj2 b a) ->
  forall u v, walk D adj1 u v -> walk D adj2 v u.
Proof.
  intros Hinv u v H. induction H as [u v H|u v w H IH H'].
  - apply walk_one. auto.
  - eapply walk_first; eauto.
Qed.

Lemma walk_bck_path g u v : consistent D g -> walk D (bck g) u v <-> path D g v u.
Proof.
  intros Hc. split; apply walk_reverse; intros a b H;
    apply (cons_inverse Hc); exact H.
Qed.

Lemma arc_targets adj u v : arc D adj u v -> In v (targets adj).
Proof.
  unfold arc, entry, targets. intros H.
  destruct (lookup D adj u) as [s|] eqn:E; [|destruct H].
  apply in_concat. exists s. split; [|exact H].
  apply lookup_Some_In in E. apply (in_map snd) in E. exact E.
Qed.

(** *** Recursion depth *)

Lemma unseen_le pool seen : unseen D pool seen <= length pool.
Proof. unfold unseen. apply filter_length_le. Qed.

Lemma unseen_mono pool seen seen' :
  incl seen seen' -> unseen D pool seen' <= unseen D pool seen.
Proof.
  intros Hi. unfold unseen. induction pool as [|u pool IH]; simpl; [lia|].
  destruct (mem D u seen') eqn:E'; destruct (mem D u seen) eqn:E; simpl; try lia.
  apply mem_true in E. apply mem_false in E'. exfalso. auto.
Qed.

Lemma unseen_add pool seen y :
  In y pool -> ~ In y seen ->
  unseen D pool (set_add D y seen) < unseen D pool seen.
Proof.
  intros Hy Hn. unfold unseen. induction pool as [|u pool IH]; [destruct Hy|].
  assert (Hmono : length (filter (fun u => negb (mem D u (set_add D y seen))) pool)
                  <= length (filter (fun u => negb (mem D u seen)) pool)).
  { apply (unseen_mono pool). intros z Hz. apply In_set_add. now right. }
  simpl. destruct (D u y) as [->|Hne].
  - assert (E1 : mem D y (set_add D y seen) = true)
      by (apply mem_true, In_set_add; now left).
    assert (E2 : mem D y seen = false) by (now apply mem_false).
    rewrite E1, E2. simpl. lia.
  - destruct Hy as [->|Hy]; [congruence|]. specialize (IH Hy).
    destruct (mem D u (set_add D y seen)) eqn:E1;
      destruct (mem D u seen) eqn:E2; simpl; try lia.
    apply mem_true in E2. apply mem_false in E1. exfalso. apply E1.
    apply In_set_add. now right.
Qed.

(** *** [subgraph_paths_to] terminates within its bound *)

Lemma sub_dfs_total_child g f : forall y st,
  In y (targets (bck g)) -> unseen D (targets (bck g)) (fst st) < f ->
  exists st', sub_dfs D f g y st = Some st' /\ incl (fst st) (fst st').
Proof.
  induction f as [|f IH]; intros y st Hy Hlt; [lia|].
  simpl. destruct (mem D y (fst st)) eqn:Em.
  - exists st. split; [reflexivity|apply incl_refl].
  - apply mem_false in Em.
    pose proof (@unseen_add _ _ _ Hy Em) as Hdec.
    assert (Hsub : incl (fst st) (set_add D y (fst st))).
    { intros z Hz. apply In_set_add. now right. }
    destruct (lookup D (bck g) y) as [ys|] eqn:E.
    + destruct (@fold_opt_invariant _ _
        (fun acc y0 => sub_dfs D f g y0 (fst acc, add_edge D (snd acc) y0 y))
        (fun acc => incl (set_add D y (fst st)) (fst acc))
        (fun a => In a (targets (bck g)))
        ys (set_add D y (fst st), snd st)) as (s' & Es & Hs').
      * intros acc a Hs Ha.
        destruct (IH a (fst acc, add_edge D (snd acc) a y) Ha) as (s1 & E1 & H1).
        { simpl. pose proof (unseen_mono (targets (bck g)) Hs). lia. }
        exists s1. split; [exact E1|].
        eapply incl_tran; [exact Hs|exact H1].
      * apply Forall_forall. intros a Ha. apply (@arc_targets (bck g) y).
        unfold arc, entry. rewrite E. exact Ha.
      * apply incl_refl.
      * exists s'. split; [exact Es|]. eapply incl_tran; eauto.
    + eexists. split; [reflexivity|exact Hsub].
Qed.

Lemma sub_dfs_total g x :
  exists st', sub_dfs D (depth_bound (bck g)) g x ([], empty) = Some st'.
Proof.
  unfold depth_bound. simpl.
  destruct (lookup D (bck g) x) as [ys|] eqn:E; [|eauto].
  destruct (@fold_opt_invariant _ _
    (fun acc y0 => sub_dfs D (S (length (targets (bck g)))) g y0
                   (fst acc, add_edge D (snd acc) y0 x))
    (fun _ => True)
    (fun a => In a (targets (bck g)))
    ys (set_add D x [], @empty V)) as (s' & Es & _).
  - intros acc a _ Ha.
    destruct (@sub_dfs_total_child g (S (length (targets (bck g))))
                a (fst acc, add_edge D (snd acc) a x) Ha) as (s1 & E1 & _).
    { simpl. pose proof (unseen_le (targets (bck g)) (fst acc)). lia. }
    eauto.
  - apply Forall_forall. intros a Ha. apply (@arc_targets (bck g) x).
    unfold arc, entry. rewrite E. exact Ha.
  - exact I.
  - eauto.
Qed.

(** *** What [subgraph_paths_to] computes *)

Lemma sub_dfs_unfold f g x st :
  sub_dfs D (S f) g x st =
  if mem D x (fst st) then Some st
  else fold_opt (fun acc y => sub_dfs D f g y (fst acc, add_edge D (snd acc) y x))
                (entry D (bck g) x) (set_add D x (fst st), snd st).
Proof.
  simpl. destruct (mem D x (fst st)); [reflexivity|].
  unfold entry. destruct (lookup D (bck g) x); reflexivity.
Qed.

Lemma sub_dfs_loop g (P : Digraph V -> Prop) f x :
  (forall gr a b, P gr -> P (add_edge D gr a b)) ->
  (forall y seen gr seen' gr',
     sub_dfs D f g y (seen, gr) = Some (seen', gr') ->
     sub_post D g P y seen gr seen' gr') ->
  forall ys s0 gr0 s' gr',
    fold_opt (fun acc y => sub_dfs D f g y (fst acc, add_edge D (snd acc) y x))
             ys (s0, gr0) = Some (s', gr') ->
    incl s0 s' /\
    (forall y, In y ys -> In y s') /\
    (forall v, In v s' ->
       In v s0 \/ exists y, In y ys /\ (v = y \/ walk D (bck g) y v)) /\
    (forall z y, In z s' -> ~ In z s0 -> In y (entry D (bck g) z) -> In y s') /\
    (forall a b, In b (entry D (fwd gr') a) <->
                 In b (entry D (fwd gr0) a) \/ (In a ys /\ b = x) \/
                 (In b s' /\ ~ In b s0 /\ In a (entry D (bck g) b))) /\
    (P gr0 -> P gr').
Proof.
  intros HP IHf. induction ys as [|y ys IH]; intros s0 gr0 s' gr' H; simpl in H.
  - injection H as <- <-. repeat split; auto using incl_refl; simpl; tauto.
  - destruct (sub_dfs D f g y (s0, add_edge D gr0 y x)) as [[s1 gr1]|] eqn:E1;
      [|discriminate].
    apply IHf in E1. destruct E1 as (I1 & X1 & R1 & C1 & E1 & P1).
    apply IH in H. destruct H as (I2 & X2 & R2 & C2 & E2 & P2).
    split; [eapply incl_tran; eauto|].
    split; [intros y' [<-|Hy']; auto|].
    split.
    { intros v Hv. destruct (R2 v Hv) as [Hv1|(y' & Hy' & Hw)].
      - destruct (R1 v Hv1) as [?|Hw]; [now left|].
        right. exists y. split; [now left|exact Hw].
      - right. exists y'. split; [now right|exact Hw]. }
    split.
    { intros z y' Hz Hn Hy'. destruct (in_dec D z s1) as [Hz1|Hz1].
      - apply I2. eapply C1; eauto.
      - eapply C2; eauto. }
    split; [|auto].
    intros a b. rewrite E2, E1.
    pose proof (@edges_from_add_edge gr0 y x a b) as Hadd.
    unfold edges_from in Hadd. rewrite Hadd. clear Hadd. simpl.
    destruct (in_dec D b s1) as [Hb1|Hb1];
      destruct (in_dec D b s0) as [Hb0|Hb0];
      pose proof (I1 b); pose proof (I2 b); split;
      intuition (subst; auto).
Qed.

Lemma sub_dfs_post g (P : Digraph V -> Prop) :
  (forall gr a b, P gr -> P (add_edge D gr a b)) ->
  forall f x seen gr seen' gr',
    sub_dfs D f g x (seen, gr) = Some (seen', gr') ->
    sub_post D g P x seen gr seen' gr'.
Proof.
  intros HP. induction f as [|f IHf]; intros x seen gr seen' gr' H;
    [discriminate|].
  rewrite sub_dfs_unfold in H. simpl in H.
  destruct (mem D x seen) eqn:Em.
  - injection H as <- <-. apply mem_true in Em.
    unfold sub_post. repeat split; auto using incl_refl; try tauto.
  - apply mem_false in Em.
    apply (@sub_dfs_loop g P f x HP IHf) in H.
    destruct H as (I1 & X1 & R1 & C1 & E1 & P1).
    assert (Hx : In x (set_add D x seen)) by (apply In_set_add; now left).
    assert (Hs : incl seen (set_add D x seen))
      by (intros z Hz; apply In_set_add; now right).
    unfold sub_post. split; [eapply incl_tran; eauto|].
    split; [auto|]. split.
    { intros v Hv. destruct (R1 v Hv) as [Hv1|(y & Hy & Hw)].
      - apply In_set_add in Hv1. tauto.
      - right. right. destruct Hw as [->|Hw].
        + now apply walk_one.
        + eapply walk_first; eauto. }
    split.
    { intros z y Hz Hn Hy. destruct (D z x) as [->|Hne].
      - auto.
      - eapply C1; eauto. rewrite In_set_add. tauto. }
    split; [|auto].
    intros a b. rewrite E1. rewrite In_set_add.
    destruct (D b x) as [->|Hne]; split; intuition (subst; auto).
Qed.

Lemma walk_head adj u v :
  walk D adj u v -> exists w, arc D adj u w /\ (w = v \/ walk D adj w v).
Proof.
  induction 1 as [u v H|u v w H IH H'].
  - exists v. auto.
  - destruct IH as (w0 & Ha & [->|Hw]).
    + exists v. split; [exact Ha|]. right. now apply walk_one.
    + exists w0. split; [exact Ha|]. right. eapply walk_more; eauto.
Qed.

Lemma empty_no_empty_set : no_empty_set D (@empty V).
Proof. split; intros k []. Qed.

Lemma add_edge_no_empty_set g x y :
  no_empty_set D g -> no_empty_set D (add_edge D g x y).
Proof.
  intros [Hf Hb]. split; simpl; apply nonempty_set_insert; assumption.
Qed.

(** In a consistent graph without empty sets the keys are exactly the
    vertices that have an edge. *)
Lemma is_key_incident g v :
  consistent D g -> no_empty_set D g -> (is_key g v <-> incident D g v).
Proof.
  intros Hc [Hf Hb]. unfold is_key, incident, edge, edges_from. split.
  - intros [H|H].
    + specialize (Hf v H). destruct (entry D (fwd g) v) as [|w l] eqn:E;
        [congruence|]. exists w. left. now left.
    + specialize (Hb v H). destruct (entry D (bck g) v) as [|w l] eqn:E;
        [congruence|]. exists w. right. apply (cons_inverse Hc).
      unfold edges_to. rewrite E. now left.
  - intros (w & [H|H]).
    + left. unfold entry in H. destruct (lookup D (fwd g) v) eqn:E;
        [|destruct H]. eapply lookup_Some_keys; eauto.
    + right. apply (cons_inverse Hc) in H. unfold edges_to, entry in H.
      destruct (lookup D (bck g) v) eqn:E; [|destruct H].
      eapply lookup_Some_keys; eauto.
Qed.

(** [subgraph_paths_to] returns a graph; its edges are the edges of [g]
    that end in [x] or in a vertex with a path to [x]. *)
Lemma subgraph_paths_to_edges g x :
  consistent D g ->
  exists sub, subgraph_paths_to D g x = Some sub /\
    consistent D sub /\ no_empty_set D sub /\
    forall a b, edge D sub a b <-> edge D g a b /\ (b = x \/ path D g b x).
Proof.
  intros Hc. unfold subgraph_paths_to.
  destruct (sub_dfs_total g x) as ([seen' sub] & E). rewrite E. simpl.
  exists sub. split; [reflexivity|].
  pose proof (@sub_dfs_post g (fun gr => consistent D gr /\ no_empty_set D gr))
    as Hpost.
  destruct (Hpost (fun gr a b H =>
              conj (add_edge_consistent a b (proj1 H))
                   (add_edge_no_empty_set a b (proj2 H)))
              _ _ _ _ _ _ E) as (_ & X & R & C & Ed & HP).
  destruct (HP (conj empty_consistent empty_no_empty_set)) as [Hcs Hne].
  split; [exact Hcs|]. split; [exact Hne|].
  assert (Hseen : forall v, In v seen' <-> v = x \/ walk D (bck g) x v).
  { intros v. split.
    - intros Hv. destruct (R v Hv) as [[]|H]. exact H.
    - intros [->|Hw]; [exact X|].
      induction Hw as [u v Ha|u v w Hw IH Ha].
      + apply (C u v); auto.
      + apply (C v w); auto. }
  intros a b. unfold edge, edges_from. rewrite Ed. simpl.
  rewrite Hseen, (walk_bck_path x b Hc).
  pose proof (cons_inverse Hc a b) as Hi.
  unfold edges_from, edges_to, path in *. tauto.
Qed.

(** *** The topological iterations terminate within their bound *)

Lemma topo_dfs_unfold f adj x st :
  topo_dfs D (S f) adj x st =
  if mem D x (fst st) then Some st
  else
    match fold_opt (fun acc y => topo_dfs D f adj y acc) (entry D adj x)
                   (set_add D x (fst st), snd st) with
    | Some st2 => Some (fst st2, snd st2 ++ [x])
    | None => None
    end.
Proof.
  simpl. destruct (mem D x (fst st)); [reflexivity|].
  unfold entry. destruct (lookup D adj x); reflexivity.
Qed.

Lemma topo_dfs_total_child adj f : forall y st,
  In y (targets adj) -> unseen D (targets adj) (fst st) < f ->
  exists st', topo_dfs D f adj y st = Some st' /\ incl (fst st) (fst st').
Proof.
  induction f as [|f IH]; intros y st Hy Hlt; [lia|].
  rewrite topo_dfs_unfold. destruct (mem D y (fst st)) eqn:Em.
  - exists st. split; [reflexivity|apply incl_refl].
  - apply mem_false in Em.
    pose proof (@unseen_add _ _ _ Hy Em) as Hdec.
    assert (Hsub : incl (fst st) (set_add D y (fst st))).
    { intros z Hz. apply In_set_add. now right. }
    destruct (@fold_opt_invariant _ _
      (fun acc y0 => topo_dfs D f adj y0 acc)
      (fun acc => incl (set_add D y (fst st)) (fst acc))
      (fun a => In a (targets adj))
      (entry D adj y) (set_add D y (fst st), snd st)) as (s' & Es & Hs').
    + intros acc a Hs Ha.
      destruct (IH a acc Ha) as (s1 & E1 & H1).
      { pose proof (unseen_mono (targets adj) Hs). lia. }
      exists s1. split; [exact E1|]. eapply incl_tran; eauto.
    + apply Forall_forall. intros a Ha. apply (@arc_targets adj y). exact Ha.
    + apply incl_refl.
    + rewrite Es. eexists. split; [reflexivity|]. simpl.
      eapply incl_tran; eauto.
Qed.

Lemma topo_dfs_total_seed adj x st :
  exists st', topo_dfs D (depth_bound adj) adj x st = Some st'.
Proof.
  unfold depth_bound. rewrite topo_dfs_unfold.
  destruct (mem D x (fst st)); [eauto|].
  destruct (@fold_opt_invariant _ _
    (fun acc y0 => topo_dfs D (S (length (targets adj))) adj y0 acc)
    (fun _ => True)
    (fun a => In a (targets adj))
    (entry D adj x) (set_add D x (fst st), snd st)) as (s' & Es & _).
  - intros acc a _ Ha.
    destruct (@topo_dfs_total_child adj (S (length (targets adj))) a acc Ha)
      as (s1 & E1 & _).
    { pose proof (unseen_le (targets adj) (fst acc)). lia. }
    eauto.
  - apply Forall_forall. intros a Ha. apply (@arc_targets adj x). exact Ha.
  - exact I.
  - rewrite Es. eauto.
Qed.

Lemma topo_sort_total adj first second :
  exists l, topo_sort D adj first second = Some l.
Proof.
  unfold topo_sort.
  assert (Hrun : forall xs st, exists st',
    fold_opt (fun acc x => topo_dfs D (depth_bound adj) adj x acc) xs st = Some st').
  { intros xs st.
    destruct (@fold_opt_invariant _ _
      (fun acc x => topo_dfs D (depth_bound adj) adj x acc)
      (fun _ => True) (fun _ => True) xs st) as (s' & Es & _); eauto.
    - intros acc a _ _. destruct (topo_dfs_total_seed adj a acc) as (s1 & E1).
      eauto.
    - apply Forall_forall. auto. }
  destruct (Hrun (keys first) ([], [])) as (s1 & ->).
  destruct (Hrun (keys second) s1) as (s2 & ->). eauto.
Qed.

(** *** What the topological iterations yield *)

Lemma before_app_r (l l' : list V) a b : before l a b -> before (l ++ l') a b.
Proof.
  intros (l1 & l2 & l3 & ->). exists l1, l2, (l3 ++ l').
  rewrite <- !app_assoc. simpl. rewrite <- app_assoc. reflexivity.
Qed.

Lemma closed_order_app adj out new :
  closed_order D adj out ->
  (forall b a, In b new -> arc D adj b a -> before (out ++ new) a b) ->
  closed_order D adj (out ++ new).
Proof.
  intros Hc Hn b a Hb Ha. apply in_app_or in Hb. destruct Hb as [Hb|Hb].
  - apply before_app_r. now apply Hc.
  - now apply Hn.
Qed.

Lemma topo_dfs_loop adj f :
  (forall y seen out seen' out',
     topo_dfs D f adj y (seen, out) = Some (seen', out') ->
     NoDup out -> incl out seen -> topo_post D adj y seen out seen' out') ->
  forall ys s0 o0 s' o',
    fold_opt (fun acc y => topo_dfs D f adj y acc) ys (s0, o0) = Some (s', o') ->
    NoDup o0 -> incl o0 s0 -> (forall y, In y ys -> In y (targets adj)) ->
    exists new, o' = o0 ++ new /\ NoDup o' /\
      (forall v, In v s' <-> In v s0 \/ In v new) /\
      (forall v, In v new -> ~ In v s0) /\
      (forall y, In y ys -> In y s') /\
      (forall v, In v new -> In v (targets adj)) /\
      ((forall v, ~ walk D adj v v) ->
       (forall y u, In y ys -> In u s0 -> ~ In u o0 -> walk D adj u y) ->
       closed_order D adj o0 ->
       closed_order D adj o' /\ forall y, In y ys -> In y o').
Proof.
  intros IHf. induction ys as [|y ys IH]; intros s0 o0 s' o' H Hnd Hincl Ht;
    simpl in H.
  - injection H as <- <-. exists []. rewrite app_nil_r.
    repeat split; simpl; auto; try tauto.
  - destruct (topo_dfs D f adj y (s0, o0)) as [[s1 o1]|] eqn:E1; [|discriminate].
    apply IHf in E1; [|assumption|assumption].
    destruct E1 as (new1 & -> & Hnd1 & Hs1 & Hf1 & Hy1 & Ht1 & Ho1).
    apply IH in H; [|assumption| |intros; apply Ht; now right].
    2:{ intros v Hv. apply Hs1. apply in_app_or in Hv. destruct Hv; auto. }
    destruct H as (new2 & -> & Hnd2 & Hs2 & Hf2 & Hy2 & Ht2 & Ho2).
    exists (new1 ++ new2). rewrite app_assoc. split; [reflexivity|].
    split; [assumption|]. split.
    { intros v. rewrite Hs2, Hs1, in_app_iff. tauto. }
    split.
    { intros v Hv Hv0. apply in_app_or in Hv. destruct Hv as [Hv|Hv].
      - exact (Hf1 v Hv Hv0).
      - apply (Hf2 v Hv). apply Hs1. now left. }
    split.
    { intros y' [<-|Hy']; [|auto]. apply Hs2. now left. }
    split.
    { intros v Hv. apply in_app_or in Hv. destruct Hv as [Hv|Hv]; [|auto].
      destruct (Ht1 v Hv) as [->|?]; [|assumption]. apply Ht. now left. }
    intros Hac Hact Hcl.
    destruct (Ho1 Hac (fun u => Hact y u (or_introl eq_refl)) Hcl) as [Hcl1 Hyo].
    destruct (Ho2 Hac) as [Hcl2 Hys]; [|assumption|].
    { intros y' u Hy' Hs Hno. apply Hact; [now right| |].
      - apply Hs1 in Hs. destruct Hs as [Hs|Hs]; [assumption|].
        exfalso. apply Hno. apply in_or_app. now right.
      - intros Hso. apply Hno. apply in_or_app. now left. }
    split; [assumption|].
    intros y' [<-|Hy']; [|auto]. apply in_or_app. now left.
Qed.

Lemma topo_dfs_post adj : forall f x seen out seen' out',
  topo_dfs D f adj x (seen, out) = Some (seen', out') ->
  NoDup out -> incl out seen -> topo_post D adj x seen out seen' out'.
Proof.
  induction f as [|f IHf]; intros x seen out seen' out' H Hnd Hincl;
    [discriminate|].
  rewrite topo_dfs_unfold in H. simpl in H.
  destruct (mem D x seen) eqn:Em.
  - injection H as <- <-. apply mem_true in Em.
    exists []. rewrite app_nil_r.
    repeat split; simpl; auto; try tauto.
    destruct (in_dec D x out) as [Hin|Hnin]; [assumption|].
    exfalso. apply (H x). auto.
  - apply mem_false in Em.
    destruct (fold_opt (fun acc y => topo_dfs D f adj y acc) (entry D adj x)
                (set_add D x seen, out)) as [[s2 o2]|] eqn:E; [|discriminate].
    injection H as <- <-. simpl.
    apply (@topo_dfs_loop adj f IHf) in E; [|assumption| |].
    2:{ intros v Hv. apply In_set_add. right. now apply Hincl. }
    2:{ intros y Hy. apply (@arc_targets adj x). exact Hy. }
    destruct E as (new & -> & Hnd2 & Hs2 & Hf2 & Hy2 & Ht2 & Ho2).
    assert (Hxo : ~ In x (out ++ new)).
    { intros Hx. apply in_app_or in Hx. destruct Hx as [Hx|Hx].
      - apply Em. now apply Hincl.
      - apply (Hf2 x Hx). apply In_set_add. now left. }
    exists (new ++ [x]). rewrite app_assoc. split; [reflexivity|].
    split.
    { apply NoDup_app; [assumption|constructor; [tauto|constructor]|].
      intros a Ha [<-|[]]. exact (Hxo Ha). }
    split.
    { intros v. rewrite Hs2, In_set_add, in_app_iff. simpl.
      intuition (subst; auto). }
    split.
    { intros v Hv Hv0. apply in_app_or in Hv. destruct Hv as [Hv|[<-|[]]].
      - apply (Hf2 v Hv). apply In_set_add. now right.
      - exact (Em Hv0). }
    split.
    { apply Hs2. left. apply In_set_add. now left. }
    split.
    { intros v Hv. apply in_app_or in Hv. destruct Hv as [Hv|[<-|[]]]; auto. }
    intros Hac Hact Hcl.
    destruct (Ho2 Hac) as [Hcl2 Hys]; [|assumption|].
    { intros y u Hy Hs Hno. apply In_set_add in Hs. destruct Hs as [->|Hs].
      - now apply walk_one.
      - eapply walk_more; [apply Hact; eassumption|exact Hy]. }
    split; [|apply in_or_app; right; now left].
    apply closed_order_app; [assumption|].
    intros b a [<-|[]] Ha.
    destruct (in_split a (out ++ new) (Hys a Ha)) as (l1 & l2 & El).
    exists l1, l2, []. rewrite El, <- app_assoc. reflexivity.
Qed.

Lemma topo_seeds adj F : forall xs s0 o0 s' o',
  fold_opt (fun acc x => topo_dfs D F adj x acc) xs (s0, o0) = Some (s', o') ->
  NoDup o0 -> (forall v, In v s0 <-> In v o0) ->
  NoDup o' /\ (forall v, In v s' <-> In v o') /\ incl o0 o' /\
  (forall x, In x xs -> In x o') /\
  (forall v, In v o' -> In v o0 \/ In v xs \/ In v (targets adj)) /\
  ((forall v, ~ walk D adj v v) ->
   closed_order D adj o0 -> closed_order D adj o').
Proof.
  induction xs as [|x xs IH]; intros s0 o0 s' o' H Hnd Heq; simpl in H.
  - injection H as <- <-. repeat split; auto using incl_refl; try apply Heq.
    intros x [].
  - destruct (topo_dfs D F adj x (s0, o0)) as [[s1 o1]|] eqn:E1; [|discriminate].
    apply topo_dfs_post in E1; [|assumption|intros v Hv; now apply Heq].
    destruct E1 as (new1 & -> & Hnd1 & Hs1 & Hf1 & Hx1 & Ht1 & Ho1).
    assert (Heq1 : forall v, In v s1 <-> In v (o0 ++ new1)).
    { intros v. rewrite Hs1, in_app_iff, Heq. tauto. }
    apply IH in H; [|assumption|assumption].
    destruct H as (Hnd' & Heq' & Hi' & Hx' & Ht' & Ho').
    split; [assumption|]. split; [assumption|]. split.
    { intros v Hv. apply Hi'. apply in_or_app. now left. }
    split.
    { intros y [<-|Hy]; [|auto]. apply Hi'. now apply Heq1. }
    split.
    { intros v Hv. destruct (Ht' v Hv) as [Hv1|[Hv1|Hv1]].
      - apply in_app_or in Hv1. destruct Hv1 as [Hv1|Hv1]; [now left|].
        destruct (Ht1 v Hv1) as [->|?]; [right; left; now left|tauto].
      - right. left. now right.
      - tauto. }
    intros Hac Hcl. apply Ho'; [assumption|].
    apply Ho1; [assumption| |assumption].
    intros u Hu Hno. exfalso. apply Hno. now apply Heq.
Qed.

(** The list an iteration produces: no vertex twice, every seed, nothing
    but seeds and vertices [adj] leads to, and, when [adj] has no cycle,
    whatever [adj] maps a vertex to before that vertex. *)
Lemma topo_sort_spec adj first second :
  exists l, topo_sort D adj first second = Some l /\ NoDup l /\
    (forall v, In v (keys first) \/ In v (keys second) -> In v l) /\
    (forall v, In v l ->
       In v (keys first) \/ In v (keys second) \/ In v (targets adj)) /\
    ((forall v, ~ walk D adj v v) -> closed_order D adj l).
Proof.
  destruct (topo_sort_total adj first second) as (l & El).
  exists l. split; [exact El|]. unfold topo_sort in El.
  destruct (fold_opt (fun acc x => topo_dfs D (depth_bound adj) adj x acc)
              (keys first) ([], [])) as [[s1 o1]|] eqn:E1;
    [|discriminate].
  destruct (fold_opt (fun acc x => topo_dfs D (depth_bound adj) adj x acc)
              (keys second) (s1, o1)) as [[s2 o2]|] eqn:E2;
    [|discriminate].
  injection El as <-. simpl.
  apply topo_seeds in E1; [|constructor|tauto].
  destruct E1 as (Hnd1 & Heq1 & _ & Hx1 & Ht1 & Ho1).
  apply topo_seeds in E2; [|assumption|assumption].
  destruct E2 as (Hnd2 & Heq2 & Hi2 & Hx2 & Ht2 & Ho2).
  split; [assumption|]. split.
  { intros v [Hv|Hv]; auto. }
  split.
  { intros v Hv. destruct (Ht2 v Hv) as [Hv1|[Hv1|Hv1]]; auto.
    destruct (Ht1 v Hv1) as [[]|[Hv2|Hv2]]; auto. }
  intros Hac. apply Ho2; [assumption|]. apply Ho1; [assumption|].
  intros b a [].
Qed.

Lemma In_lookup (d : dict V (pyset V)) k s :
  NoDup (keys d) -> In (k, s) d -> lookup D d k = Some s.
Proof.
  induction d as [|[k0 s0] d IH]; simpl; intros Hnd Hin; [destruct Hin|].
  inversion Hnd as [|? ? Hn Hd]; subst.
  destruct Hin as [[= -> ->]|Hin].
  - destruct (D k k); congruence.
  - destruct (D k k0) as [->|Hne]; [|auto].
    exfalso. apply Hn. apply (in_map fst) in Hin. exact Hin.
Qed.

Lemma targets_arc adj v :
  NoDup (keys adj) -> In v (targets adj) -> exists u, arc D adj u v.
Proof.
  intros Hnd Hv. unfold targets in Hv. apply in_concat in Hv.
  destruct Hv as (s & Hs & Hv). apply in_map_iff in Hs.
  destruct Hs as ([k s'] & <- & Hin). simpl in Hv.
  exists k. unfold arc, entry. rewrite (@In_lookup _ _ _ Hnd Hin). exact Hv.
Qed.

Lemma arc_key adj u v : arc D adj u v -> In u (keys adj).
Proof.
  unfold arc, entry. intros H. destruct (lookup D adj u) eqn:E; [|destruct H].
  eapply lookup_Some_keys; eauto.
Qed.

Lemma edge_is_key g a b : consistent D g -> edge D g a b -> is_key g a /\ is_key g b.
Proof.
  intros Hc H. split.
  - left. exact (@arc_key _ _ _ H).
  - right. apply (cons_inverse Hc) in H. exact (@arc_key _ _ _ H).
Qed.

Lemma incident_is_key g v : consistent D g -> incident D g v -> is_key g v.
Proof.
  intros Hc (w & [H|H]); apply (@edge_is_key _ _ _ Hc) in H; tauto.
Qed.

(** [topo_sort_fwd] on any consistent graph: it returns, and yields the
    stored vertices, each once. *)
Lemma topo_sort_fwd_members g :
  consistent D g ->
  exists l, topo_sort_fwd D g = Some l /\ NoDup l /\
    (forall v, In v l <-> is_key g v) /\
    ((forall v, ~ walk D (bck g) v v) -> closed_order D (bck g) l).
Proof.
  intros Hc. unfold topo_sort_fwd.
  destruct (topo_sort_spec (bck g) (fwd g) (bck g))
    as (l & El & Hnd & Hin & Hout & Hord).
  exists l. split; [exact El|]. split; [exact Hnd|]. split; [|exact Hord].
  intros v. split; [|exact (Hin v)].
  intros Hv. destruct (Hout v Hv) as [H|[H|H]]; [now left|now right|].
  apply (@targets_arc _ _ (cons_bck_keys Hc)) in H. destruct H as (u & Hu).
  left. apply (cons_inverse Hc) in Hu. exact (@arc_key _ _ _ Hu).
Qed.

Lemma topo_sort_bck_transpose g :
  topo_sort_bck D g = topo_sort_fwd D (transpose g).
Proof. reflexivity. Qed.

Lemma acyclic_transpose g :
  consistent D g -> acyclic D g -> forall v, ~ walk D (bck g) v v.
Proof.
  intros Hc Hac v Hw. apply (Hac v). now apply (walk_bck_path v v Hc).
Qed.

(** C5: on every acyclic graph [topo_sort_fwd] yields every stored vertex
    (every key of either mapping, which covers every endpoint of an edge)
    exactly once and yields [a] before [b] for every edge from [a] to [b];
    [topo_sort_bck] yields the same vertices exactly once and yields [a]
    after [b] for every edge from [a] to [b].  Every graph the class
    builds is consistent ([run_ops_consistent]). *)
Theorem topo_sort_acyclic g :
  consistent D g -> acyclic D g ->
  (exists l, topo_sort_fwd D g = Some l /\ NoDup l /\
     (forall v, In v l <-> is_key g v) /\
     (forall a b, edge D g a b -> before l a b)) /\
  (exists l, topo_sort_bck D g = Some l /\ NoDup l /\
     (forall v, In v l <-> is_key g v) /\
     (forall a b, edge D g a b -> before l b a)).
Proof.
  intros Hc Hac. split.
  - destruct (topo_sort_fwd_members Hc) as (l & El & Hnd & Hin & Hord).
    exists l. repeat split; try assumption; try apply Hin.
    intros a b He. apply (Hord (acyclic_transpose Hc Hac)).
    + apply Hin. apply (@edge_is_key _ _ _ Hc He).
    + apply (cons_inverse Hc). exact He.
  - rewrite topo_sort_bck_transpose.
    destruct (topo_sort_fwd_members (transpose_consistent Hc))
      as (l & El & Hnd & Hin & Hord).
    exists l. split; [exact El|]. split; [exact Hnd|]. split.
    + intros v. rewrite Hin. unfold is_key. simpl. tauto.
    + intros a b He. apply Hord.
      * intros v Hw. exact (Hac v Hw).
      * apply Hin. right. exact (@arc_key _ _ _ He).
      * exact He.
Qed.

(** The vertices and the edges of the result of [subgraph_paths_to]. *)
Lemma subgraph_paths_to_spec g x :
  consistent D g ->
  exists sub, subgraph_paths_to D g x = Some sub /\
    consistent D sub /\
    (forall v, is_key sub v <->
               path D g v x \/ (v = x /\ exists a, edge D g a x)) /\
    (forall a b, edge D sub a b <->
                 edge D g a b /\ is_key sub a /\ is_key sub b) /\
    (is_key sub x <-> exists a, edge D g a x) /\
    (forall v, v <> x -> ~ path D g v x -> ~ is_key sub v).
Proof.
  intros Hc.
  destruct (subgraph_paths_to_edges x Hc) as (sub & E & Hcs & Hne & Hed).
  exists sub. split; [exact E|]. split; [exact Hcs|].
  assert (Hkey : forall v, is_key sub v <->
                   path D g v x \/ (v = x /\ exists a, edge D g a x)).
  { intros v. rewrite (is_key_incident v Hcs Hne). split.
    - intros (w & [H|H]); apply Hed in H; destruct H as (He & [->|Hp]).
      + left. now apply walk_one.
      + left. eapply walk_first; eauto.
      + right. eauto.
      + now left.
    - intros [Hp|(-> & a & Ha)].
      + apply walk_head in Hp. destruct Hp as (w & Ha & Hw).
        exists w. left. apply Hed. auto.
      + exists a. right. apply Hed. auto. }
  split; [exact Hkey|]. split; [|split].
  - intros a b. rewrite Hed, !Hkey. split.
    + intros (He & Hb). split; [exact He|]. split.
      * left. destruct Hb as [->|Hp]; [now apply walk_one|].
        eapply walk_first; eauto.
      * destruct Hb as [->|Hp]; [right; eauto|now left].
    + intros (He & _ & [Hp|(-> & _)]); auto.
  - rewrite Hkey. split.
    + intros [Hp|(_ & H)]; [|exact H].
      assert (Hw : walk D (bck g) x x) by (now apply (walk_bck_path x x Hc)).
      apply walk_head in Hw. destruct Hw as (a & Ha & _).
      exists a. apply (cons_inverse Hc). exact Ha.
    + intros H. right. auto.
  - intros v Hne' Hnp Hk. apply Hkey in Hk. destruct Hk as [Hp|(E' & _)]; auto.
Qed.

(** C6, amended: [subgraph_paths_to] returns a new consistent graph whose
    vertices are the vertices with a path to [x], plus [x] itself whenever
    [x] has an incoming edge, and whose edges are the edges of [g] among
    those vertices; so [x] is a vertex of the result exactly when it has an
    incoming edge, and any other vertex without a path to [x] is absent. *)
Theorem subgraph_paths_to_vertices g x :
  consistent D g ->
  exists sub, subgraph_paths_to D g x = Some sub /\
    consistent D sub /\
    (forall v, is_key sub v <->
               path D g v x \/ (v = x /\ exists a, edge D g a x)) /\
    (forall a b, edge D sub a b <->
                 edge D g a b /\ is_key sub a /\ is_key sub b) /\
    (is_key sub x <-> exists a, edge D g a x) /\
    (forall v, v <> x -> ~ path D g v x -> ~ is_key sub v).
Proof. apply subgraph_paths_to_spec. Qed.

Lemma acyclic_by_rank g (rank : V -> nat) :
  (forall a b, edge D g a b -> rank b < rank a) -> acyclic D g.
Proof.
  intros Hr.
  assert (H : forall u v, walk D (fwd g) u v -> rank v < rank u).
  { intros u v Hw. induction Hw as [u v Ha|u v w Hw IH Ha].
    - now apply Hr.
    - apply Hr in Ha. lia. }
  intros v Hv. apply H in Hv. lia.
Qed.

(** *** More about the operations of the graph *)

Lemma dict_set_same (d : dict V (pyset V)) k s :
  lookup D d k = Some s -> dict_set D d k s = d.
Proof.
  induction d as [|[k0 s0] d IH]; simpl; [discriminate|].
  destruct (D k k0) as [->|Hne].
  - intros [= ->]. reflexivity.
  - intros H. rewrite (IH H). reflexivity.
Qed.

Lemma set_insert_again d x y :
  set_insert D (set_insert D d x y) x y = set_insert D d x y.
Proof.
  assert (Hl : lookup D (set_insert D d x y) x =
               Some (set_add D y (entry D d x))).
  { rewrite lookup_set_insert. destruct (D x x); congruence. }
  unfold set_insert at 1. unfold has_key. rewrite Hl. simpl. rewrite Hl.
  assert (Hs : set_add D y (set_add D y (entry D d x)) =
               set_add D y (entry D d x)).
  { unfold set_add at 1.
    assert (Hm : mem D y (set_add D y (entry D d x)) = true)
      by (apply mem_true, In_set_add; now left).
    rewrite Hm. reflexivity. }
  rewrite Hs. now apply dict_set_same.
Qed.

(** X1: after [add_edge(x, y)] the edge shows in [edges_from(x)] and in
    [edges_to(y)], and [edges_from] and [edges_to] show no other change. *)
Theorem add_edge_adds_exactly g x y :
  In y (edges_from D (add_edge D g x y) x) /\
  In x (edges_to D (add_edge D g x y) y) /\
  (forall a b, In b (edges_from D (add_edge D g x y) a) <->
               (a = x /\ b = y) \/ In b (edges_from D g a)) /\
  (forall a b, In a (edges_to D (add_edge D g x y) b) <->
               (a = x /\ b = y) \/ In a (edges_to D g b)).
Proof.
  split; [apply edges_from_add_edge; auto|].
  split; [apply edges_to_add_edge; auto|].
  split; intros a b; [apply edges_from_add_edge|apply edges_to_add_edge].
Qed.

(** X2: adding an edge a second time changes nothing, not even the order
    of the keys or of the sets. *)
Theorem add_edge_idempotent g x y :
  add_edge D (add_edge D g x y) x y = add_edge D g x y.
Proof.
  unfold add_edge. simpl. rewrite !set_insert_again. reflexivity.
Qed.

(** X3: on a consistent graph [del_edges_from(x)] raises no [KeyError];
    afterwards [edges_from(x)] is empty, the edges that did not leave [x]
    are all still there, in both mappings, [x] is no key of [fwd], and
    [bck] has the keys it had. *)
Theorem del_edges_from_removes_exactly g x :
  consistent D g ->
  exists g', del_edges_from D g x = (g', None) /\
    consistent D g' /\
    edges_from D g' x = [] /\
    (forall a b, edge D g' a b <-> a <> x /\ edge D g a b) /\
    (forall a b, In a (edges_to D g' b) <-> a <> x /\ In a (edges_to D g b)) /\
    ~ In x (keys (fwd g')) /\
    keys (bck g') = keys (bck g).
Proof.
  intros Hc. destruct (del_edges_from_spec x Hc) as (g' & E & Hc' & He & Hk & Hb).
  exists g'. split; [exact E|]. split; [exact Hc'|].
  split; [|split; [exact He|split; [|split; [|exact Hb]]]].
  - destruct (edges_from D g' x) as [|b l] eqn:El; [reflexivity|].
    assert (Hb' : edge D g' x b) by (unfold edge; rewrite El; now left).
    apply He in Hb'. tauto.
  - intros a b. rewrite <- !(cons_inverse Hc'), <- !(cons_inverse Hc).
    apply He.
  - intros H. apply Hk in H. tauto.
Qed.

(** X4: on a consistent graph [del_edges_to(x)] raises no [KeyError];
    afterwards [edges_to(x)] is empty, the edges that did not end in [x]
    are all still there, [x] is no key of [bck], and [fwd] has the keys
    it had. *)
Theorem del_edges_to_removes_exactly g x :
  consistent D g ->
  exists g', del_edges_to D g x = (g', None) /\
    consistent D g' /\
    edges_to D g' x = [] /\
    (forall a b, edge D g' a b <-> b <> x /\ edge D g a b) /\
    ~ In x (keys (bck g')) /\
    keys (fwd g') = keys (fwd g).
Proof.
  intros Hc. destruct (del_edges_to_spec x Hc) as (g' & E & Hc' & He & Hk & Hf).
  exists g'. split; [exact E|]. split; [exact Hc'|].
  split; [|split; [exact He|split; [|exact Hf]]].
  - destruct (edges_to D g' x) as [|a l] eqn:El; [reflexivity|].
    assert (Ha : edge D g' a x).
    { apply (cons_inverse Hc'). rewrite El. now left. }
    apply He in Ha. tauto.
  - intros H. apply Hk in H. tauto.
Qed.

(** X5: whatever sequence of [add_edge], [del_edges_from] and
    [del_edges_to] builds a graph from the empty one, [fwd] and [bck]
    describe the same edges, no key is stored twice and no set holds a
    vertex twice. *)
Theorem operations_keep_mappings_inverse (ops : list (graph_op V)) :
  consistent D (run_ops D ops).
Proof. apply run_ops_consistent. Qed.


(** X7: on a consistent graph, acyclic or not, each topological
    iteration yields every stored vertex, once, and nothing else. *)
Theorem topo_sort_yields_each_key_once g :
  consistent D g ->
  (exists l, topo_sort_fwd D g = Some l /\ NoDup l /\
     forall v, In v l <-> is_key g v) /\
  (exists l, topo_sort_bck D g = Some l /\ NoDup l /\
     forall v, In v l <-> is_key g v).
Proof.
  intros Hc. split.
  - destruct (topo_sort_fwd_members Hc) as (l & El & Hnd & Hin & _). eauto.
  - rewrite topo_sort_bck_transpose.
    destruct (topo_sort_fwd_members (transpose_consistent Hc))
      as (l & El & Hnd & Hin & _).
    exists l. split; [exact El|]. split; [exact Hnd|].
    intros v. rewrite Hin. unfold is_key. simpl. tauto.
Qed.

Lemma walk_mono adj1 adj2 :
  (forall a b, arc D adj1 a b -> arc D adj2 a b) ->
  forall u v, walk D adj1 u v -> walk D adj2 u v.
Proof.
  intros Hi u v H. induction H as [u v H|u v w H IH H'].
  - apply walk_one. auto.
  - eapply walk_more; eauto.
Qed.

(** X8: the graph [subgraph_paths_to] returns is a part of the graph it
    was taken from, is consistent, stores no vertex without an edge (even
    when the original does), and has no cycle when the original has
    none. *)
Theorem subgraph_paths_to_is_tidy_subgraph g x :
  consistent D g ->
  exists sub, subgraph_paths_to D g x = Some sub /\
    consistent D sub /\
    (forall v, is_key sub v <-> incident D sub v) /\
    (forall a b, edge D sub a b -> edge D g a b) /\
    (acyclic D g -> acyclic D sub).
Proof.
  intros Hc.
  destruct (subgraph_paths_to_edges x Hc) as (sub & E & Hcs & Hne & Hed).
  exists sub. split; [exact E|]. split; [exact Hcs|].
  split; [intros v; now apply is_key_incident|].
  assert (Hsub : forall a b, edge D sub a b -> edge D g a b).
  { intros a b H. apply Hed in H. tauto. }
  split; [exact Hsub|].
  intros Hac v Hv. apply (Hac v). revert Hv. apply walk_mono. exact Hsub.
Qed.

(** X9: for a vertex nothing points to, whether it is stored or not,
    [subgraph_paths_to] returns the empty graph. *)
Theorem subgraph_paths_to_without_incoming_edge g x :
  edges_to D g x = [] -> subgraph_paths_to D g x = Some empty.
Proof.
  intros H. unfold subgraph_paths_to, depth_bound.
  rewrite sub_dfs_unfold. simpl.
  unfold edges_to in H. rewrite H. reflexivity.
Qed.

End DigraphFacts.

(** ** The continue-then-reraise idiom *)

Section ContLoop.
Variables S A : Type.
Variable body : A -> M S unit.

(** [except_reraise] never returns normally, so one more enclosing
    [except: ...; raise] changes nothing. *)
Lemma except_reraise_absorb (B C C' : Type) (handler : M S B) (x y : exn)
  (st : S) :
  match @except_reraise S B C handler x st with
  | (st1, Ok _) => (st1, @Raise C' y)
  | (st1, Raise z) => (st1, Raise z)
  | (st1, OutOfFuel) => (st1, OutOfFuel)
  end = @except_reraise S B C' handler x st.
Proof.
  unfold except_reraise. destruct (handler x st) as [st1 [b|z|]]; reflexivity.
Qed.

Lemma collect_step_stopped (l : list A) (c : collector S) :
  col_stopped c = true -> fold_left (collect_step body) l c = c.
Proof.
  intros H. induction l as [|x l IH]; simpl; [reflexivity|].
  unfold collect_step at 2. rewrite H. exact IH.
Qed.

(** The recursion of [cont_loop], from any point of the collection. *)
Lemma cont_loop_from (B : Type) (after : M S B) (gen : list A) :
  forall st chain failed,
    collect_finish after
      (fold_left (collect_step body) gen (mkCollector st chain failed false)) =
    if failed then except_reraise (cont_loop body after gen) chain st
    else cont_loop body after gen chain st.
Proof.
  induction gen as [|x gen IH]; intros st chain failed; simpl.
  - unfold collect_finish. simpl. destruct failed; reflexivity.
  - unfold collect_step at 2. simpl.
    destruct (body x chain st) as [st1 [u|e|]] eqn:E.
    + rewrite IH. destruct failed; [|reflexivity].
      unfold except_reraise. simpl. rewrite E. reflexivity.
    + rewrite IH. destruct failed; [|reflexivity].
      unfold except_reraise at 2. simpl. rewrite E.
      symmetry. apply except_reraise_absorb.
    + rewrite collect_step_stopped by reflexivity.
      unfold collect_finish. simpl. destruct failed; [|reflexivity].
      unfold except_reraise. simpl. rewrite E. reflexivity.
Qed.

(** The recursive idiom does what the explicit collector does. *)
Lemma cont_loop_collect (B : Type) (after : M S B) (gen : list A) (h : exn)
  (st : S) :
  cont_loop body after gen h st =
  collect_finish after (collect_all body gen h st).
Proof. unfold collect_all. rewrite cont_loop_from. reflexivity. Qed.

(** Running [after] at the end is attempting one more item. *)
Lemma collect_finish_last (x : A) (c : collector S) :
  collect_finish (body x) c = collect_finish (ret tt) (collect_step body c x).
Proof.
  unfold collect_finish, collect_step.
  destruct (col_stopped c) eqn:Et; [rewrite Et; reflexivity|].
  destruct (col_failed c) eqn:Ef; unfold except_reraise, ret;
    destruct (body x (col_chain c) (col_state c)) as [st1 [[]|e|]]; simpl;
    try rewrite Ef; reflexivity.
Qed.

Lemma cont_loop_attempt_all (gen : list A) (x : A) (h : exn) (st : S) :
  cont_loop body (body x) gen h st = attempt_all body (gen ++ [x]) h st.
Proof.
  rewrite cont_loop_collect. unfold attempt_all, collect_all.
  rewrite fold_left_app. simpl. apply collect_finish_last.
Qed.

End ContLoop.


Lemma collect_failed_sticky (S A : Type) (body : A -> M S unit) (l : list A) :
  forall c : collector S,
    col_failed c = true ->
    col_failed (fold_left (collect_step body) l c) = true.
Proof.
  induction l as [|x l IH]; intros c Hc; simpl; [exact Hc|].
  apply IH. unfold collect_step. destruct (col_stopped c); [exact Hc|].
  destruct (body x (col_chain c) (col_state c)) as [st1 [u|e|]]; simpl; auto.
Qed.

(** ** Invariants of computations *)

Section Keeps.
Variable S : Type.
Variable I : S -> Prop.

Lemma keeps_ret (A : Type) (a : A) : keeps I (@ret S A a).
Proof. intros h st H. exact H. Qed.

Lemma keeps_raise (A : Type) (e : error) : keeps I (@raise S A e).
Proof. intros h st H. exact H. Qed.

Lemma keeps_get : keeps I (@get S).
Proof. intros h st H. exact H. Qed.

Lemma keeps_lift_opt (A : Type) (o : option A) : keeps I (@lift_opt S A o).
Proof. intros h st H. exact H. Qed.

Lemma keeps_modify (f : S -> S) :
  (forall st, I st -> I (f st)) -> keeps I (modify f).
Proof. intros Hf h st H. apply Hf, H. Qed.

Lemma keeps_bind (A B : Type) (c : M S A) (k : A -> M S B) :
  keeps I c -> (forall a, keeps I (k a)) -> keeps I (bind c k).
Proof.
  intros Hc Hk h st H. unfold bind. specialize (Hc h st H).
  destruct (c h st) as [st1 [a|x|]]; simpl in *; auto.
  apply Hk, Hc.
Qed.

Lemma keeps_except_reraise (A B : Type) (handler : M S A) (x : exn) (st : S) :
  keeps I handler -> I st -> I (fst (@except_reraise S A B handler x st)).
Proof.
  intros Hh H. unfold except_reraise. specialize (Hh x st H).
  destruct (handler x st) as [st1 [a|y|]]; exact Hh.
Qed.

Lemma keeps_try_except (A B : Type) (body : M S A) (handler : M S B) :
  keeps I body -> keeps I handler -> keeps I (try_except body handler).
Proof.
  intros Hb Hh h st H. unfold try_except. specialize (Hb h st H).
  destruct (body h st) as [st1 [a|x|]]; simpl in *; auto.
  now apply keeps_except_reraise.
Qed.

Lemma keeps_try_finally (A B : Type) (body : M S A) (final : M S B) :
  keeps I body -> keeps I final -> keeps I (try_finally body final).
Proof.
  intros Hb Hf h st H. unfold try_finally. specialize (Hb h st H).
  destruct (body h st) as [st1 [a|x|]]; simpl in *; auto.
  - specialize (Hf h st1 Hb). destruct (final h st1) as [st2 [b|y|]]; exact Hf.
  - now apply keeps_except_reraise.
Qed.

Lemma keeps_cont_loop (A B : Type) (body : A -> M S unit) (after : M S B)
  (gen : list A) :
  (forall x, keeps I (body x)) -> keeps I after ->
  keeps I (cont_loop body after gen).
Proof.
  intros Hb Ha. induction gen as [|x gen IH]; simpl; [exact Ha|].
  intros h st H. specialize (Hb x h st H).
  destruct (body x h st) as [st1 [u|e|]]; simpl in *.
  - apply IH, Hb.
  - now apply keeps_except_reraise.
  - exact Hb.
Qed.

End Keeps.

(** ** Exception chaining *)

Section Chains.
Variable S : Type.

Lemma chains_ret (A : Type) (a : A) : chains (@ret S A a).
Proof. intros h st st' e H. discriminate. Qed.

Lemma chains_get : chains (@get S).
Proof. intros h st st' e H. discriminate. Qed.

Lemma chains_modify (f : S -> S) : chains (modify f).
Proof. intros h st st' e H. discriminate. Qed.

Lemma chains_lift_opt (A : Type) (o : option A) : chains (@lift_opt S A o).
Proof. intros h st st' e H. unfold lift_opt in H. destruct o; discriminate. Qed.

Lemma chains_raise (A : Type) (err : error) : chains (@raise S A err).
Proof. intros h st st' e [= _ <-]. now exists [err]. Qed.

Lemma chains_bind (A B : Type) (c : M S A) (k : A -> M S B) :
  chains c -> (forall a, chains (k a)) -> chains (bind c k).
Proof.
  intros Hc Hk h st st' e. unfold bind.
  destruct (c h st) as [st1 [a|x|]] eqn:E.
  - apply Hk.
  - intros [= <- <-]. eapply Hc; eauto.
  - discriminate.
Qed.

Lemma chains_except_reraise (A B : Type) (handler : M S A) (x h : exn)
  (st st' : S) (e : exn) :
  chains handler -> (exists new, x = new ++ h) ->
  @except_reraise S A B handler x st = (st', Raise e) ->
  exists new, e = new ++ h.
Proof.
  intros Hh (new & ->). unfold except_reraise.
  destruct (handler (new ++ h) st) as [st1 [a|y|]] eqn:E.
  - intros [= _ <-]. eauto.
  - intros [= _ <-]. apply Hh in E. destruct E as (new' & ->).
    exists (new' ++ new). now rewrite app_assoc.
  - discriminate.
Qed.

Lemma chains_try_except (A B : Type) (body : M S A) (handler : M S B) :
  chains body -> chains handler -> chains (try_except body handler).
Proof.
  intros Hb Hh h st st' e. unfold try_except.
  destruct (body h st) as [st1 [a|x|]] eqn:E; try discriminate.
  apply chains_except_reraise; [exact Hh|]. eapply Hb; eauto.
Qed.

Lemma chains_try_finally (A B : Type) (body : M S A) (final : M S B) :
  chains body -> chains final -> chains (try_finally body final).
Proof.
  intros Hb Hf h st st' e. unfold try_finally.
  destruct (body h st) as [st1 [a|x|]] eqn:E; try discriminate.
  - destruct (final h st1) as [st2 [b|y|]] eqn:E'; try discriminate.
    intros [= _ <-]. eapply Hf; eauto.
  - apply chains_except_reraise; [exact Hf|]. eapply Hb; eauto.
Qed.

Lemma chains_cont_loop (A B : Type) (body : A -> M S unit) (after : M S B)
  (gen : list A) :
  (forall x, chains (body x)) -> chains after ->
  chains (cont_loop body after gen).
Proof.
  intros Hb Ha. induction gen as [|x gen IH]; simpl; [exact Ha|].
  intros h st st' e.
  destruct (body x h st) as [st1 [u|x0|]] eqn:E; try discriminate.
  - apply IH.
  - apply chains_except_reraise; [exact IH|]. eapply Hb; eauto.
Qed.

(** The exception an attempt raises stays at the end of the chain of
    everything collected after it. *)
Lemma collect_chain_grows (A : Type) (body : A -> M S unit) (l : list A) :
  (forall x, chains (body x)) ->
  forall c : collector S,
    exists new, col_chain (fold_left (collect_step body) l c) = new ++ col_chain c.
Proof.
  intros Hb. induction l as [|x l IH]; intros c; simpl.
  - now exists [].
  - destruct (IH (collect_step body c x)) as (new & ->).
    unfold collect_step. destruct (col_stopped c); [now exists new|].
    destruct (body x (col_chain c) (col_state c)) as [st1 [u|e|]] eqn:E; simpl.
    + now exists new.
    + apply Hb in E. destruct E as (new' & ->).
      exists (new ++ new'). now rewrite app_assoc.
    + now exists new.
Qed.

(** So [attempt_all] raises every error together: if the attempt on [x],
    made after the attempts on [l1], raises [e], then whatever is
    collected at the end of [l1 ++ x :: l2] has [e] in its chain. *)
Lemma attempt_all_carries_every_error (A : Type) (body : A -> M S unit)
  (l1 l2 : list A) (x : A) (h : exn) (st st' : S) (e : exn) :
  (forall y, chains (body y)) ->
  col_stopped (collect_all body l1 h st) = false ->
  body x (col_chain (collect_all body l1 h st))
         (col_state (collect_all body l1 h st)) = (st', Raise e) ->
  col_failed (collect_all body (l1 ++ x :: l2) h st) = true /\
  exists new, col_chain (collect_all body (l1 ++ x :: l2) h st) = new ++ e.
Proof.
  intros Hb Hs He. unfold collect_all in *. rewrite fold_left_app. simpl.
  set (c1 := fold_left (collect_step body) l1 _) in *.
  assert (Ec : collect_step body c1 x = mkCollector st' e true false).
  { unfold collect_step. rewrite Hs, He. reflexivity. }
  rewrite Ec. split.
  - now apply collect_failed_sticky.
  - apply (@collect_chain_grows A body l2 Hb (mkCollector st' e true false)).
Qed.

End Chains.

(** ** The plugin manager *)

Import Plugins.

(** *** Finalizers *)

Lemma call_run (a : action) (h : exn) (st : state) :
  call a h st =
  (add_log (Called a) st,
   match act_error a with Some e => Raise (e :: h) | None => Ok tt end).
Proof. unfold call, bind, modify, raise, ret. destruct (act_error a); reflexivity. Qed.

(** The loop of [finalize_module] calls every action, in order, deletes
    the entry afterwards and raises the last error chained to all the
    earlier ones. *)
Lemma cont_finalizers_run (name : string) (fins : list action) :
  forall (h : exn) (st : state),
    has_key str_dec (finalizers st) name = true ->
    cont_loop call (del_finalizers name) fins h st =
    (mkState (deps st) (import_stack st)
             (dict_del str_dec (finalizers st) name)
             (sys_modules st) (next_module st)
             (log st ++ map Called fins ++ [Dropped name]),
     match raised_by fins with
     | [] => Ok tt
     | _ :: _ => Raise (rev (raised_by fins) ++ h)
     end).
Proof.
  induction fins as [|a fins IH]; intros h st Hk.
  - simpl. unfold del_finalizers, bind, get, modify. rewrite Hk. reflexivity.
  - simpl. rewrite call_run.
    assert (Hk1 : has_key str_dec (finalizers (add_log (Called a) st)) name = true)
      by exact Hk.
    destruct (act_error a) as [e|].
    + unfold except_reraise. rewrite (IH (e :: h) _ Hk1). simpl.
      rewrite <- !app_assoc. simpl.
      destruct (raised_by fins) as [|e' l]; simpl; [reflexivity|].
      rewrite <- !app_assoc. reflexivity.
    + rewrite (IH h _ Hk1). simpl. rewrite <- !app_assoc. reflexivity.
Qed.

(** What [finalize_module] does for a plugin with registered actions. *)
Lemma finalize_module_run (st : state) (h : exn) (P : string)
  (fins : list action) :
  lookup str_dec (finalizers st) P = Some fins ->
  finalize_module P h st =
  (mkState (deps st) (import_stack st)
           (dict_del str_dec (finalizers st) P)
           (sys_modules st) (next_module st)
           (log st ++ map Called fins ++ [Dropped P]),
   match raised_by fins with
   | [] => Ok tt
   | _ :: _ => Raise (rev (raised_by fins) ++ h)
   end).
Proof.
  intros H. unfold finalize_module, bind, get. rewrite H.
  apply cont_finalizers_run. unfold has_key. rewrite H. reflexivity.
Qed.

(** [finalize_module] touches the finalizer registry and nothing else the
    manager reads, and it returns or raises. *)
Lemma finalize_module_frame (P : string) (h : exn) (st : state) :
  exists st1 r, finalize_module P h st = (st1, r) /\
    deps st1 = deps st /\ sys_modules st1 = sys_modules st /\
    import_stack st1 = import_stack st /\ next_module st1 = next_module st /\
    r <> OutOfFuel.
Proof.
  destruct (lookup str_dec (finalizers st) P) as [fins|] eqn:E.
  - rewrite (finalize_module_run st h P E).
    eexists. eexists. split; [reflexivity|]. simpl.
    repeat split. destruct (raised_by fins); discriminate.
  - unfold finalize_module, bind, get. rewrite E.
    eexists. eexists. split; [reflexivity|]. repeat split. discriminate.
Qed.

(** C3: finalizing [P] calls every registered action in registration
    order, whether or not some of them raise; the registry entry of [P] is
    removed after the last call; and when some action raised, the last
    error raised propagates with all the earlier ones, down to the first,
    in its context chain. *)
Theorem finalize_module_runs_every_action (st : state) (h : exn) (P : string)
  (fins : list action) :
  lookup str_dec (finalizers st) P = Some fins ->
  finalize_module P h st =
  (mkState (deps st) (import_stack st)
           (dict_del str_dec (finalizers st) P)
           (sys_modules st) (next_module st)
           (log st ++ map Called fins ++ [Dropped P]),
   match raised_by fins with
   | [] => Ok tt
   | _ :: _ => Raise (rev (raised_by fins) ++ h)
   end).
Proof. apply finalize_module_run. Qed.

(** *** [unsafe_unload] *)

(** C10: for a loaded plugin [P], [unsafe_unload] deletes the edges that
    leave [P] and removes [P] from [sys.modules] whatever
    [finalize_module] does; its outcome is the outcome of
    [finalize_module], delivered with the state in which both removals
    have taken place. *)
Theorem unsafe_unload_always_unregisters (st : state) (h : exn) (P : string)
  (m : module) (st1 : state) (r1 : result unit) :
  is_plugin P = true ->
  lookup str_dec (sys_modules st) P = Some m ->
  consistent str_dec (deps st) ->
  finalize_module P h st = (st1, r1) ->
  exists st',
    unsafe_unload P h st = (st', r1) /\
    (forall b, ~ edge str_dec (deps st') P b) /\
    lookup str_dec (sys_modules st') P = None /\
    finalizers st' = finalizers st1 /\ log st' = log st1.
Proof.
  intros Hp Hm Hc Hf.
  destruct (finalize_module_frame P h st)
    as (st1' & r1' & Hf' & Hd & Hs & _ & _ & Hr).
  rewrite Hf in Hf'. injection Hf' as <- <-.
  destruct (del_edges_from_spec P Hc) as (g' & Eg & _ & Hedge & _).
  assert (Hfinal : forall h',
    (deps_del_edges_from P ;;; del_sys_module P) h' st1 =
    (set_sys_modules (dict_del str_dec (sys_modules st) P) (set_deps g' st1),
     Ok tt)).
  { intros h'. unfold deps_del_edges_from, del_sys_module, bind, get, modify.
    rewrite Hd, Eg. simpl. rewrite Hs. unfold has_key. rewrite Hm. simpl.
    rewrite Hs. reflexivity. }
  exists (set_sys_modules (dict_del str_dec (sys_modules st) P) (set_deps g' st1)).
  split; [|split; [|split; [|split]]].
  - unfold unsafe_unload. rewrite Hp. simpl. unfold try_finally. rewrite Hf.
    destruct r1 as [[]|x|]; [| |congruence].
    + rewrite Hfinal. reflexivity.
    + unfold except_reraise. rewrite Hfinal. reflexivity.
  - simpl. intros b Hb. apply Hedge in Hb. tauto.
  - simpl. rewrite lookup_dict_del. destruct (str_dec P P); congruence.
  - reflexivity.
  - reflexivity.
Qed.

(** *** Usage errors *)

Lemma subgraph_no_incoming (g : Digraph string) (x : string) :
  lookup str_dec (bck g) x = None ->
  subgraph_paths_to str_dec g x = Some empty.
Proof.
  intros H. unfold subgraph_paths_to, depth_bound.
  rewrite sub_dfs_unfold. simpl. unfold entry. rewrite H. reflexivity.
Qed.

(** C8: for an identity outside the plugin namespace, [load], [unload]
    and [reload] each raise the usage error at once: the state is
    untouched and the error is chained to nothing but the exception that
    was already being handled.  [targets_are_plugins] holds in every state
    the manager reaches ([reachable_graph_ok]). *)
Theorem non_plugin_is_usage_error (w : world) (fuel : nat) (st : state)
  (h : exn) (name : string) :
  is_plugin name = false ->
  targets_are_plugins st ->
  load w fuel name h st =
    (st, Raise (ValueError (name ++ " is not a plugin") :: h)) /\
  unload name h st =
    (st, Raise (ValueError (name ++ " is not a plugin") :: h)) /\
  reload w fuel name h st =
    (st, Raise (ValueError (name ++ " is not a plugin") :: h)).
Proof.
  intros Hp Ht.
  assert (Hl : lookup str_dec (bck (deps st)) name = None).
  { apply lookup_None_keys. intros Hk. apply Ht in Hk. congruence. }
  split; [|split].
  - unfold load. rewrite Hp. reflexivity.
  - unfold unload, bind, get, lift_opt.
    rewrite (subgraph_no_incoming _ _ Hl). simpl.
    unfold unsafe_unload. rewrite Hp. reflexivity.
  - unfold reload, bind, lift_opt.
    rewrite (subgraph_no_incoming _ _ Hl). simpl.
    unfold reload_self, bind, try_except, lift. simpl.
    unfold unsafe_unload. rewrite Hp. reflexivity.
Qed.

(** *** Every operation chains what it raises *)

Lemma chains_current_plugin : chains current_plugin.
Proof.
  apply chains_bind; [apply chains_get|]. intros st.
  destruct (import_stack st); [apply chains_raise|apply chains_ret].
Qed.

Lemma chains_call (a : action) : chains (call a).
Proof.
  apply chains_bind; [apply chains_modify|]. intros _.
  destruct (act_error a); [apply chains_raise|apply chains_ret].
Qed.

Lemma chains_finalize_module (name : string) : chains (finalize_module name).
Proof.
  apply chains_bind; [apply chains_get|]. intros st.
  destruct (lookup str_dec (finalizers st) name); [|apply chains_ret].
  apply chains_cont_loop; [apply chains_call|].
  apply chains_bind; [apply chains_get|]. intros st'.
  destruct (has_key str_dec (finalizers st') name);
    [apply chains_modify|apply chains_raise].
Qed.

Lemma chains_deps_del_edges_from (name : string) :
  chains (deps_del_edges_from name).
Proof.
  apply chains_bind; [apply chains_get|]. intros st.
  destruct (del_edges_from str_dec (deps st) name) as [g [y|]].
  - apply chains_bind; [apply chains_modify|]. intros _. apply chains_raise.
  - apply chains_modify.
Qed.

Lemma chains_del_sys_module (name : string) : chains (del_sys_module name).
Proof.
  apply chains_bind; [apply chains_get|]. intros st.
  destruct (has_key str_dec (sys_modules st) name);
    [apply chains_modify|apply chains_raise].
Qed.

Lemma chains_unsafe_unload (name : string) : chains (unsafe_unload name).
Proof.
  unfold unsafe_unload. destruct (negb (is_plugin name)); [apply chains_raise|].
  apply chains_try_finally; [apply chains_finalize_module|].
  apply chains_bind; [apply chains_deps_del_edges_from|]. intros _.
  apply chains_del_sys_module.
Qed.

Lemma chains_trace_edges (parents : list string) : chains (trace_edges parents).
Proof.
  induction parents as [|parent rest IH]; simpl; [apply chains_ret|].
  apply chains_bind; [|intros _; exact IH].
  destruct (is_plugin parent); [|apply chains_ret].
  apply chains_bind; [apply chains_current_plugin|]. intros cur.
  apply chains_modify.
Qed.

Lemma chains_run_body (import_ : string -> M state module) (body : list stmt) :
  (forall name, chains (import_ name)) -> chains (run_body import_ body).
Proof.
  intros Hi. induction body as [|s body IH]; simpl; [apply chains_ret|].
  apply chains_bind; [|intros _; exact IH].
  destruct s as [name|a|e].
  - apply chains_bind; [|intros _; apply chains_ret].
    apply chains_bind; [apply chains_trace_edges|]. intros _. apply Hi.
  - apply chains_bind; [apply chains_current_plugin|]. intros cur.
    apply chains_modify.
  - apply chains_raise.
Qed.

Lemma chains_import_module (w : world) (fuel : nat) :
  forall name, chains (import_module w fuel name).
Proof.
  induction fuel as [|f IH]; intros name; simpl.
  - intros h st st' e H. discriminate.
  - apply chains_bind; [apply chains_get|]. intros st.
    destruct (lookup str_dec (sys_modules st) name); [apply chains_ret|].
    destruct (is_plugin name); [|apply chains_ret].
    destruct (w name) as [body|]; [|apply chains_raise].
    apply chains_bind; [apply chains_modify|]. intros _.
    apply chains_bind; [|intros _; apply chains_ret].
    apply chains_try_except; [|apply chains_modify].
    apply chains_bind; [apply chains_modify|]. intros _.
    apply chains_try_finally; [|apply chains_modify].
    apply chains_try_except.
    + apply chains_bind; [apply chains_modify|]. intros _.
      now apply chains_run_body.
    + apply chains_try_finally;
        [apply chains_finalize_module|apply chains_deps_del_edges_from].
Qed.

(** *** [unload] *)




(** *** The exit hook *)

(** A graph without edges gives the exit hook nothing to do. *)
Lemma atexit_unload_no_edges (h : exn) (st : state) :
  deps st = empty -> atexit_unload h st = (st, Ok tt).
Proof.
  intros H. unfold atexit_unload, bind, get, lift_opt. rewrite H. reflexivity.
Qed.

(** C7, the code at the failing input: after [load("plugins.a")] of a
    plugin that imports no plugin, the plugin is loaded and has a
    finalizer registered, but the exit hook returns without unloading it
    and without calling the finalizer. *)
Theorem atexit_skips_plugin_without_edges :
  lookup str_dec (sys_modules loaded_alone) plugin_a = Some (PluginModule 0) /\
  lookup str_dec (finalizers loaded_alone) plugin_a = Some [mkAction 1 None] /\
  atexit_unload [] loaded_alone = (loaded_alone, Ok tt).
Proof. vm_compute. repeat split. Qed.

(** *** [reload] *)






(** *** The dependency graph stays consistent *)

Lemma discard_each_keys (x : string) (ys : list string) :
  forall d : dict string (pyset string),
    keys (fst (discard_each str_dec d x ys)) = keys d.
Proof.
  induction ys as [|y ys IH]; intros d; simpl; [reflexivity|].
  destruct (lookup str_dec d y) as [s|] eqn:E; [|reflexivity].
  rewrite IH. apply keys_dict_set_present. eapply lookup_Some_keys; eauto.
Qed.

(** [del_edges_from] never changes the keys of [bck]. *)
Lemma del_edges_from_bck_keys (g : Digraph string) (x : string) :
  keys (bck (fst (del_edges_from str_dec g x))) = keys (bck g).
Proof.
  unfold del_edges_from. destruct (lookup str_dec (fwd g) x) as [ys|];
    [|reflexivity].
  pose proof (discard_each_keys x ys (bck g)) as H.
  destruct (discard_each str_dec (bck g) x ys) as [b [y|]]; exact H.
Qed.

(** **** Invariants of importing

    An invariant of the graph and of the registry that survives the
    recording of an edge to a plugin, the deletion of the edges leaving a
    vertex, and the registration (and withdrawal) of a module that was not
    registered, is kept by every import. *)

Section ImportInvariant.
Variable I : state -> Prop.
Hypothesis I_frame : forall st st',
  deps st' = deps st -> sys_modules st' = sys_modules st -> I st -> I st'.
Hypothesis I_add_edge : forall st cur parent,
  is_plugin parent = true -> I st ->
  I (set_deps (add_edge str_dec (deps st) cur parent) st).
Hypothesis I_del_edges : forall st name,
  I st -> I (set_deps (fst (del_edges_from str_dec (deps st) name)) st).
Hypothesis I_register : forall st name m,
  lookup str_dec (sys_modules st) name = None -> I st ->
  I (set_next_module (S (next_module st))
       (set_sys_modules (dict_set str_dec (sys_modules st) name m) st)).
Hypothesis I_unregister : forall st0 st name,
  lookup str_dec (sys_modules st0) name = None -> I st0 -> I st ->
  I (set_sys_modules (dict_del str_dec (sys_modules st) name) st).

Lemma keeps_current_plugin : keeps I current_plugin.
Proof.
  apply keeps_bind; [apply keeps_get|]. intros st.
  destruct (import_stack st); [apply keeps_raise|apply keeps_ret].
Qed.

(** [trace_import] records edges to plugins only. *)
Lemma keeps_trace_edges (parents : list string) : keeps I (trace_edges parents).
Proof.
  induction parents as [|parent rest IH]; simpl; [apply keeps_ret|].
  apply keeps_bind; [|intros _; exact IH].
  destruct (is_plugin parent) eqn:Ep; [|apply keeps_ret].
  apply keeps_bind; [apply keeps_current_plugin|]. intros cur.
  apply keeps_modify. intros st. now apply I_add_edge.
Qed.

Lemma keeps_finalizer (a : action) : keeps I (finalizer a).
Proof.
  apply keeps_bind; [apply keeps_current_plugin|]. intros cur.
  apply keeps_modify. intros st. cbv zeta.
  match goal with
  | |- context [match ?x with Some _ => _ | None => _ end] => destruct x
  end; now apply I_frame.
Qed.

Lemma keeps_call (a : action) : keeps I (call a).
Proof.
  apply keeps_bind.
  - apply keeps_modify. intros st. now apply I_frame.
  - intros _. destruct (act_error a); [apply keeps_raise|apply keeps_ret].
Qed.

Lemma keeps_finalize_module (name : string) : keeps I (finalize_module name).
Proof.
  apply keeps_bind; [apply keeps_get|]. intros st.
  destruct (lookup str_dec (finalizers st) name); [|apply keeps_ret].
  apply keeps_cont_loop; [apply keeps_call|].
  apply keeps_bind; [apply keeps_get|]. intros st'.
  destruct (has_key str_dec (finalizers st') name); [|apply keeps_raise].
  apply keeps_modify. intros st''. now apply I_frame.
Qed.

Lemma keeps_deps_del_edges_from (name : string) :
  keeps I (deps_del_edges_from name).
Proof.
  intros h st H. unfold deps_del_edges_from, bind, get.
  pose proof (@I_del_edges st name H) as Hd.
  destruct (del_edges_from str_dec (deps st) name) as [g' [y|]]; exact Hd.
Qed.

Lemma keeps_run_body (import_ : string -> M state module) (body : list stmt) :
  (forall name, keeps I (import_ name)) -> keeps I (run_body import_ body).
Proof.
  intros Hi. induction body as [|s body IH]; simpl; [apply keeps_ret|].
  apply keeps_bind; [|intros _; exact IH].
  destruct s as [name|a|e].
  - apply keeps_bind; [|intros _; apply keeps_ret].
    apply keeps_bind; [apply keeps_trace_edges|]. intros _. apply Hi.
  - apply keeps_finalizer.
  - apply keeps_raise.
Qed.

Lemma keeps_exec_module (import_ : string -> M state module) (name : string)
  (body : list stmt) :
  (forall name, keeps I (import_ name)) ->
  keeps I (exec_module import_ name body).
Proof.
  intros Hi. apply keeps_bind.
  { apply keeps_modify. intros st. now apply I_frame. }
  intros _. apply keeps_try_finally.
  - apply keeps_try_except.
    + apply keeps_bind.
      * apply keeps_modify. intros st. now apply I_frame.
      * intros _. now apply keeps_run_body.
    + apply keeps_try_finally;
        [apply keeps_finalize_module|apply keeps_deps_del_edges_from].
  - apply keeps_modify. intros st. now apply I_frame.
Qed.

(** What [import_module] does to a plugin that is not registered. *)
Lemma import_module_unfold (w : world) (f : nat) (name : string)
  (body : list stmt) (h : exn) (st : state) :
  lookup str_dec (sys_modules st) name = None ->
  is_plugin name = true -> w name = Some body ->
  import_module w (S f) name h st =
  ((try_except
      (exec_module (import_module w f) name body)
      (modify (fun st =>
         set_sys_modules (dict_del str_dec (sys_modules st) name) st)) ;;;
    ret (PluginModule (next_module st))) h
     (set_next_module (S (next_module st))
        (set_sys_modules
           (dict_set str_dec (sys_modules st) name
              (PluginModule (next_module st))) st))).
Proof.
  intros Hl Hp Hw. simpl. unfold bind at 1, get. rewrite Hl, Hp, Hw.
  reflexivity.
Qed.

Lemma keeps_import_module (w : world) (fuel : nat) :
  forall name, keeps I (import_module w fuel name).
Proof.
  induction fuel as [|f IH]; intros name h st H.
  - exact H.
  - destruct (lookup str_dec (sys_modules st) name) as [m|] eqn:El.
    { simpl. unfold bind, get. rewrite El. exact H. }
    destruct (is_plugin name) eqn:Ep.
    2:{ simpl. unfold bind, get. rewrite El, Ep. exact H. }
    destruct (w name) as [body|] eqn:Ew.
    2:{ simpl. unfold bind, get. rewrite El, Ep, Ew. exact H. }
    rewrite (import_module_unfold w f name h st El Ep Ew).
    match goal with
    | |- I (fst (?c h ?s1)) => assert (Hk : keeps I c); [|apply Hk]
    end.
    + apply keeps_bind; [|intros _; apply keeps_ret].
      apply keeps_try_except; [now apply keeps_exec_module|].
      apply keeps_modify. intros st'. now apply (@I_unregister st st' name).
    + now apply I_register.
Qed.

Lemma keeps_load (w : world) (fuel : nat) (name : string) :
  keeps I (load w fuel name).
Proof.
  unfold load. destruct (negb (is_plugin name)); [apply keeps_raise|].
  apply keeps_bind; [apply keeps_get|]. intros st.
  destruct (lookup str_dec (sys_modules st) name);
    [apply keeps_ret|apply keeps_import_module].
Qed.

End ImportInvariant.

(** **** The invariant of the graph *)

Lemma graph_ok_frame (st st' : state) :
  deps st' = deps st -> graph_ok st -> graph_ok st'.
Proof.
  unfold graph_ok, targets_are_plugins. intros ->. auto.
Qed.

Lemma graph_ok_add_edge (st : state) (cur parent : string) :
  is_plugin parent = true -> graph_ok st ->
  graph_ok (set_deps (add_edge str_dec (deps st) cur parent) st).
Proof.
  intros Ep [Hc Ht]. split; simpl.
  - now apply add_edge_consistent.
  - intros k Hk. simpl in Hk. apply keys_set_insert in Hk.
    destruct Hk as [->|Hk]; [exact Ep|now apply Ht].
Qed.

Lemma graph_ok_del_edges (st : state) (name : string) :
  graph_ok st ->
  graph_ok (set_deps (fst (del_edges_from str_dec (deps st) name)) st).
Proof.
  intros [Hc Ht].
  destruct (del_edges_from_spec name Hc) as (g' & E & Hc' & _ & _ & Hk).
  rewrite E. simpl. split; [exact Hc'|].
  intros k Hk'. simpl in Hk'. rewrite Hk in Hk'. now apply Ht.
Qed.

(** Every import keeps the invariant of the graph. *)
Lemma import_keeps_graph_ok (w : world) (fuel : nat) (name : string) :
  keeps graph_ok (import_module w fuel name).
Proof.
  apply keeps_import_module.
  - intros st st' Hd _. now apply graph_ok_frame.
  - apply graph_ok_add_edge.
  - apply graph_ok_del_edges.
  - intros st name' m _. now apply graph_ok_frame.
  - intros st0 st name' _ _. now apply graph_ok_frame.
Qed.

Lemma load_keeps_graph_ok (w : world) (fuel : nat) (name : string) :
  keeps graph_ok (load w fuel name).
Proof.
  apply keeps_load.
  - intros st st' Hd _. now apply graph_ok_frame.
  - apply graph_ok_add_edge.
  - apply graph_ok_del_edges.
  - intros st name' m _. now apply graph_ok_frame.
  - intros st0 st name' _ _. now apply graph_ok_frame.
Qed.

Lemma keeps_unsafe_unload (name : string) : keeps graph_ok (unsafe_unload name).
Proof.
  unfold unsafe_unload. destruct (negb (is_plugin name)); [apply keeps_raise|].
  apply keeps_try_finally.
  - apply keeps_finalize_module. intros st st' Hd _. now apply graph_ok_frame.
  - apply keeps_bind.
    + apply keeps_deps_del_edges_from. apply graph_ok_del_edges.
    + intros _. apply keeps_bind; [apply keeps_get|]. intros st.
      destruct (has_key str_dec (sys_modules st) name); [|apply keeps_raise].
      apply keeps_modify. intros st'. now apply graph_ok_frame.
Qed.

(** **** A registered module stays registered while plugins are imported *)

Lemma import_keeps_registered (P : string) (m : module) (w : world)
  (fuel : nat) (name : string) :
  keeps (fun st => lookup str_dec (sys_modules st) P = Some m)
        (import_module w fuel name).
Proof.
  apply keeps_import_module.
  - intros st st' _ Hs. rewrite Hs. auto.
  - auto.
  - auto.
  - intros st name' m' Hn H. simpl. rewrite lookup_dict_set.
    destruct (str_dec P name') as [->|]; [congruence|exact H].
  - intros st0 st name' Hn H0 H. simpl. rewrite lookup_dict_del.
    destruct (str_dec P name') as [->|]; [congruence|exact H].
Qed.

(** The module object [import_module] returns is the registered one. *)
Lemma import_module_registers (w : world) (fuel : nat) (P : string) (h : exn)
  (st st' : state) (m : module) :
  is_plugin P = true ->
  import_module w fuel P h st = (st', Ok m) ->
  lookup str_dec (sys_modules st') P = Some m.
Proof.
  intros Hp. destruct fuel as [|f]; [discriminate|].
  destruct (lookup str_dec (sys_modules st) P) as [m0|] eqn:El.
  { simpl. unfold bind, get. rewrite El. intros [= <- <-]. exact El. }
  destruct (w P) as [body|] eqn:Ew.
  2:{ simpl. unfold bind, get. rewrite El, Hp, Ew. discriminate. }
  rewrite (import_module_unfold w f P h st El Hp Ew).
  set (m0 := PluginModule (next_module st)).
  set (st1 := set_next_module _ _).
  assert (H1 : lookup str_dec (sys_modules st1) P = Some m0).
  { simpl. rewrite lookup_dict_set. destruct (str_dec P P); congruence. }
  assert (Hk : keeps (fun s => lookup str_dec (sys_modules s) P = Some m0)
                     (exec_module (import_module w f) P body)).
  { apply keeps_exec_module.
    - intros s s' _ Hs H. rewrite Hs. exact H.
    - auto.
    - auto.
    - intros name. apply import_keeps_registered. }
  specialize (Hk h st1 H1). unfold bind, try_except.
  destruct (exec_module (import_module w f) P body h st1) as [st2 [u|x|]].
  - simpl. intros [= <- <-]. exact Hk.
  - unfold except_reraise, modify. discriminate.
  - discriminate.
Qed.

Lemma keeps_unload (name : string) : keeps graph_ok (unload name).
Proof.
  apply keeps_bind; [apply keeps_get|]. intros st.
  apply keeps_bind; [apply keeps_lift_opt|]. intros sub.
  apply keeps_bind; [apply keeps_lift_opt|]. intros gen.
  apply keeps_cont_loop; [|apply keeps_unsafe_unload].
  intros dep. destruct (str_dec dep name);
    [apply keeps_ret|apply keeps_unsafe_unload].
Qed.

Lemma keeps_atexit_unload : keeps graph_ok atexit_unload.
Proof.
  apply keeps_bind; [apply keeps_get|]. intros st.
  apply keeps_bind; [apply keeps_lift_opt|]. intros gen.
  apply keeps_cont_loop; [apply keeps_unsafe_unload|apply keeps_ret].
Qed.

Lemma keeps_lift (A : Type) (c : M state A) :
  keeps graph_ok c -> keeps (fun s : state * locals => graph_ok (fst s)) (lift c).
Proof.
  intros Hc h s H. unfold lift. specialize (Hc h (fst s) H).
  destruct (c h (fst s)) as [st1 r]. exact Hc.
Qed.

Lemma keeps_cont_reload (w : world) (fuel : nat) (reloads : Digraph string)
  (gen : list string) :
  keeps (fun s : state * locals => graph_ok (fst s))
        (cont_reload w fuel reloads gen).
Proof.
  apply keeps_cont_loop; [|apply keeps_ret].
  intros dep. apply keeps_bind; [apply keeps_get|]. intros s.
  destruct (may_reload reloads (snd s) dep); [|apply keeps_ret].
  apply keeps_bind; [apply keeps_lift, import_keeps_graph_ok|]. intros _.
  apply keeps_modify. auto.
Qed.

Lemma keeps_reload (w : world) (fuel : nat) (name : string) :
  keeps graph_ok (reload w fuel name).
Proof.
  intros h st H. unfold reload.
  match goal with
  | |- graph_ok (fst (let (s, r) := ?c h ?s0 in (fst s, r))) =>
      assert (Hk : keeps (fun s : state * locals => graph_ok (fst s)) c);
      [|specialize (Hk h s0 H); destruct (c h s0); exact Hk]
  end.
  apply keeps_bind; [apply keeps_lift_opt|]. intros reloads.
  apply keeps_bind; [apply keeps_lift_opt|]. intros unload_gen.
  apply keeps_bind; [apply keeps_lift_opt|]. intros reload_gen.
  apply keeps_cont_loop.
  - intros dep. unfold unload_one. destruct (str_dec dep name);
      [apply keeps_ret|].
    apply keeps_bind; [apply keeps_lift, keeps_unsafe_unload|]. intros _.
    apply keeps_modify. auto.
  - apply keeps_bind.
    + apply keeps_try_except;
        [apply keeps_lift, keeps_unsafe_unload|apply keeps_cont_reload].
    + intros _. apply keeps_try_finally; [|apply keeps_cont_reload].
      apply keeps_bind; [apply keeps_lift, import_keeps_graph_ok|]. intros m.
      apply keeps_bind; [apply keeps_modify; auto|]. intros _.
      apply keeps_ret.
Qed.

Lemma initial_graph_ok : graph_ok initial.
Proof.
  split; [apply empty_consistent|]. intros k [].
Qed.

(** In every state the manager reaches, the two mappings of [deps] agree
    and every key of [deps.bck] is a plugin. *)
Lemma reachable_graph_ok (cs : list command) : graph_ok (run_commands cs).
Proof.
  unfold run_commands.
  assert (H : forall st, graph_ok st -> graph_ok (fold_left run_command cs st)).
  { induction cs as [|c cs IH]; intros st Hst; simpl; [exact Hst|].
    apply IH. destruct c as [w fuel name|name|w fuel name|]; simpl.
    - now apply load_keeps_graph_ok.
    - now apply keeps_unload.
    - now apply keeps_reload.
    - now apply keeps_atexit_unload. }
  apply H, initial_graph_ok.
Qed.


(** *** [load] *)

Lemma load_registers (w : world) (fuel : nat) (P : string) (h : exn)
  (st st' : state) (m : module) :
  load w fuel P h st = (st', Ok m) ->
  lookup str_dec (sys_modules st') P = Some m.
Proof.
  unfold load. destruct (is_plugin P) eqn:Hp; [|discriminate]. simpl.
  unfold bind, get.
  destruct (lookup str_dec (sys_modules st) P) as [m0|] eqn:El.
  - intros [= <- <-]. exact El.
  - now apply import_module_registers.
Qed.

(** C9: [load] of a plugin that is loaded returns the registered module
    object and changes nothing: not the registry, not the graph.  So a
    second [load], called in the state the first one left, returns the
    module object the first one returned. *)
Theorem load_loaded_is_identity (w : world) (fuel : nat) (st : state)
  (h : exn) (P : string) (m : module) :
  is_plugin P = true ->
  (lookup str_dec (sys_modules st) P = Some m ->
   load w fuel P h st = (st, Ok m)) /\
  (forall w0 fuel0 h0 st0,
     load w0 fuel0 P h0 st0 = (st, Ok m) ->
     load w fuel P h st = (st, Ok m)).
Proof.
  intros Hp.
  assert (H : lookup str_dec (sys_modules st) P = Some m ->
              load w fuel P h st = (st, Ok m)).
  { intros Hm. unfold load. rewrite Hp. simpl.
    unfold bind, get. rewrite Hm. reflexivity. }
  split; [exact H|].
  intros w0 fuel0 h0 st0 H0. apply H. eapply load_registers; eauto.
Qed.
(** ** Concrete graphs *)

(** C4, the code at the failing input: after [add_edge("a", "b")] and
    [del_edges_from("a")] the vertex [b] is still a key of [bck], with an
    empty set, although no edge is left; the iterations still yield it. *)
Theorem del_edges_from_leaves_isolated_key :
  emptied_graph = mkDigraph [] [("b"%string, [])] /\
  is_key emptied_graph "b"%string /\
  ~ incident string_dec emptied_graph "b"%string /\
  topo_sort_fwd string_dec emptied_graph = Some ["b"%string].
Proof.
  split; [reflexivity|]. split; [right; now left|]. split; [|reflexivity].
  intros (w & [H|H]); exact H.
Qed.

Lemma chain_graph_acyclic : acyclic string_dec chain_graph.
Proof.
  apply (@acyclic_by_rank _ string_dec chain_graph chain_rank).
  intros a b. unfold edge, edges_from, entry, chain_graph. simpl.
  destruct (string_dec a "plugins.b") as [->|Hb].
  - intros [<-|[]]. vm_compute. lia.
  - destruct (string_dec a "plugins.c") as [->|Hc]; [|intros []].
    intros [<-|[]]. vm_compute. lia.
Qed.

Lemma topo_sort_acyclic_witness :
  consistent string_dec chain_graph /\ acyclic string_dec chain_graph /\
  (exists l, topo_sort_fwd string_dec chain_graph = Some l /\ NoDup l /\
     (forall v, In v l <-> is_key chain_graph v) /\
     (forall a b, edge string_dec chain_graph a b -> before l a b)) /\
  (exists l, topo_sort_bck string_dec chain_graph = Some l /\ NoDup l /\
     (forall v, In v l <-> is_key chain_graph v) /\
     (forall a b, edge string_dec chain_graph a b -> before l b a)).
Proof.
  split; [apply run_ops_consistent|]. split; [apply chain_graph_acyclic|].
  apply (@topo_sort_acyclic _ string_dec chain_graph).
  - apply run_ops_consistent.
  - apply chain_graph_acyclic.
Defined.

(** C6 as stated fails: in the graph with the single edge from [a] to
    [x], the result of [subgraph_paths_to(x)] has [x] as a vertex although
    no path leads from [x] to [x]. *)
Lemma subgraph_contains_target_without_cycle :
  exists sub,
    subgraph_paths_to string_dec one_edge_graph "x"%string = Some sub /\
    is_key sub "x"%string /\
    ~ path string_dec one_edge_graph "x"%string "x"%string.
Proof.
  eexists. split; [reflexivity|]. split; [right; now left|].
  intros H. apply walk_head in H. destruct H as (w & Ha & _). exact Ha.
Qed.

Lemma subgraph_paths_to_vertices_witness :
  consistent string_dec chain_graph /\
  exists sub,
    subgraph_paths_to string_dec chain_graph "plugins.a"%string = Some sub /\
    consistent string_dec sub /\
    (forall v, is_key sub v <->
       path string_dec chain_graph v "plugins.a"%string \/
       (v = "plugins.a"%string /\
        exists a, edge string_dec chain_graph a "plugins.a"%string)) /\
    (forall a b, edge string_dec sub a b <->
       edge string_dec chain_graph a b /\ is_key sub a /\ is_key sub b) /\
    (is_key sub "plugins.a"%string <->
       exists a, edge string_dec chain_graph a "plugins.a"%string) /\
    (forall v, v <> "plugins.a"%string ->
       ~ path string_dec chain_graph v "plugins.a"%string -> ~ is_key sub v).
Proof.
  split; [apply run_ops_consistent|].
  apply (@subgraph_paths_to_vertices _ string_dec chain_graph).
  apply run_ops_consistent.
Defined.

(** ** Concrete runs of the manager *)

Lemma loaded_chain_graph_ok (w : world) : graph_ok (loaded_chain w).
Proof. apply (reachable_graph_ok [DoLoad w 5 plugin_c]). Qed.

Lemma finalize_module_runs_every_action_witness :
  lookup str_dec (finalizers loaded_with_finalizers) plugin_a =
    Some three_finalizers /\
  finalize_module plugin_a [] loaded_with_finalizers =
  (mkState (deps loaded_with_finalizers) (import_stack loaded_with_finalizers)
           (dict_del str_dec (finalizers loaded_with_finalizers) plugin_a)
           (sys_modules loaded_with_finalizers)
           (next_module loaded_with_finalizers)
           (log loaded_with_finalizers ++ map Called three_finalizers ++
            [Dropped plugin_a]),
   Raise [PluginError "first"]).
Proof.
  split; [reflexivity|].
  apply (finalize_module_runs_every_action loaded_with_finalizers []
           plugin_a (fins:=three_finalizers)).
  reflexivity.
Defined.

(** The same through [unload]: the three finalizers are called in order
    although the first one raises, the plugin is unloaded, and the error of
    the first finalizer is raised. *)
Example unload_runs_three_finalizers :
  unload plugin_a [] loaded_with_finalizers =
  (mkState empty [] [] [] 1
     ([Executed plugin_a] ++ map Called three_finalizers ++ [Dropped plugin_a]),
   Raise [PluginError "first"]).
Proof. vm_compute. reflexivity. Qed.

Lemma unsafe_unload_always_unregisters_witness :
  is_plugin plugin_a = true /\
  lookup str_dec (sys_modules (loaded_chain world_a_cleanup_fails)) plugin_a =
    Some (PluginModule 2) /\
  consistent str_dec (deps (loaded_chain world_a_cleanup_fails)) /\
  snd (finalize_module plugin_a [] (loaded_chain world_a_cleanup_fails)) =
    Raise [PluginError "a cleanup failed"] /\
  exists st',
    unsafe_unload plugin_a [] (loaded_chain world_a_cleanup_fails) =
      (st', Raise [PluginError "a cleanup failed"]) /\
    (forall b, ~ edge str_dec (deps st') plugin_a b) /\
    lookup str_dec (sys_modules st') plugin_a = None /\
    finalizers st' =
      finalizers (fst (finalize_module plugin_a []
                         (loaded_chain world_a_cleanup_fails))) /\
    log st' =
      log (fst (finalize_module plugin_a []
                  (loaded_chain world_a_cleanup_fails))).
Proof.
  split; [reflexivity|]. split; [reflexivity|].
  split; [apply loaded_chain_graph_ok|]. split; [reflexivity|].
  apply (@unsafe_unload_always_unregisters
           (loaded_chain world_a_cleanup_fails) [] plugin_a (PluginModule 2)).
  - reflexivity.
  - reflexivity.
  - apply loaded_chain_graph_ok.
  - vm_compute. reflexivity.
Defined.

Lemma load_loaded_is_identity_witness :
  is_plugin plugin_c = true /\
  lookup str_dec (sys_modules (loaded_chain world_ok)) plugin_c =
    Some (PluginModule 0) /\
  load world_ok 5 plugin_c [] initial =
    (loaded_chain world_ok, Ok (PluginModule 0)) /\
  load world_ok 5 plugin_c [] (loaded_chain world_ok) =
    (loaded_chain world_ok, Ok (PluginModule 0)).
Proof.
  split; [reflexivity|]. split; [reflexivity|].
  split; [vm_compute; reflexivity|].
  apply (proj2 (@load_loaded_is_identity world_ok 5 (loaded_chain world_ok) []
                  plugin_c (PluginModule 0) eq_refl)
               world_ok 5 [] initial).
  vm_compute. reflexivity.
Defined.

Lemma non_plugin_is_usage_error_witness :
  is_plugin "util.restart" = false /\
  targets_are_plugins (loaded_chain world_ok) /\
  load world_ok 5 "util.restart" [] (loaded_chain world_ok) =
    (loaded_chain world_ok,
     Raise [ValueError "util.restart is not a plugin"]) /\
  unload "util.restart" [] (loaded_chain world_ok) =
    (loaded_chain world_ok,
     Raise [ValueError "util.restart is not a plugin"]) /\
  reload world_ok 5 "util.restart" [] (loaded_chain world_ok) =
    (loaded_chain world_ok,
     Raise [ValueError "util.restart is not a plugin"]).
Proof.
  split; [reflexivity|]. split; [apply loaded_chain_graph_ok|].
  apply (@non_plugin_is_usage_error world_ok 5 (loaded_chain world_ok) []
           "util.restart").
  - reflexivity.
  - apply loaded_chain_graph_ok.
Defined.




(** ** The installation of [PluginFinder] *)

Module MetaPathFacts.
Import MetaPath.

Lemma insert_at_app (pre post : list finder) (x : finder) :
  insert_at (length pre) x (pre ++ post) = pre ++ x :: post.
Proof.
  induction pre as [|a pre IH]; simpl.
  - destruct post; reflexivity.
  - rewrite IH. reflexivity.
Qed.

Lemma repeat_snoc (x : finder) (k : nat) :
  repeat x k ++ [x] = x :: repeat x k.
Proof. induction k as [|k IH]; simpl; [reflexivity|]. now rewrite IH. Qed.

(** Before the first [PathFinder] the loop changes nothing. *)
Lemma install_from_prefix (pre rest : list finder) :
  forallb (fun f => negb (is_path_finder f)) pre = true ->
  forall done todo count,
    pre = done ++ todo ->
    install_from (length done) (length todo + count) (pre ++ rest) =
    install_from (length pre) count (pre ++ rest).
Proof.
  intros Hpre done todo. revert done.
  induction todo as [|f todo IH]; intros done count E.
  - rewrite app_nil_r in E. subst. reflexivity.
  - simpl. subst pre.
    assert (Hn : nth_error ((done ++ f :: todo) ++ rest) (length done) = Some f).
    { rewrite <- app_assoc. rewrite nth_error_app2 by lia.
      rewrite Nat.sub_diag. reflexivity. }
    rewrite Hn.
    assert (Hf : is_path_finder f = false).
    { rewrite forallb_app in Hpre. apply andb_prop in Hpre.
      destruct Hpre as [_ Hpre]. simpl in Hpre. apply andb_prop in Hpre.
      destruct Hpre as [Hf _]. now apply negb_true_iff in Hf. }
    rewrite Hf.
    specialize (IH (done ++ [f]) count).
    rewrite length_app in IH. simpl in IH.
    replace (length done + 1) with (S (length done)) in IH by lia.
    rewrite <- app_assoc in IH. simpl in IH. apply IH. reflexivity.
Qed.

(** From the first [PathFinder] on, every iteration finds it again, one
    place further, and inserts once more. *)
Lemma install_from_path_finder (pre post : list finder) :
  forall count k,
    install_from (length pre + k) count
      (pre ++ repeat PluginFinder k ++ PathFinder :: post) =
    Some (pre ++ repeat PluginFinder (k + count) ++ PathFinder :: post).
Proof.
  induction count as [|count IH]; intros k; simpl.
  - rewrite Nat.add_0_r. reflexivity.
  - assert (Hn : nth_error (pre ++ repeat PluginFinder k ++ PathFinder :: post)
                           (length pre + k) = Some PathFinder).
    { rewrite nth_error_app2 by lia.
      replace (length pre + k - length pre) with k by lia.
      rewrite nth_error_app2 by (rewrite repeat_length; lia).
      rewrite repeat_length, Nat.sub_diag. reflexivity. }
    rewrite Hn. simpl.
    assert (Hi : insert_at (length pre + k) PluginFinder
                   (pre ++ repeat PluginFinder k ++ PathFinder :: post) =
                 pre ++ repeat PluginFinder (S k) ++ PathFinder :: post).
    { rewrite app_assoc.
      replace (length pre + k) with (length (pre ++ repeat PluginFinder k))
        by (rewrite length_app, repeat_length; reflexivity).
      rewrite insert_at_app. rewrite <- app_assoc.
      change (PluginFinder :: PathFinder :: post)
        with ([PluginFinder] ++ PathFinder :: post).
      rewrite (app_assoc (repeat PluginFinder k)), repeat_snoc. reflexivity. }
    rewrite Hi.
    replace (S (length pre + k)) with (length pre + S k) by lia.
    rewrite IH. replace (S k + count) with (k + S count) by lia. reflexivity.
Qed.

(** X10: the loop that installs [PluginFinder] raises no [IndexError].
    It leaves a [sys.meta_path] without [PathFinder] as it is; otherwise
    it puts [PluginFinder] in front of the first [PathFinder], and not
    once but once for every entry from that [PathFinder] to the end of
    the list. *)
Theorem install_plugin_finder_result (pre post : list finder) :
  forallb (fun f => negb (is_path_finder f)) pre = true ->
  install_plugin_finder pre = Some pre /\
  install_plugin_finder (pre ++ PathFinder :: post) =
    Some (pre ++ repeat PluginFinder (S (length post)) ++ PathFinder :: post).
Proof.
  intros Hpre. unfold install_plugin_finder. split.
  - pose proof (@install_from_prefix pre [] Hpre [] pre 0 eq_refl) as H.
    simpl in H. rewrite app_nil_r, Nat.add_0_r in H. rewrite H. reflexivity.
  - rewrite length_app. simpl.
    pose proof (@install_from_prefix pre (PathFinder :: post) Hpre [] pre
                  (S (length post)) eq_refl) as H.
    simpl in H. rewrite H.
    pose proof (install_from_path_finder pre post (S (length post)) 0) as H2.
    simpl in H2. rewrite Nat.add_0_r in H2. exact H2.
Qed.

Lemma install_plugin_finder_result_witness :
  forallb (fun f => negb (is_path_finder f)) [OtherFinder 0; OtherFinder 1] =
    true /\
  install_plugin_finder
    ([OtherFinder 0; OtherFinder 1] ++ PathFinder :: [OtherFinder 2]) =
  Some [OtherFinder 0; OtherFinder 1; PluginFinder; PluginFinder; PathFinder;
        OtherFinder 2].
Proof.
  split; [reflexivity|].
  apply (@install_plugin_finder_result [OtherFinder 0; OtherFinder 1]
           [OtherFinder 2] eq_refl).
Defined.

End MetaPathFacts.

(** ** The dependency tracker *)

Unset Implicit Arguments.

(** *** Dotted prefixes *)

Lemma string_app_assoc (a b c : string) :
  ((a ++ b) ++ c)%string = (a ++ (b ++ c))%string.
Proof. induction a as [|x a IH]; simpl; [reflexivity|]. now rewrite IH. Qed.

Lemma prefix_app (a b : string) : String.prefix a (a ++ b) = true.
Proof.
  induction a as [|x a IH]; simpl.
  - destruct b; reflexivity.
  - destruct (ascii_dec x x); [exact IH|congruence].
Qed.

Lemma prefix_trans (a : string) :
  forall b c, String.prefix a b = true -> String.prefix b c = true ->
              String.prefix a c = true.
Proof.
  induction a as [|x a IH]; intros b c Hab Hbc.
  - destruct c; reflexivity.
  - destruct b as [|y b]; [discriminate|]. destruct c as [|z c]; [discriminate|].
    simpl in *. destruct (ascii_dec x y) as [->|]; [|discriminate].
    destruct (ascii_dec y z) as [->|]; [|discriminate]. eauto.
Qed.

(** Every dotted prefix is a prefix, and the whole name is one of them. *)
Lemma dotted_prefixes_prefix (s : string) :
  forall pre p, In p (dotted_prefixes pre s) ->
                String.prefix p (pre ++ s) = true.
Proof.
  induction s as [|c s IH]; intros pre p Hp; simpl in Hp.
  - destruct Hp as [<-|[]]. apply prefix_app.
  - assert (Happ : forall t, ((pre ++ t) ++ s)%string =
                             (pre ++ (t ++ s))%string)
      by (intros; apply string_app_assoc).
    destruct (Ascii.eqb_spec c ".") as [->|Hne].
    + destruct Hp as [<-|Hp]; [apply prefix_app|].
      apply IH in Hp. rewrite (Happ "."%string) in Hp. exact Hp.
    + apply IH in Hp. rewrite (Happ (String c EmptyString)) in Hp. exact Hp.
Qed.



(** A name outside the namespace has no dotted prefix inside it. *)
Lemma no_plugin_prefix (name p : string) :
  is_plugin name = false -> In p (dotted_prefixes "" name) ->
  is_plugin p = false.
Proof.
  intros Hn Hp. apply dotted_prefixes_prefix in Hp. simpl in Hp.
  destruct (is_plugin p) eqn:E; [|reflexivity].
  unfold is_plugin in *. rewrite (prefix_trans _ _ _ E Hp) in Hn. discriminate.
Qed.

(** *** [trace_import] *)

Lemma trace_edges_skip (parents : list string) (h : exn) (st : state) :
  (forall p, In p parents -> is_plugin p = false) ->
  trace_edges parents h st = (st, Ok tt).
Proof.
  induction parents as [|p parents IH]; intros H; simpl; [reflexivity|].
  unfold bind. rewrite (H p (or_introl eq_refl)). simpl.
  apply IH. intros q Hq. apply H. now right.
Qed.




(** X11: [trace_import] of a module outside the plugin namespace records
    no edge and never fails on its own, inside or outside a plugin
    initialization: it is the plain import. *)
Theorem trace_import_outside_namespace (import_ : string -> M state module)
  (name : string) (h : exn) (st : state) :
  is_plugin name = false ->
  trace_import import_ name h st = import_ name h st.
Proof.
  intros Hn. unfold trace_import, bind.
  rewrite trace_edges_skip; [reflexivity|].
  intros p Hp. now apply (no_plugin_prefix name).
Qed.


(** ** Finalizers, registered and consumed *)

Lemma dict_set_twice (d : dict string (list action)) (k : string)
  (v v' : list action) :
  dict_set str_dec (dict_set str_dec d k v) k v' = dict_set str_dec d k v'.
Proof.
  induction d as [|[k0 v0] d IH]; simpl.
  - destruct (str_dec k k); congruence.
  - destruct (str_dec k k0) as [->|Hne]; simpl.
    + destruct (str_dec k0 k0); congruence.
    + destruct (str_dec k k0); [congruence|]. now rewrite IH.
Qed.

(** One registration during the initialization of [cur]. *)
Lemma finalizer_run (a : action) (cur : string) (rest : list string) (h : exn)
  (st : state) :
  import_stack st = cur :: rest ->
  finalizer a h st =
  (set_finalizers
     (dict_set str_dec (finalizers st) cur
        (match lookup str_dec (finalizers st) cur with
         | Some l => l
         | None => []
         end ++ [a])) st,
   Ok tt).
Proof.
  intros Hs. unfold finalizer, bind at 1, current_plugin, bind, get.
  rewrite Hs. simpl. unfold modify, has_key.
  destruct (lookup str_dec (finalizers st) cur) as [l|] eqn:E.
  - rewrite E. reflexivity.
  - rewrite lookup_dict_set. destruct (str_dec cur cur); [|congruence].
    rewrite dict_set_twice. reflexivity.
Qed.

(** X13: [finalizer] outside any plugin initialization raises
    [ValueError] and registers nothing; during the initialization of
    [cur] it appends the action to the sequence of [cur], which it creates
    if need be, and touches the sequence of no other plugin. *)
Theorem finalizer_appends_to_current (a : action) (h : exn) (st : state) :
  (import_stack st = [] ->
   finalizer a h st =
   (st, Raise (ValueError "not called during plugin initialization" :: h))) /\
  (forall cur rest, import_stack st = cur :: rest ->
   exists st',
     finalizer a h st = (st', Ok tt) /\
     lookup str_dec (finalizers st') cur =
       Some (match lookup str_dec (finalizers st) cur with
             | Some l => l
             | None => []
             end ++ [a]) /\
     (forall k, k <> cur ->
        lookup str_dec (finalizers st') k = lookup str_dec (finalizers st) k) /\
     deps st' = deps st /\ sys_modules st' = sys_modules st /\
     import_stack st' = import_stack st /\ log st' = log st).
Proof.
  split.
  - intros Hs. unfold finalizer, bind, current_plugin, bind, get, raise.
    rewrite Hs. reflexivity.
  - intros cur rest Hs. eexists. split; [apply (finalizer_run a cur rest h st Hs)|].
    simpl. split; [|split; [|repeat split]].
    + rewrite lookup_dict_set. destruct (str_dec cur cur); congruence.
    + intros k Hk. rewrite lookup_dict_set.
      destruct (str_dec k cur); [congruence|reflexivity].
Qed.

(** The finalizers a body registers, in the order of the body. *)
Lemma run_body_finalizers (import_ : string -> M state module)
  (cur : string) (rest : list string) (h : exn) (fins : list action) :
  forall st, import_stack st = cur :: rest ->
    exists st',
      run_body import_ (map SFinalizer fins) h st = (st', Ok tt) /\
      import_stack st' = cur :: rest /\
      (fins <> [] ->
       lookup str_dec (finalizers st') cur =
         Some (match lookup str_dec (finalizers st) cur with
               | Some l => l
               | None => []
               end ++ fins)) /\
      (fins = [] -> st' = st) /\
      sys_modules st' = sys_modules st /\ deps st' = deps st /\
      log st' = log st.
Proof.
  induction fins as [|a fins IH]; intros st Hs; simpl.
  - exists st. repeat split; [exact Hs|congruence].
  - unfold bind at 1. rewrite (finalizer_run a cur rest h st Hs).
    match goal with
    | |- context [run_body _ _ _ ?s1] =>
        destruct (IH s1 Hs) as (st' & E & Hs' & Hl & Hnil & Hm & Hd & Hg)
    end.
    exists st'. split; [exact E|]. split; [exact Hs'|].
    split; [|split; [discriminate|repeat split; assumption]].
    intros _. destruct fins as [|b fins].
    + rewrite (Hnil eq_refl). simpl. rewrite lookup_dict_set.
      destruct (str_dec cur cur); congruence.
    + rewrite Hl by discriminate. simpl. rewrite lookup_dict_set.
      destruct (str_dec cur cur); [|congruence].
      rewrite <- app_assoc. reflexivity.
Qed.

(** X14: registration order is call order.  When the body of a plugin
    that has no finalizers yet registers the finalizers [fins], one after
    the other, [finalize_module] afterwards calls exactly [fins], in that
    order, and drops the entry. *)
Theorem finalizers_run_in_registration_order
  (import_ : string -> M state module) (cur : string) (rest : list string)
  (h h' : exn) (fins : list action) (st : state) :
  import_stack st = cur :: rest ->
  lookup str_dec (finalizers st) cur = None ->
  fins <> [] ->
  exists st1 st2 r,
    run_body import_ (map SFinalizer fins) h st = (st1, Ok tt) /\
    finalize_module cur h' st1 = (st2, r) /\
    log st2 = log st ++ map Called fins ++ [Dropped cur] /\
    lookup str_dec (finalizers st2) cur = None.
Proof.
  intros Hs Hn Hne.
  destruct (run_body_finalizers import_ cur rest h fins st Hs)
    as (st1 & E & _ & Hl & _ & _ & _ & Hg).
  specialize (Hl Hne). rewrite Hn in Hl. simpl in Hl.
  exists st1. eexists. eexists. split; [exact E|].
  split; [apply (finalize_module_run st1 h' cur Hl)|]. simpl.
  split; [now rewrite Hg|].
  rewrite lookup_dict_del. destruct (str_dec cur cur); congruence.
Qed.

(** X15: the finalizers of a plugin are consumed once: after
    [finalize_module(P)], however it ended, the plugin has no entry in the
    registry, and a second [finalize_module(P)] returns at once, calls
    nothing and changes nothing. *)
Theorem finalize_module_once (P : string) (h h' : exn) (st : state) :
  lookup str_dec (finalizers (fst (finalize_module P h st))) P = None /\
  finalize_module P h' (fst (finalize_module P h st)) =
    (fst (finalize_module P h st), Ok tt).
Proof.
  assert (H : lookup str_dec (finalizers (fst (finalize_module P h st))) P = None).
  { destruct (lookup str_dec (finalizers st) P) as [fins|] eqn:E.
    - rewrite (finalize_module_run st h P E). simpl.
      rewrite lookup_dict_del. destruct (str_dec P P); congruence.
    - unfold finalize_module, bind, get. rewrite E. exact E. }
  split; [exact H|].
  unfold finalize_module at 1. unfold bind, get. rewrite H. reflexivity.
Qed.

(** ** The idiom hides no failure *)

(** X16: the continue-then-reraise idiom returns normally exactly when
    the plain loop followed by the closing statement does, and then with
    the same state and value: it only adds work after a failure and never
    turns a failure into a normal return. *)
Theorem cont_loop_returns_like_plain_loop (S A B : Type)
  (body : A -> M S unit) (after : M S B) (gen : list A) (h : exn)
  (st st' : S) (b : B) :
  cont_loop body after gen h st = (st', Ok b) <->
  (for_each body gen ;;; after) h st = (st', Ok b).
Proof.
  revert st. induction gen as [|x gen IH]; intros st; simpl.
  - unfold bind, ret. reflexivity.
  - unfold bind at 1. unfold bind at 1.
    destruct (body x h st) as [st1 [u|e|]].
    + rewrite IH. unfold bind. reflexivity.
    + unfold except_reraise.
      destruct (cont_loop body after gen e st1) as [st2 [b'|y|]];
        split; discriminate.
    + split; discriminate.
Qed.

(** ** What a computation leaves as it found it *)

Section Restores.
Variables S T : Type.
Variable f : S -> T.

Lemma restores_ret (A : Type) (a : A) : restores f (@ret S A a).
Proof. intros h st _. reflexivity. Qed.

Lemma restores_raise (A : Type) (e : error) : restores f (@raise S A e).
Proof. intros h st _. reflexivity. Qed.

Lemma restores_get : restores f (@get S).
Proof. intros h st _. reflexivity. Qed.

Lemma restores_lift_opt (A : Type) (o : option A) : restores f (@lift_opt S A o).
Proof. intros h st _. reflexivity. Qed.

Lemma restores_modify (g : S -> S) :
  (forall st, f (g st) = f st) -> restores f (modify g).
Proof. intros Hg h st _. apply Hg. Qed.

Lemma restores_bind (A B : Type) (c : M S A) (k : A -> M S B) :
  restores f c -> (forall a, restores f (k a)) -> restores f (bind c k).
Proof.
  intros Hc Hk h st. unfold bind. specialize (Hc h st).
  destruct (c h st) as [st1 [a|x|]]; simpl in *.
  - intros H. rewrite (Hk a h st1 H). apply Hc. discriminate.
  - intros _. apply Hc. discriminate.
  - congruence.
Qed.

Lemma restores_except_reraise (A B : Type) (handler : M S A) (x : exn)
  (st : S) :
  restores f handler ->
  snd (@except_reraise S A B handler x st) <> OutOfFuel ->
  f (fst (@except_reraise S A B handler x st)) = f st.
Proof.
  intros Hh. unfold except_reraise. specialize (Hh x st).
  destruct (handler x st) as [st1 [a|y|]]; simpl in *; intros H.
  - apply Hh. discriminate.
  - apply Hh. discriminate.
  - congruence.
Qed.

Lemma restores_try_except (A B : Type) (body : M S A) (handler : M S B) :
  restores f body -> restores f handler -> restores f (try_except body handler).
Proof.
  intros Hb Hh h st. unfold try_except. specialize (Hb h st).
  destruct (body h st) as [st1 [a|x|]]; simpl in *; intros H.
  - apply Hb. discriminate.
  - rewrite (restores_except_reraise B A handler x st1 Hh H).
    apply Hb. discriminate.
  - congruence.
Qed.

Lemma restores_try_finally (A B : Type) (body : M S A) (final : M S B) :
  restores f body -> restores f final -> restores f (try_finally body final).
Proof.
  intros Hb Hf h st. unfold try_finally. specialize (Hb h st).
  destruct (body h st) as [st1 [a|x|]]; simpl in *.
  - specialize (Hf h st1). destruct (final h st1) as [st2 [b|y|]];
      simpl in *; intros H; try congruence;
      (rewrite Hf by discriminate; apply Hb; discriminate).
  - intros H. rewrite (restores_except_reraise B A final x st1 Hf H).
    apply Hb. discriminate.
  - congruence.
Qed.

Lemma restores_cont_loop (A B : Type) (body : A -> M S unit) (after : M S B)
  (gen : list A) :
  (forall x, restores f (body x)) -> restores f after ->
  restores f (cont_loop body after gen).
Proof.
  intros Hb Ha. induction gen as [|x gen IH]; simpl; [exact Ha|].
  intros h st. specialize (Hb x h st).
  destruct (body x h st) as [st1 [u|e|]]; simpl in *.
  - intros H. rewrite (IH h st1 H). apply Hb. discriminate.
  - intros H. rewrite (restores_except_reraise B B (cont_loop body after gen) e st1 IH H).
    apply Hb. discriminate.
  - congruence.
Qed.

End Restores.

(** *** The stack of initializations *)

Lemma stack_current_plugin : restores import_stack current_plugin.
Proof.
  apply restores_bind; [apply restores_get|]. intros st.
  destruct (import_stack st); [apply restores_raise|apply restores_ret].
Qed.

Lemma stack_trace_edges (parents : list string) :
  restores import_stack (trace_edges parents).
Proof.
  induction parents as [|p parents IH]; simpl; [apply restores_ret|].
  apply restores_bind; [|intros _; exact IH].
  destruct (is_plugin p); [|apply restores_ret].
  apply restores_bind; [apply stack_current_plugin|]. intros cur.
  apply restores_modify. reflexivity.
Qed.

Lemma stack_finalizer (a : action) : restores import_stack (finalizer a).
Proof.
  apply restores_bind; [apply stack_current_plugin|]. intros cur.
  apply restores_modify. intros st. cbv zeta.
  match goal with
  | |- context [match ?x with Some _ => _ | None => _ end] => destruct x
  end; reflexivity.
Qed.

Lemma stack_finalize_module (name : string) :
  restores import_stack (finalize_module name).
Proof.
  apply restores_bind; [apply restores_get|]. intros st.
  destruct (lookup str_dec (finalizers st) name); [|apply restores_ret].
  apply restores_cont_loop.
  - intros a. apply restores_bind; [apply restores_modify; reflexivity|].
    intros _. destruct (act_error a); [apply restores_raise|apply restores_ret].
  - apply restores_bind; [apply restores_get|]. intros st'.
    destruct (has_key str_dec (finalizers st') name);
      [apply restores_modify; reflexivity|apply restores_raise].
Qed.

Lemma stack_deps_del_edges_from (name : string) :
  restores import_stack (deps_del_edges_from name).
Proof.
  apply restores_bind; [apply restores_get|]. intros st.
  destruct (del_edges_from str_dec (deps st) name) as [g [y|]].
  - apply restores_bind; [apply restores_modify; reflexivity|].
    intros _. apply restores_raise.
  - apply restores_modify. reflexivity.
Qed.

Lemma stack_del_sys_module (name : string) :
  restores import_stack (del_sys_module name).
Proof.
  apply restores_bind; [apply restores_get|]. intros st.
  destruct (has_key str_dec (sys_modules st) name);
    [apply restores_modify; reflexivity|apply restores_raise].
Qed.

Lemma stack_unsafe_unload (name : string) :
  restores import_stack (unsafe_unload name).
Proof.
  unfold unsafe_unload. destruct (negb (is_plugin name));
    [apply restores_raise|].
  apply restores_try_finally; [apply stack_finalize_module|].
  apply restores_bind; [apply stack_deps_del_edges_from|]. intros _.
  apply stack_del_sys_module.
Qed.

Lemma stack_run_body (import_ : string -> M state module) (body : list stmt) :
  (forall name, restores import_stack (import_ name)) ->
  restores import_stack (run_body import_ body).
Proof.
  intros Hi. induction body as [|s body IH]; simpl; [apply restores_ret|].
  apply restores_bind; [|intros _; exact IH].
  destruct s as [name|a|e].
  - apply restores_bind; [|intros _; apply restores_ret].
    apply restores_bind; [apply stack_trace_edges|]. intros _. apply Hi.
  - apply stack_finalizer.
  - apply restores_raise.
Qed.

(** [PluginLoader.exec_module] pops what it pushed. *)
Lemma stack_exec_module (import_ : string -> M state module) (name : string)
  (body : list stmt) :
  (forall name, restores import_stack (import_ name)) ->
  restores import_stack (exec_module import_ name body).
Proof.
  intros Hi h st. unfold exec_module.
  set (T := try_except _ _).
  assert (Hb : restores import_stack T).
  { apply restores_try_except.
    - apply restores_bind; [apply restores_modify; reflexivity|].
      intros _. now apply stack_run_body.
    - apply restores_try_finally;
        [apply stack_finalize_module|apply stack_deps_del_edges_from]. }
  specialize (Hb h (set_import_stack (name :: import_stack st) st)).
  cbv beta iota delta [bind modify try_finally except_reraise].
  destruct (T h (set_import_stack (name :: import_stack st) st))
    as [st2 [u|x|]]; simpl in *.
  - intros _. rewrite Hb by discriminate. reflexivity.
  - intros _. rewrite Hb by discriminate. reflexivity.
  - congruence.
Qed.

Lemma stack_import_module (w : world) (fuel : nat) :
  forall name, restores import_stack (import_module w fuel name).
Proof.
  induction fuel as [|f IH]; intros name; simpl.
  - intros h st H. simpl in H. congruence.
  - apply restores_bind; [apply restores_get|]. intros st.
    destruct (lookup str_dec (sys_modules st) name); [apply restores_ret|].
    destruct (is_plugin name); [|apply restores_ret].
    destruct (w name) as [body|]; [|apply restores_raise].
    apply restores_bind; [apply restores_modify; reflexivity|]. intros _.
    apply restores_bind; [|intros _; apply restores_ret].
    apply restores_try_except; [now apply stack_exec_module|].
    apply restores_modify. reflexivity.
Qed.

Lemma stack_load (w : world) (fuel : nat) (name : string) :
  restores import_stack (load w fuel name).
Proof.
  unfold load. destruct (negb (is_plugin name)); [apply restores_raise|].
  apply restores_bind; [apply restores_get|]. intros st.
  destruct (lookup str_dec (sys_modules st) name);
    [apply restores_ret|apply stack_import_module].
Qed.

Lemma stack_unload (name : string) : restores import_stack (unload name).
Proof.
  apply restores_bind; [apply restores_get|]. intros st.
  apply restores_bind; [apply restores_lift_opt|]. intros sub.
  apply restores_bind; [apply restores_lift_opt|]. intros gen.
  apply restores_cont_loop; [|apply stack_unsafe_unload].
  intros dep. destruct (str_dec dep name);
    [apply restores_ret|apply stack_unsafe_unload].
Qed.

Lemma stack_atexit_unload : restores import_stack atexit_unload.
Proof.
  apply restores_bind; [apply restores_get|]. intros st.
  apply restores_bind; [apply restores_lift_opt|]. intros gen.
  apply restores_cont_loop; [apply stack_unsafe_unload|apply restores_ret].
Qed.

Lemma stack_lift (A : Type) (c : M state A) :
  restores import_stack c ->
  restores (fun s : state * locals => import_stack (fst s)) (lift c).
Proof.
  intros Hc h s. unfold lift. specialize (Hc h (fst s)).
  destruct (c h (fst s)) as [st1 r]. exact Hc.
Qed.

Lemma stack_cont_reload (w : world) (fuel : nat) (reloads : Digraph string)
  (gen : list string) :
  restores (fun s : state * locals => import_stack (fst s))
           (cont_reload w fuel reloads gen).
Proof.
  apply restores_cont_loop; [|apply restores_ret].
  intros dep. apply restores_bind; [apply restores_get|]. intros s.
  destruct (may_reload reloads (snd s) dep); [|apply restores_ret].
  apply restores_bind; [apply stack_lift, stack_import_module|]. intros _.
  apply restores_modify. reflexivity.
Qed.

Lemma stack_reload (w : world) (fuel : nat) (name : string) :
  restores import_stack (reload w fuel name).
Proof.
  intros h st. unfold reload.
  match goal with
  | |- snd (let (s, r) := ?c h ?s0 in _) <> _ -> _ =>
      assert (Hk : restores (fun s : state * locals => import_stack (fst s)) c);
      [|specialize (Hk h s0); destruct (c h s0); exact Hk]
  end.
  apply restores_bind; [apply restores_lift_opt|]. intros reloads.
  apply restores_bind; [apply restores_lift_opt|]. intros unload_gen.
  apply restores_bind; [apply restores_lift_opt|]. intros reload_gen.
  apply restores_cont_loop.
  - intros dep. unfold unload_one. destruct (str_dec dep name);
      [apply restores_ret|].
    apply restores_bind; [apply stack_lift, stack_unsafe_unload|]. intros _.
    apply restores_modify. reflexivity.
  - apply restores_bind.
    + apply restores_try_except;
        [apply stack_lift, stack_unsafe_unload|apply stack_cont_reload].
    + intros _. apply restores_try_finally; [|apply stack_cont_reload].
      apply restores_bind; [apply stack_lift, stack_import_module|]. intros m.
      apply restores_bind; [apply restores_modify; reflexivity|]. intros _.
      apply restores_ret.
Qed.

(** X17: the stack of initializations is a stack: [load], [unload],
    [reload] and the exit hook, whether they return or raise and however
    deeply the plugins they initialize import one another, leave
    [import_stack] exactly as they found it. *)
Theorem lifecycle_restores_import_stack (w : world) (fuel : nat)
  (name : string) (h : exn) (st : state) :
  (snd (load w fuel name h st) <> OutOfFuel ->
   import_stack (fst (load w fuel name h st)) = import_stack st) /\
  (snd (unload name h st) <> OutOfFuel ->
   import_stack (fst (unload name h st)) = import_stack st) /\
  (snd (reload w fuel name h st) <> OutOfFuel ->
   import_stack (fst (reload w fuel name h st)) = import_stack st) /\
  (snd (atexit_unload h st) <> OutOfFuel ->
   import_stack (fst (atexit_unload h st)) = import_stack st).
Proof.
  split; [apply stack_load|]. split; [apply stack_unload|].
  split; [apply stack_reload|apply stack_atexit_unload].
Qed.

(** ** Unloading leaves nothing behind *)

Import PluginState.

(** What a loop in the [cont] idiom establishes: every pass of [body] and
    the code after the loop keep [I] and what was established, and a pass
    over a [good] item establishes [Q] for it. *)
Section Establishes.
Variables S A B : Type.
Variable I : S -> Prop.
Variable Q : A -> S -> Prop.
Variable R : S -> Prop.
Variable good : A -> Prop.
Variable body : A -> M S unit.
Variable after : M S B.
Hypothesis body_ok : forall x h st, I st ->
  I (fst (body x h st)) /\ snd (body x h st) <> OutOfFuel /\
  (forall y, Q y st -> Q y (fst (body x h st))) /\
  (good x -> Q x (fst (body x h st))).
Hypothesis after_ok : forall h st, I st ->
  I (fst (after h st)) /\ snd (after h st) <> OutOfFuel /\
  (forall y, Q y st -> Q y (fst (after h st))) /\
  R (fst (after h st)).

Lemma cont_loop_establishes (gen : list A) : forall h st, I st ->
  I (fst (cont_loop body after gen h st)) /\
  snd (cont_loop body after gen h st) <> OutOfFuel /\
  (forall y, Q y st -> Q y (fst (cont_loop body after gen h st))) /\
  (forall x, In x gen -> good x -> Q x (fst (cont_loop body after gen h st))) /\
  R (fst (cont_loop body after gen h st)).
Proof.
  induction gen as [|x gen IH]; intros h st HI; simpl.
  - destruct (after_ok h st HI) as (H1 & H2 & H3 & H4).
    repeat apply conj; auto. intros x [].
  - destruct (body_ok x h st HI) as (H1 & H2 & H3 & H4).
    destruct (body x h st) as [st1 [u|e|]]; simpl in *; [| |congruence].
    + destruct (IH h st1 H1) as (K1 & K2 & K3 & K4 & K5).
      repeat apply conj; auto.
      intros y [<-|Hy] Hg; auto.
    + unfold except_reraise.
      destruct (IH e st1 H1) as (K1 & K2 & K3 & K4 & K5).
      destruct (cont_loop body after gen e st1) as [st2 [b|y|]];
        simpl in *; (repeat apply conj; auto; try discriminate;
                     intros y' [<-|Hy] Hg; auto).
Qed.

End Establishes.

Lemma no_edge_nil (g : Digraph string) (x : string) :
  (forall b, ~ edge str_dec g x b) -> edges_from str_dec g x = [].
Proof.
  unfold edge. intros H.
  destruct (edges_from str_dec g x) as [|b l]; [reflexivity|].
  exfalso. apply (H b). now left.
Qed.

(** [finalize_module] drops the entry of the plugin, and touches nothing
    else but the record of the calls. *)
Lemma finalize_module_post (P : string) (h : exn) (st : state) :
  exists st1 r, finalize_module P h st = (st1, r) /\
    deps st1 = deps st /\ sys_modules st1 = sys_modules st /\
    import_stack st1 = import_stack st /\ next_module st1 = next_module st /\
    r <> OutOfFuel /\
    lookup str_dec (finalizers st1) P = None /\
    (forall q, q <> P ->
       lookup str_dec (finalizers st1) q = lookup str_dec (finalizers st) q).
Proof.
  destruct (lookup str_dec (finalizers st) P) as [fins|] eqn:E.
  - rewrite (@finalize_module_run st h P fins E).
    eexists. eexists. split; [reflexivity|]. simpl.
    repeat apply conj; try reflexivity.
    + destruct (raised_by fins); discriminate.
    + rewrite lookup_dict_del. destruct (str_dec P P); congruence.
    + intros q Hq. rewrite lookup_dict_del.
      destruct (str_dec q P); congruence.
  - unfold finalize_module, bind, get. rewrite E.
    eexists. eexists. split; [reflexivity|].
    repeat apply conj; try reflexivity; [discriminate|exact E].
Qed.

(** [unsafe_unload] of a plugin, whatever its finalizers do and whether or
    not it is registered. *)
Lemma unsafe_unload_post (P : string) (h : exn) (st : state) :
  is_plugin P = true -> graph_ok st ->
  exists st' r, unsafe_unload P h st = (st', r) /\ r <> OutOfFuel /\
    graph_ok st' /\
    (forall a b, edge str_dec (deps st') a b <->
                 a <> P /\ edge str_dec (deps st) a b) /\
    (forall q, lookup str_dec (sys_modules st') q =
               if str_dec q P then None
               else lookup str_dec (sys_modules st) q) /\
    (forall q, lookup str_dec (finalizers st') q =
               if str_dec q P then None
               else lookup str_dec (finalizers st) q) /\
    import_stack st' = import_stack st /\
    (lookup str_dec (sys_modules st) P = None ->
     exists ch, r = Raise (KeyError P :: ch)).
Proof.
  intros Hp [Hc Ht].
  destruct (finalize_module_post P h st)
    as (st1 & r1 & E1 & Hd & Hs & Hi & Hn & Hr & Hf & Hfo).
  assert (Hc1 : consistent str_dec (deps st1)) by (rewrite Hd; exact Hc).
  destruct (del_edges_from_spec P Hc1) as (g' & E & Hc' & He & Hk & Hb).
  assert (Hfin : forall h', exists st' r',
    (deps_del_edges_from P ;;; del_sys_module P) h' st1 = (st', r') /\
    r' <> OutOfFuel /\ deps st' = g' /\ finalizers st' = finalizers st1 /\
    import_stack st' = import_stack st1 /\
    (forall q, lookup str_dec (sys_modules st') q =
               if str_dec q P then None
               else lookup str_dec (sys_modules st1) q) /\
    (lookup str_dec (sys_modules st1) P = None ->
     r' = Raise (KeyError P :: h'))).
  { intros h'.
    cbv beta iota delta
      [bind deps_del_edges_from del_sys_module get modify raise].
    rewrite E. simpl. unfold has_key.
    destruct (lookup str_dec (sys_modules st1) P) as [m|] eqn:Ek.
    - eexists. eexists. split; [reflexivity|]. simpl.
      repeat apply conj; try reflexivity; try discriminate.
      intros q. apply lookup_dict_del.
    - eexists. eexists. split; [reflexivity|]. simpl.
      repeat apply conj; try reflexivity; try discriminate.
      intros q. destruct (str_dec q P) as [->|]; [exact Ek|reflexivity]. }
  assert (Hpost : forall st' : state,
    deps st' = g' -> finalizers st' = finalizers st1 ->
    import_stack st' = import_stack st1 ->
    (forall q, lookup str_dec (sys_modules st') q =
               if str_dec q P then None
               else lookup str_dec (sys_modules st1) q) ->
    graph_ok st' /\
    (forall a b, edge str_dec (deps st') a b <->
                 a <> P /\ edge str_dec (deps st) a b) /\
    (forall q, lookup str_dec (sys_modules st') q =
               if str_dec q P then None
               else lookup str_dec (sys_modules st) q) /\
    (forall q, lookup str_dec (finalizers st') q =
               if str_dec q P then None
               else lookup str_dec (finalizers st) q) /\
    import_stack st' = import_stack st).
  { intros st' Ed Ef Ei Em. repeat apply conj.
    - rewrite Ed. exact Hc'.
    - intros k Hk'. rewrite Ed, Hb, Hd in Hk'. now apply Ht.
    - intros a b. rewrite Ed, He, Hd. reflexivity.
    - intros q. rewrite Em, Hs. reflexivity.
    - intros q. rewrite Ef. destruct (str_dec q P) as [->|Hq];
        [exact Hf|now apply Hfo].
    - congruence. }
  unfold unsafe_unload. rewrite Hp. simpl. unfold try_finally. rewrite E1.
  destruct r1 as [u|x|]; [| |congruence].
  - destruct (Hfin h) as (st' & r' & EF & Hr' & Ed & Ef & Ei & Em & Ek).
    rewrite EF.
    exists st', (match r' with Ok _ => Ok u | Raise y => Raise y
                 | OutOfFuel => OutOfFuel end).
    split; [destruct r'; reflexivity|].
    split; [destruct r'; congruence|].
    destruct (Hpost st' Ed Ef Ei Em) as (G1 & G2 & G3 & G4 & G5).
    refine (conj G1 (conj G2 (conj G3 (conj G4 (conj G5 _))))).
    intros Hno. rewrite <- Hs in Hno. rewrite (Ek Hno). eauto.
  - unfold except_reraise.
    destruct (Hfin x) as (st' & r' & EF & Hr' & Ed & Ef & Ei & Em & Ek).
    rewrite EF.
    exists st', (match r' with Ok _ => Raise x | Raise y => Raise y
                 | OutOfFuel => OutOfFuel end).
    split; [destruct r'; reflexivity|].
    split; [destruct r'; congruence|].
    destruct (Hpost st' Ed Ef Ei Em) as (G1 & G2 & G3 & G4 & G5).
    refine (conj G1 (conj G2 (conj G3 (conj G4 (conj G5 _))))).
    intros Hno. rewrite <- Hs in Hno. rewrite (Ek Hno). eauto.
Qed.

(** One call of [unsafe_unload] inside a loop, on a plugin or not. *)
Lemma unsafe_unload_step (dep : string) (h : exn) (st : state) :
  graph_ok st ->
  graph_ok (fst (unsafe_unload dep h st)) /\
  snd (unsafe_unload dep h st) <> OutOfFuel /\
  (forall y, unloaded y st -> unloaded y (fst (unsafe_unload dep h st))) /\
  (is_plugin dep = true -> unloaded dep (fst (unsafe_unload dep h st))).
Proof.
  intros Hg. destruct (is_plugin dep) eqn:Hp.
  - destruct (unsafe_unload_post dep h st Hp Hg)
      as (st' & r & E & Hr & Hg' & He & Hm & Hf & _ & _).
    rewrite E. simpl. split; [exact Hg'|]. split; [exact Hr|]. split.
    + intros y (U1 & U2 & U3). unfold unloaded. repeat apply conj.
      * rewrite Hm. destruct (str_dec y dep); auto.
      * rewrite Hf. destruct (str_dec y dep); auto.
      * apply no_edge_nil. intros b Hb. apply He in Hb.
        destruct Hb as [_ Hb]. unfold edge in Hb. rewrite U3 in Hb.
        destruct Hb.
    + intros _. unfold unloaded. repeat apply conj.
      * rewrite Hm. destruct (str_dec dep dep); congruence.
      * rewrite Hf. destruct (str_dec dep dep); congruence.
      * apply no_edge_nil. intros b Hb. apply He in Hb. tauto.
  - unfold unsafe_unload. rewrite Hp. simpl.
    split; [exact Hg|]. split; [discriminate|]. split; [auto|discriminate].
Qed.

Lemma unsafe_unload_keeps_no_edges (dep : string) (h : exn) (st : state) :
  graph_ok st ->
  forall y, edges_from str_dec (deps st) y = [] ->
            edges_from str_dec (deps (fst (unsafe_unload dep h st))) y = [].
Proof.
  intros Hg y Hy. destruct (is_plugin dep) eqn:Hp.
  - destruct (unsafe_unload_post dep h st Hp Hg)
      as (st' & r & E & _ & _ & He & _).
    rewrite E. simpl. apply no_edge_nil. intros b Hb. apply He in Hb.
    destruct Hb as [_ Hb]. unfold edge in Hb. rewrite Hy in Hb. destruct Hb.
  - unfold unsafe_unload. rewrite Hp. simpl. exact Hy.
Qed.

(** X18: [unsafe_unload] of a plugin, whatever its finalizers raise and
    whether or not the plugin is registered, removes the plugin from
    [sys.modules], from [finalizers] and from the sources of the graph,
    and touches no other plugin: the other entries of [sys.modules] and of
    [finalizers] and the edges that leave other vertices are as before.
    When the plugin was not registered the call raises [KeyError] for it,
    after the cleanup. *)
Theorem unsafe_unload_leaves_nothing (P : string) (h : exn) (st : state) :
  is_plugin P = true -> graph_ok st ->
  snd (unsafe_unload P h st) <> OutOfFuel /\
  unloaded P (fst (unsafe_unload P h st)) /\
  graph_ok (fst (unsafe_unload P h st)) /\
  (forall q, q <> P ->
     lookup str_dec (sys_modules (fst (unsafe_unload P h st))) q =
       lookup str_dec (sys_modules st) q /\
     lookup str_dec (finalizers (fst (unsafe_unload P h st))) q =
       lookup str_dec (finalizers st) q /\
     (forall b, edge str_dec (deps (fst (unsafe_unload P h st))) q b <->
                edge str_dec (deps st) q b)) /\
  (lookup str_dec (sys_modules st) P = None ->
   exists ch, snd (unsafe_unload P h st) = Raise (KeyError P :: ch)).
Proof.
  intros Hp Hg.
  destruct (unsafe_unload_step P h st Hg) as (S1 & S2 & _ & S4).
  destruct (unsafe_unload_post P h st Hp Hg)
    as (st' & r & E & Hr & Hg' & He & Hm & Hf & _ & Hk).
  split; [exact S2|]. split; [exact (S4 Hp)|]. split; [exact S1|].
  rewrite E. simpl. split; [|exact Hk].
  intros q Hq. repeat apply conj.
  - rewrite Hm. destruct (str_dec q P); congruence.
  - rewrite Hf. destruct (str_dec q P); congruence.
  - intros b. rewrite He. tauto.
Qed.

(** X19: [unload(P)] of a plugin, whatever the finalizers raise, leaves
    neither [P] nor any plugin with a path to [P] behind: each of them is
    out of [sys.modules], has no entry in [finalizers] and no outgoing
    edge; and the traversals inside never exhaust their bound. *)
Theorem unload_unloads_every_dependent (P : string) (h : exn) (st : state) :
  is_plugin P = true -> graph_ok st ->
  snd (unload P h st) <> OutOfFuel /\
  graph_ok (fst (unload P h st)) /\
  unloaded P (fst (unload P h st)) /\
  (forall q, is_plugin q = true -> path str_dec (deps st) q P ->
             unloaded q (fst (unload P h st))).
Proof.
  intros Hp Hg. pose proof Hg as [Hc _].
  destruct (subgraph_paths_to_spec P Hc)
    as (sub & Es & Hcs & Hkey & _ & _ & _).
  destruct (topo_sort_fwd_members Hcs) as (order & Eo & _ & Hin & _).
  unfold unload, bind, get, lift_opt. rewrite Es, Eo.
  destruct (cont_loop_establishes state string unit graph_ok unloaded
              (unloaded P)
              (fun dep => dep <> P /\ is_plugin dep = true)
              (fun dep => if str_dec dep P then ret tt else unsafe_unload dep)
              (unsafe_unload P)) with (gen := order) (h := h) (st := st)
    as (K1 & K2 & _ & K4 & K5).
  - intros x h' st' HI. destruct (str_dec x P) as [->|Hx].
    + simpl. split; [exact HI|]. split; [discriminate|]. split; [auto|].
      intros [Hne _]. now elim Hne.
    + destruct (unsafe_unload_step x h' st' HI) as (S1 & S2 & S3 & S4).
      split; [exact S1|]. split; [exact S2|]. split; [exact S3|].
      intros [_ Hq]. auto.
  - intros h' st' HI.
    destruct (unsafe_unload_step P h' st' HI) as (S1 & S2 & S3 & S4).
    split; [exact S1|]. split; [exact S2|]. split; [exact S3|]. auto.
  - exact Hg.
  - split; [exact K2|]. split; [exact K1|]. split; [exact K5|].
    intros q Hq Hpath. destruct (str_dec q P) as [->|Hne]; [exact K5|].
    apply K4; [|split; assumption].
    apply Hin, Hkey. now left.
Qed.

(** X20: the exit hook, whatever the finalizers raise, leaves no plugin
    behind that is a vertex of the dependency graph, and no edge that
    leaves a plugin. *)
Theorem atexit_unloads_every_vertex (h : exn) (st : state) :
  graph_ok st ->
  snd (atexit_unload h st) <> OutOfFuel /\
  graph_ok (fst (atexit_unload h st)) /\
  (forall q, is_plugin q = true -> is_key (deps st) q ->
             unloaded q (fst (atexit_unload h st))) /\
  (forall a b, is_plugin a = true ->
               ~ edge str_dec (deps (fst (atexit_unload h st))) a b).
Proof.
  intros Hg. pose proof Hg as [Hc _].
  destruct (topo_sort_fwd_members Hc) as (order & Eo & _ & Hin & _).
  unfold atexit_unload, bind, get, lift_opt. rewrite Eo.
  destruct (cont_loop_establishes state string unit graph_ok unloaded
              (fun _ => True)
              (fun dep => is_plugin dep = true)
              unsafe_unload (ret tt)) with (gen := order) (h := h) (st := st)
    as (K1 & K2 & K3 & K4 & _).
  - intros x h' st' HI. apply unsafe_unload_step. exact HI.
  - intros h' st' HI. simpl.
    split; [exact HI|]. split; [discriminate|]. split; auto.
  - exact Hg.
  - assert (Hall : forall q, is_plugin q = true -> is_key (deps st) q ->
        unloaded q (fst (cont_loop unsafe_unload (ret tt) order h st))).
    { intros q Hq Hk. apply K4; [|exact Hq]. now apply Hin. }
    split; [exact K2|]. split; [exact K1|]. split; [exact Hall|].
    intros a b Ha Hab.
    destruct (in_dec str_dec a (keys (fwd (deps st)))) as [Hk|Hk].
    + destruct (Hall a Ha (or_introl Hk)) as (_ & _ & U3).
      unfold edge in Hab. rewrite U3 in Hab. destruct Hab.
    + destruct (cont_loop_establishes state string unit graph_ok
                  (fun y s => edges_from str_dec (deps s) y = [])
                  (fun _ => True) (fun _ => False)
                  unsafe_unload (ret tt)) with (gen := order) (h := h) (st := st)
        as (_ & _ & L3 & _).
      * intros x h' st' HI.
        destruct (unsafe_unload_step x h' st' HI) as (S1 & S2 & _ & _).
        split; [exact S1|]. split; [exact S2|]. split; [|intros []].
        now apply unsafe_unload_keeps_no_edges.
      * intros h' st' HI. simpl.
        split; [exact HI|]. split; [discriminate|]. split; auto.
      * exact Hg.
      * unfold edge in Hab. rewrite (L3 a) in Hab; [destruct Hab|].
        unfold edges_from, entry.
        apply (lookup_None_keys str_dec) in Hk. rewrite Hk. reflexivity.
Qed.

(** ** An initialization that raises is rolled back *)





(** ** What a successful load records *)


(** An invariant about a registered plugin [P] survives every import, as
    long as it survives what an import does to the other plugins: a plugin
    that is initialized was not registered before, so it is not [P]. *)
Section ImportKeepsOthers.
Variable P : string.
Variable I : state -> Prop.
Hypothesis I_frame : forall st st',
  deps st' = deps st -> sys_modules st' = sys_modules st -> I st -> I st'.
Hypothesis I_add_edge : forall st cur parent,
  is_plugin parent = true -> I st ->
  I (set_deps (add_edge str_dec (deps st) cur parent) st).
Hypothesis I_del_edges : forall st name, name <> P ->
  I st -> I (set_deps (fst (del_edges_from str_dec (deps st) name)) st).
Hypothesis I_register : forall st name m, name <> P -> I st ->
  I (set_next_module (S (next_module st))
       (set_sys_modules (dict_set str_dec (sys_modules st) name m) st)).
Hypothesis I_unregister : forall st name, name <> P -> I st ->
  I (set_sys_modules (dict_del str_dec (sys_modules st) name) st).
Hypothesis I_registered : forall st, I st ->
  lookup str_dec (sys_modules st) P <> None.





End ImportKeepsOthers.






(** ** Reloading *)

Lemma subgraph_nothing_incoming (g : Digraph string) (x : string) :
  edges_to str_dec g x = [] -> subgraph_paths_to str_dec g x = Some empty.
Proof.
  intros H. unfold subgraph_paths_to, depth_bound.
  rewrite sub_dfs_unfold. simpl.
  unfold edges_to in H. rewrite H. reflexivity.
Qed.

(** X23: [reload] of a plugin no plugin depends on is [unsafe_unload]
    followed, if that returned, by the import: the same state and the same
    result, whether they return or raise. *)
Theorem reload_without_dependents (w : world) (fuel : nat) (name : string)
  (h : exn) (st : state) :
  edges_to str_dec (deps st) name = [] ->
  reload w fuel name h st =
  (unsafe_unload name ;;; import_module w fuel name) h st.
Proof.
  intros H. unfold reload.
  unfold bind at 1, lift_opt at 1.
  rewrite (subgraph_nothing_incoming (deps st) name H).
  assert (Ef : topo_sort_fwd str_dec (@empty string) = Some [])
    by reflexivity.
  assert (Eb : topo_sort_bck str_dec (@empty string) = Some [])
    by reflexivity.
  cbv beta iota delta [bind lift_opt]. rewrite Ef, Eb.
  cbv beta iota zeta delta
    [bind cont_loop reload_self cont_reload try_except try_finally
     except_reraise lift ret add_reload_success modify fst snd].
  destruct (unsafe_unload name h st) as [st1 [u|x|]]; [|reflexivity|reflexivity].
  destruct (import_module w fuel name h st1) as [st2 [m|y|]]; reflexivity.
Qed.

Lemma reload_without_dependents_witness :
  reload world_ok 5 plugin_c [] (loaded_chain world_ok) =
  (unsafe_unload plugin_c ;;; import_module world_ok 5 plugin_c) []
    (loaded_chain world_ok).
Proof.
  apply (reload_without_dependents world_ok 5 plugin_c [] (loaded_chain world_ok)).
  vm_compute. reflexivity.
Defined.

(** *** [unsafe_reload] *)

Lemma reload_registered_returns (w : world) (fuel : nat) (name : string)
  (m : module) (h : exn) (st : state) :
  lookup str_dec (sys_modules st) name = Some m ->
  forall m', snd (Reloading.reload_registered w fuel name h st) = Ok m' ->
             m' = m.
Proof.
  intros H m'. unfold Reloading.reload_registered, bind, get. rewrite H.
  unfold Reloading.reload_module. destruct (w name) as [body|]; [|discriminate].
  unfold bind, ret.
  destruct (exec_module (import_module w fuel) name body h st)
    as [s [u|x|]]; simpl; congruence.
Qed.

Lemma keeps_reload_registered (P : string) (m : module) (w : world)
  (fuel : nat) (name : string) :
  keeps (fun st => lookup str_dec (sys_modules st) P = Some m)
        (Reloading.reload_registered w fuel name).
Proof.
  apply keeps_bind; [apply keeps_get|]. intros st.
  destruct (lookup str_dec (sys_modules st) name) as [m0|];
    [|apply keeps_raise].
  unfold Reloading.reload_module. destruct (w name) as [body|];
    [|apply keeps_raise].
  apply keeps_bind; [|intros _; apply keeps_ret].
  apply keeps_exec_module; auto.
  - intros s s' _ Hs H. rewrite Hs. exact H.
  - intros n. apply import_keeps_registered.
Qed.

(** X24: [unsafe_reload] runs the new code over the module object that is
    registered: whatever the finalizers and the new body do, the plugin
    is registered as the same module object afterwards, and that object
    is what the call returns when it returns. *)
Theorem unsafe_reload_same_module_object (w : world) (fuel : nat)
  (name : string) (m : module) (h : exn) (st : state) :
  is_plugin name = true ->
  lookup str_dec (sys_modules st) name = Some m ->
  lookup str_dec
    (sys_modules (fst (Reloading.unsafe_reload w fuel name h st))) name =
    Some m /\
  (forall m', snd (Reloading.unsafe_reload w fuel name h st) = Ok m' ->
              m' = m).
Proof.
  intros Hp Hm. unfold Reloading.unsafe_reload. rewrite Hp. simpl.
  destruct (finalize_module_post name h st)
    as (st1 & r1 & E1 & _ & Hs & _).
  rewrite E1.
  assert (Hm1 : lookup str_dec (sys_modules st1) name = Some m)
    by (rewrite Hs; exact Hm).
  assert (Hfin : forall h',
    lookup str_dec
      (sys_modules (fst ((deps_del_edges_from name ;;;
                          Reloading.reload_registered w fuel name) h' st1)))
      name = Some m /\
    (forall m', snd ((deps_del_edges_from name ;;;
                      Reloading.reload_registered w fuel name) h' st1) = Ok m' ->
                m' = m)).
  { intros h'.
    assert (Hd : lookup str_dec
              (sys_modules (fst (deps_del_edges_from name h' st1))) name =
              Some m).
    { unfold deps_del_edges_from, bind, get.
      destruct (del_edges_from str_dec (deps st1) name) as [g [y|]];
        exact Hm1. }
    unfold bind at 1 2.
    destruct (deps_del_edges_from name h' st1) as [s2 [u|x|]];
      simpl in Hd |- *.
    - split.
      + now apply (@keeps_reload_registered name m w fuel name h' s2).
      + now apply reload_registered_returns.
    - split; [exact Hd|discriminate].
    - split; [exact Hd|discriminate]. }
  destruct r1 as [u|x|].
  - apply Hfin.
  - unfold except_reraise. destruct (Hfin x) as [F1 F2].
    destruct ((deps_del_edges_from name ;;;
               Reloading.reload_registered w fuel name) x st1)
      as [s2 [m'|y|]]; simpl in *; split; auto; discriminate.
  - simpl. split; [exact Hm1|discriminate].
Qed.

(** ** What holds in every state *)

(** X25: whatever sequence of [load], [unload], [reload] and exit-hook
    calls the manager has run, with whatever sources, and whatever they
    raised, the two mappings of the dependency graph describe the same
    edges without duplicates, and every vertex an edge points to is a
    plugin. *)
Theorem reachable_states_keep_graph_invariant (cs : list command) :
  consistent str_dec (deps (run_commands cs)) /\
  (forall a b, edge str_dec (deps (run_commands cs)) a b ->
               is_plugin b = true).
Proof.
  destruct (reachable_graph_ok cs) as [Hc Ht]. split; [exact Hc|].
  intros a b Hab. apply Ht.
  apply (cons_inverse Hc) in Hab. unfold edges_to, entry in Hab.
  destruct (lookup str_dec (bck (deps (run_commands cs))) b) as [s|] eqn:E;
    [|destruct Hab].
  exact (lookup_Some_keys _ _ _ E).
Qed.

(** X26: [load] never unregisters or replaces a module: whatever was
    registered in [sys.modules] before the call is registered as the same
    module object after it, whether the call returns or raises and
    whatever the plugins it initializes do. *)
Theorem load_keeps_registered_modules (w : world) (fuel : nat)
  (name Q : string) (m : module) (h : exn) (st : state) :
  lookup str_dec (sys_modules st) Q = Some m ->
  lookup str_dec (sys_modules (fst (load w fuel name h st))) Q = Some m.
Proof.
  intros H.
  apply (@keeps_load (fun s => lookup str_dec (sys_modules s) Q = Some m));
    auto.
  - intros s s' _ Hs Hl. rewrite Hs. exact Hl.
  - intros s name' m' Hn Hl. simpl. rewrite lookup_dict_set.
    destruct (str_dec Q name') as [->|]; [congruence|exact Hl].
  - intros s0 s name' Hn H0 Hl. simpl. rewrite lookup_dict_del.
    destruct (str_dec Q name') as [->|]; [congruence|exact Hl].
Qed.

Lemma load_keeps_registered_modules_witness :
  lookup str_dec (sys_modules loaded_alone) plugin_a = Some (PluginModule 0) /\
  lookup str_dec
    (sys_modules (fst (load world_b_fails 5 plugin_c [] loaded_alone)))
    plugin_a = Some (PluginModule 0).
Proof.
  split; [reflexivity|].
  apply (load_keeps_registered_modules world_b_fails 5 plugin_c plugin_a
           (PluginModule 0) [] loaded_alone).
  reflexivity.
Defined.

(** ** The additional properties at concrete inputs *)

Lemma del_edges_from_removes_exactly_witness :
  consistent string_dec chain_graph /\
  exists g',
    del_edges_from string_dec chain_graph "plugins.b"%string = (g', None) /\
    edges_from string_dec g' "plugins.b"%string = [] /\
    edge string_dec g' "plugins.c"%string "plugins.b"%string.
Proof.
  split; [apply run_ops_consistent|].
  destruct (@del_edges_from_removes_exactly string string_dec chain_graph
              "plugins.b"%string (@run_ops_consistent string string_dec _))
    as (g' & E & _ & H1 & H2 & _).
  exists g'. split; [exact E|]. split; [exact H1|].
  apply H2. split; [discriminate|]. vm_compute. now left.
Defined.

Lemma del_edges_to_removes_exactly_witness :
  consistent string_dec chain_graph /\
  exists g',
    del_edges_to string_dec chain_graph "plugins.b"%string = (g', None) /\
    edges_to string_dec g' "plugins.b"%string = [] /\
    edge string_dec g' "plugins.b"%string "plugins.a"%string.
Proof.
  split; [apply run_ops_consistent|].
  destruct (@del_edges_to_removes_exactly string string_dec chain_graph
              "plugins.b"%string (@run_ops_consistent string string_dec _))
    as (g' & E & _ & H1 & H2 & _).
  exists g'. split; [exact E|]. split; [exact H1|].
  apply H2. split; [discriminate|]. vm_compute. now left.
Defined.

Lemma topo_sort_yields_each_key_once_witness :
  consistent string_dec cycle_graph /\
  exists l, topo_sort_fwd string_dec cycle_graph = Some l /\ NoDup l /\
            forall v, In v l <-> is_key cycle_graph v.
Proof.
  split; [apply run_ops_consistent|].
  apply (@topo_sort_yields_each_key_once string string_dec cycle_graph).
  apply run_ops_consistent.
Defined.

Lemma subgraph_paths_to_is_tidy_subgraph_witness :
  consistent string_dec cycle_graph /\
  exists sub,
    subgraph_paths_to string_dec cycle_graph "a"%string = Some sub /\
    consistent string_dec sub /\
    (forall v, is_key sub v <-> incident string_dec sub v) /\
    (forall a b, edge string_dec sub a b -> edge string_dec cycle_graph a b) /\
    (acyclic string_dec cycle_graph -> acyclic string_dec sub).
Proof.
  split; [apply run_ops_consistent|].
  apply (@subgraph_paths_to_is_tidy_subgraph string string_dec cycle_graph).
  apply run_ops_consistent.
Defined.

Lemma subgraph_paths_to_without_incoming_edge_witness :
  edges_to string_dec chain_graph "plugins.c"%string = [] /\
  subgraph_paths_to string_dec chain_graph "plugins.c"%string = Some empty.
Proof.
  split; [reflexivity|].
  apply (@subgraph_paths_to_without_incoming_edge string string_dec).
  reflexivity.
Defined.

Lemma trace_import_outside_namespace_witness :
  is_plugin "util.restart" = false /\
  trace_import (import_module world_ok 5) "util.restart" [] initial =
  import_module world_ok 5 "util.restart" [] initial.
Proof.
  split; [reflexivity|].
  apply (trace_import_outside_namespace (import_module world_ok 5)
           "util.restart" [] initial).
  reflexivity.
Defined.


Lemma finalizers_run_in_registration_order_witness :
  exists st1 st2 r,
    run_body (import_module world_ok 5) (map SFinalizer three_finalizers) []
             (set_import_stack [plugin_a] initial) = (st1, Ok tt) /\
    finalize_module plugin_a [] st1 = (st2, r) /\
    log st2 = map Called three_finalizers ++ [Dropped plugin_a] /\
    lookup str_dec (finalizers st2) plugin_a = None.
Proof.
  apply (finalizers_run_in_registration_order (import_module world_ok 5)
           plugin_a [] [] [] three_finalizers
           (set_import_stack [plugin_a] initial)).
  - reflexivity.
  - reflexivity.
  - discriminate.
Defined.

Lemma unsafe_unload_leaves_nothing_witness :
  is_plugin plugin_b = true /\
  PluginState.unloaded plugin_b
    (fst (unsafe_unload plugin_b [] (loaded_chain world_ok))) /\
  lookup str_dec
    (sys_modules (fst (unsafe_unload plugin_b [] (loaded_chain world_ok))))
    plugin_c = Some (PluginModule 0).
Proof.
  split; [reflexivity|].
  destruct (unsafe_unload_leaves_nothing plugin_b [] (loaded_chain world_ok)
              eq_refl (loaded_chain_graph_ok world_ok))
    as (_ & H1 & _ & H2 & _).
  split; [exact H1|].
  destruct (H2 plugin_c ltac:(discriminate)) as (H3 & _).
  rewrite H3. reflexivity.
Defined.

Lemma unload_unloads_every_dependent_witness :
  path str_dec (deps (loaded_chain world_ok)) plugin_c plugin_a /\
  PluginState.unloaded plugin_a
    (fst (unload plugin_a [] (loaded_chain world_ok))) /\
  PluginState.unloaded plugin_c
    (fst (unload plugin_a [] (loaded_chain world_ok))).
Proof.
  assert (Hp : path str_dec (deps (loaded_chain world_ok)) plugin_c plugin_a).
  { apply (walk_more str_dec _ plugin_c plugin_b plugin_a).
    - apply walk_one. vm_compute. now left.
    - vm_compute. now left. }
  split; [exact Hp|].
  destruct (unload_unloads_every_dependent plugin_a [] (loaded_chain world_ok)
              eq_refl (loaded_chain_graph_ok world_ok))
    as (_ & _ & H1 & H2).
  split; [exact H1|]. apply H2; [reflexivity|exact Hp].
Defined.

Lemma atexit_unloads_every_vertex_witness :
  is_key (deps (loaded_chain world_ok)) plugin_a /\
  PluginState.unloaded plugin_a
    (fst (atexit_unload [] (loaded_chain world_ok))).
Proof.
  assert (Hk : is_key (deps (loaded_chain world_ok)) plugin_a).
  { right. vm_compute. auto. }
  split; [exact Hk|].
  destruct (atexit_unloads_every_vertex [] (loaded_chain world_ok)
              (loaded_chain_graph_ok world_ok)) as (_ & _ & H & _).
  apply H; [reflexivity|exact Hk].
Defined.

Lemma unsafe_reload_same_module_object_witness :
  lookup str_dec (sys_modules loaded_alone) plugin_a = Some (PluginModule 0) /\
  lookup str_dec
    (sys_modules (fst (Reloading.unsafe_reload Reloading.world_one_fails 5
                         plugin_a [] loaded_alone))) plugin_a =
    Some (PluginModule 0).
Proof.
  split; [reflexivity|].
  apply (proj1 (unsafe_reload_same_module_object Reloading.world_one_fails 5
                  plugin_a (PluginModule 0) [] loaded_alone
                  eq_refl eq_refl)).
Defined.

(** ** What [reload] returns *)

Lemma cont_loop_returned (S A B : Type) (body : A -> M S unit)
  (after : M S B) (gen : list A) :
  forall h st st' b, cont_loop body after gen h st = (st', Ok b) ->
    exists h1 st1, after h1 st1 = (st', Ok b).
Proof.
  induction gen as [|x gen IH]; intros h st st' b; simpl.
  - eauto.
  - destruct (body x h st) as [st1 [u|e|]].
    + apply IH.
    + unfold except_reraise.
      destruct (cont_loop body after gen e st1) as [st2 [b'|y|]];
        discriminate.
    + discriminate.
Qed.

Lemma keeps_lift_any (I : state -> Prop) (A : Type) (c : M state A) :
  keeps I c -> keeps (fun s : state * locals => I (fst s)) (lift c).
Proof.
  intros Hc h s H. unfold lift. specialize (Hc h (fst s) H).
  destruct (c h (fst s)) as [st1 r]. exact Hc.
Qed.

Lemma keeps_cont_reload_any (I : state -> Prop) (w : world) (fuel : nat)
  (reloads : Digraph string) (gen : list string) :
  (forall n, keeps I (import_module w fuel n)) ->
  keeps (fun s : state * locals => I (fst s)) (cont_reload w fuel reloads gen).
Proof.
  intros Hi. apply keeps_cont_loop; [|apply keeps_ret].
  intros dep. apply keeps_bind; [apply keeps_get|]. intros s.
  destruct (may_reload reloads (snd s) dep); [|apply keeps_ret].
  apply keeps_bind; [apply keeps_lift_any, Hi|]. intros _.
  apply keeps_modify. auto.
Qed.

(** X27: when [reload] of a plugin returns, the module object it returns
    is the one registered for the plugin, whatever the reload pass over
    the dependents did after the plugin itself was imported. *)
Theorem reload_returns_registered_module (w : world) (fuel : nat)
  (name : string) (h : exn) (st st' : state) (m : module) :
  is_plugin name = true ->
  reload w fuel name h st = (st', Ok m) ->
  lookup str_dec (sys_modules st') name = Some m.
Proof.
  intros Hp. unfold reload.
  cbv beta iota delta [bind lift_opt].
  destruct (subgraph_paths_to str_dec (deps st) name) as [reloads|];
    [|discriminate].
  destruct (topo_sort_fwd str_dec reloads) as [unload_gen|]; [|discriminate].
  destruct (topo_sort_bck str_dec reloads) as [reload_gen|]; [|discriminate].
  destruct (cont_loop (unload_one name)
              (reload_self w fuel reloads reload_gen name) unload_gen h
              (st, mkLocals [] [])) as [s r] eqn:E.
  intros [= <- ->].
  apply cont_loop_returned in E. destruct E as (h1 & s1 & E).
  revert E. unfold reload_self.
  cbv beta iota delta [bind try_except try_finally except_reraise].
  destruct (lift (unsafe_unload name) h1 s1) as [s2 [u|x|]].
  2:{ destruct (cont_reload w fuel reloads reload_gen x s2) as [s3 [u|y|]];
      discriminate. }
  2:{ discriminate. }
  unfold lift at 1.
  destruct (import_module w fuel name h1 (fst s2)) as [st3 [m'|y|]] eqn:EI.
  - cbv beta iota delta [add_reload_success modify ret fst snd].
    pose proof (@import_module_registers w fuel name h1 (fst s2) st3 m' Hp EI)
      as Hreg.
    match goal with
    | |- context [cont_reload w fuel reloads reload_gen h1 ?s3] =>
        pose proof (keeps_cont_reload_any
                      (fun st0 => lookup str_dec (sys_modules st0) name = Some m')
                      w fuel reloads reload_gen
                      (fun n => @import_keeps_registered name m' w fuel n)
                      h1 s3 Hreg) as K;
        destruct (cont_reload w fuel reloads reload_gen h1 s3) as [s4 [u'|z|]]
    end; try discriminate.
    intros [= <- <-]. exact K.
  - cbv beta iota.
    destruct (cont_reload w fuel reloads reload_gen y (st3, snd s2))
      as [s4 [u'|z|]]; discriminate.
  - discriminate.
Qed.

Lemma reload_returns_registered_module_witness :
  reload world_ok 5 plugin_a [] (loaded_chain world_ok) =
    (fst (reload world_ok 5 plugin_a [] (loaded_chain world_ok)),
     Ok (PluginModule 3)) /\
  lookup str_dec
    (sys_modules (fst (reload world_ok 5 plugin_a [] (loaded_chain world_ok))))
    plugin_a = Some (PluginModule 3).
Proof.
  assert (E : reload world_ok 5 plugin_a [] (loaded_chain world_ok) =
              (fst (reload world_ok 5 plugin_a [] (loaded_chain world_ok)),
               Ok (PluginModule 3))) by (vm_compute; reflexivity).
  split; [exact E|].
  apply (reload_returns_registered_module world_ok 5 plugin_a []
           (loaded_chain world_ok) _ (PluginModule 3) eq_refl E).
Defined.

